(** * MNIST drawing demo: normalisation, softmax and decision

    A shallow embedding of [src/MNIST/Linux/MNIST.cpp].

    - [int] is a 32-bit two's complement integer, kept as a [Z] with the
      wrap-around written out ([Int.wrap]).
    - [float] is IEEE-754 binary32, kept as a [spec_float] of the standard
      library with precision 24 and maximal exponent 128; additions,
      subtractions and divisions round to nearest, ties to even.
    - [std::vector<uint8_t>] and [std::array<float, N>] are lists; a read or
      a write outside the container is undefined behaviour in C++ and is
      [None] here. *)

From Stdlib Require Import ZArith Lia Bool SpecFloat QArith Qabs Qpower.
From Stdlib Require Import Strings.Byte String.
From stdpp Require Import base list vector.

Local Open Scope Z_scope.

(** ** 32-bit signed integers *)

Module Int.

Definition min_signed : Z := - 2 ^ 31.
Definition max_signed : Z := 2 ^ 31 - 1.

(** The value a 32-bit register holds for the mathematical integer [z]. *)
Definition wrap (z : Z) : Z := (z + 2 ^ 31) mod 2 ^ 32 - 2 ^ 31.

Definition add (a b : Z) : Z := wrap (a + b).
Definition mul (a b : Z) : Z := wrap (a * b).
(** C++ division truncates towards zero. *)
Definition div (a b : Z) : Z := wrap (Z.quot a b).

(** Integral promotion of a [uint8_t]. *)
Definition of_u8 (b : byte) : Z := Z.of_N (Byte.to_N b).

(** Conversion of an [int] index to [size_t] (64 bits). *)
Definition to_size_t (i : Z) : Z := i mod 2 ^ 64.

Definition in_range (z : Z) : Prop := min_signed <= z <= max_signed.

End Int.

(** ** binary32 *)

Module F32.

Definition prec : Z := 24.
Definition emax : Z := 128.

Definition float32 : Type := spec_float.

Definition add : float32 -> float32 -> float32 := SFadd prec emax.
Definition sub : float32 -> float32 -> float32 := SFsub prec emax.
Definition div : float32 -> float32 -> float32 := SFdiv prec emax.
Definition ltb : float32 -> float32 -> bool := SFltb.
Definition leb : float32 -> float32 -> bool := SFleb.

(** Conversion of an [int] to [float] (round to nearest even). *)
Definition of_int (n : Z) : float32 := binary_normalize prec emax n 0 false.

(** The binary32 nearest to [m * 2^e]. *)
Definition ldexp (m e : Z) : float32 := binary_normalize prec emax m e false.

Definition zero : float32 := S754_zero false.
Definition one : float32 := Eval vm_compute in of_int 1.

Definition is_nan (x : float32) : bool :=
  match x with S754_nan => true | _ => false end.

Definition is_finite (x : float32) : bool :=
  match x with S754_zero _ | S754_finite _ _ _ => true | _ => false end.

(** A value of the format: canonical mantissa and exponent in range. *)
Definition valid (x : float32) : bool := valid_binary prec emax x.

(** The rational number a finite value stands for (0 for the others). *)
Definition to_Q (x : float32) : Q :=
  match x with
  | S754_finite s m e => inject_Z (cond_Zopp s (Zpos m)) * Qpower (2 # 1) e
  | _ => 0
  end%Q.

(** The value of a finite number of the format in units of [2^-149], the
    smallest positive binary32: an integer, since no exponent of the format
    is below [-149]. *)
Definition units (x : float32) : Z :=
  match x with
  | S754_finite s m e => cond_Zopp s (Zpos m * 2 ^ (e + 149))
  | _ => 0
  end.

(** A sort key for the numbers that are not NaN: the class of the number,
    then exponent and mantissa, as [SFcompare] reads them. *)
Definition key (x : float32) : Z * Z * Z :=
  match x with
  | S754_infinity true => (-2, 0, 0)
  | S754_finite true m e => (-1, - e, - Zpos m)
  | S754_zero _ | S754_nan => (0, 0, 0)
  | S754_finite false m e => (1, e, Zpos m)
  | S754_infinity false => (2, 0, 0)
  end.

(** A finite number of the format (a zero, a subnormal or a normal one). *)
Definition finite_valid (x : float32) : bool := is_finite x && valid x.

(** The number with a zero made positive. *)
Definition pos_zero (x : float32) : float32 :=
  match x with S754_zero _ => S754_zero false | _ => x end.

Definition key_lt (a b : Z * Z * Z) : Prop :=
  a.1.1 < b.1.1
  \/ (a.1.1 = b.1.1 /\ (a.1.2 < b.1.2 \/ (a.1.2 = b.1.2 /\ a.2 < b.2))).

End F32.

Abbreviation float32 := F32.float32.

(** ** Containers *)

(** [v[i]] and [v[i] = x] on a [std::vector] or [std::array], for an index
    [i] of type [size_t]; no bounds check in the source, so a miss is
    undefined. *)
Definition vec_get {A} (v : list A) (i : Z) : option A := v !! Z.to_nat i.

Definition vec_set {A} (v : list A) (i : Z) (x : A) : option (list A) :=
  if decide (Z.to_nat i < length v)%nat then Some (<[Z.to_nat i := x]> v) else None.

(** The same with an [int] index, converted to [size_t] at the call. *)
Definition vec_at {A} (v : list A) (i : Z) : option A :=
  vec_get v (Int.to_size_t i).

Definition vec_store {A} (v : list A) (i : Z) (x : A) : option (list A) :=
  vec_set v (Int.to_size_t i) x.

(** [std::fill(v.begin(), v.end(), x)]. *)
Definition fill {A} (v : list A) (x : A) : list A := (fun _ => x) <$> v.

(** [for (int i = lo; i < lo + n; ++i) body], the state threaded through
    and an undefined step ending the run. *)
Fixpoint for_each {St} (range : list Z) (body : Z -> St -> option St) (s : St)
  : option St :=
  match range with
  | [] => Some s
  | i :: rest =>
      match body i s with
      | Some s' => for_each rest body s'
      | None => None
      end
  end.

(** ** The model object *)

Definition MNIST_WIDTH : Z := 28.
Definition MNIST_HEIGHT : Z := 28.

Record MNISTModel := mkModel {
  input_image_ : list float32;   (* std::array<float, 28*28> *)
  results_ : list float32        (* std::array<float, 10> *)
}.

(** The sizes fixed by the two [std::array] types. *)
Definition model_wf (m : MNISTModel) : Prop :=
  length (input_image_ m) = 784%nat /\ length (results_ m) = 10%nat.

(** Both arrays are value-initialised ([{}]). *)
Definition model_init : MNISTModel :=
  mkModel (replicate 784 F32.zero) (replicate 10 F32.zero).

(** ** convertImage *)

Module Normalizer.

Definition f3 : float32 := Eval vm_compute in F32.of_int 3.
Definition f255 : float32 := Eval vm_compute in F32.of_int 255.

(** [(255.0f - (r + g + b) / 3.0f) / 255.0f] *)
Definition cell_value (r g b : byte) : float32 :=
  let val := F32.div (F32.of_int (Int.add (Int.add (Int.of_u8 r) (Int.of_u8 g))
                                          (Int.of_u8 b))) f3 in
  F32.div (F32.sub f255 val) f255.

(** The same value, from the sum of the three channels. *)
Definition cell_of_sum (s : Z) : float32 :=
  F32.div (F32.sub f255 (F32.div (F32.of_int s) f3)) f255.

(** [(255 - L) / 255] for the exact average [L = s / 3], as a rational. *)
Definition exact_cell (s : Z) : Q := ((255 - inject_Z s / 3) / 255)%Q.

(** The three index computations of the loop body, in [int] arithmetic. *)
Definition srcY (bigHeight row : Z) : Z :=
  Int.div (Int.mul row bigHeight) MNIST_HEIGHT.
Definition srcX (bigWidth col : Z) : Z :=
  Int.div (Int.mul col bigWidth) MNIST_WIDTH.
Definition src_idx (bigWidth bigHeight row col : Z) : Z :=
  Int.mul (Int.add (Int.mul (srcY bigHeight row) bigWidth) (srcX bigWidth col)) 4.

(** The body of the inner loop. *)
Definition convert_cell (sdl_pixels : list byte) (bigWidth bigHeight : Z)
    (row col : Z) (img : list float32) : option (list float32) :=
  let idx := src_idx bigWidth bigHeight row col in
  match vec_at sdl_pixels (Int.add idx 0),
        vec_at sdl_pixels (Int.add idx 1),
        vec_at sdl_pixels (Int.add idx 2) with
  | Some r, Some g, Some b =>
      vec_store img (Int.add (Int.mul row MNIST_WIDTH) col) (cell_value r g b)
  | _, _, _ => None
  end.

Definition convert_row (sdl_pixels : list byte) (bigWidth bigHeight : Z)
    (row : Z) (img : list float32) : option (list float32) :=
  for_each (seqZ 0 MNIST_WIDTH)
           (convert_cell sdl_pixels bigWidth bigHeight row) img.

Definition convertImage (m : MNISTModel) (sdl_pixels : list byte)
    (bigWidth bigHeight : Z) : option MNISTModel :=
  let img := fill (input_image_ m) F32.zero in
  match for_each (seqZ 0 MNIST_HEIGHT)
                 (convert_row sdl_pixels bigWidth bigHeight) img with
  | Some img' => Some (mkModel img' (results_ m))
  | None => None
  end.

(** The arithmetic of the loop body stays inside [int]: the largest
    products [27 * bigWidth], [27 * bigHeight] and the byte size of the
    capture are representable. *)
Definition fits_int (W H : Z) : Prop :=
  27 * W <= Int.max_signed /\ 27 * H <= Int.max_signed /\
  W * H * 4 <= Int.max_signed.

(** A capture as the caller hands it over: positive sides and a buffer of
    exactly [W * H * 4] bytes. *)
Definition capture (px : list byte) (W H : Z) : Prop :=
  1 <= W /\ 1 <= H /\ Z.of_nat (length px) = W * H * 4.

(** An intensity inside the closed interval [[0, 1]]. *)
Definition in_unit (v : float32) : bool :=
  F32.leb F32.zero v && F32.leb v F32.one.

End Normalizer.


(** ** std::exp

    [std::exp] on [float] belongs to the C library, not to the repository,
    and the C++ standard fixes no accuracy for it: the decision layer below
    is parametric in it.  [ExpRef.expf] is one implementation, used to run
    the model on concrete inputs: the Taylor series of the exponential on
    the argument divided by 256, evaluated with 80 bits of precision,
    squared eight times and rounded once to binary32. *)

Module ExpRef.

Definition hprec : Z := 80.
Definition hemax : Z := 65536.

Definition hadd := SFadd hprec hemax.
Definition hmul := SFmul hprec hemax.
Definition hdiv := SFdiv hprec hemax.
Definition of_Z (n : Z) : spec_float := binary_normalize hprec hemax n 0 false.

(** [1 + r/k * (1 + r/(k+1) * (1 + ...))], [n] factors deep. *)
Fixpoint taylor (n : nat) (k : Z) (r : spec_float) : spec_float :=
  match n with
  | O => of_Z 1
  | S n' => hadd (of_Z 1) (hmul (hdiv r (of_Z k)) (taylor n' (k + 1) r))
  end.

Fixpoint square_n (n : nat) (x : spec_float) : spec_float :=
  match n with
  | O => x
  | S n' => square_n n' (hmul x x)
  end.

Definition round32 (x : spec_float) : float32 :=
  match x with
  | S754_finite s m e => binary_normalize F32.prec F32.emax (cond_Zopp s (Zpos m)) e s
  | _ => x
  end.

Definition expf (x : float32) : float32 :=
  match x with
  | S754_nan => S754_nan
  | S754_infinity false => x
  | S754_infinity true => F32.zero
  | S754_zero _ => F32.one
  | S754_finite s _ _ =>
      if F32.leb (F32.of_int 128) (SFabs x)
      then (if s then F32.zero else S754_infinity false)
      else round32 (square_n 8 (taylor 30 1 (hdiv x (of_Z 256))))
  end.

End ExpRef.

(** ** The decision layer: softmax and the class index *)

Module Decision.

(** [std::max_element]: [largest] is the position of the greatest element
    met so far and is replaced only by a strictly greater one. *)
Fixpoint max_element_loop (rest : list float32) (first largest : nat)
    (largest_val : float32) : nat :=
  match rest with
  | [] => largest
  | x :: rest' =>
      if F32.ltb largest_val x
      then max_element_loop rest' (S first) first x
      else max_element_loop rest' (S first) largest largest_val
  end.

(** The position returned by [std::max_element(v.begin(), v.end())]; on an
    empty range it is [v.end()]. *)
Definition max_element (v : list float32) : nat :=
  match v with
  | [] => 0%nat
  | x :: rest => max_element_loop rest 1 0 x
  end.

Section WithExp.

Variable expf : float32 -> float32.

(** The first loop: [y[i] = exp(input[i] - rowmax); sum += y[i]]. *)
Definition exp_step (input : list float32) (rowmax : float32) (i : Z)
    (st : list float32 * float32) : option (list float32 * float32) :=
  let '(y, sum) := st in
  xi ← vec_get input i;
  let val := expf (F32.sub xi rowmax) in
  y' ← vec_set y i val;
  Some (y', F32.add sum val).

(** The second loop: [input[i] = y[i] / sum]. *)
Definition div_step (y : list float32) (sum : float32) (i : Z)
    (input : list float32) : option (list float32) :=
  yi ← vec_get y i;
  vec_set input i (F32.div yi sum).

(** [softmax(input)]: the contents of [input] on return. *)
Definition softmax (input : list float32) : option (list float32) :=
  rowmax ← input !! max_element input;
  let n := length input in
  '(y, sum) ← for_each (seqZ 0 (Z.of_nat n)) (exp_step input rowmax)
                       (replicate n F32.zero, F32.zero);
  for_each (seqZ 0 (Z.of_nat n)) (div_step y sum) input.

(** The tail of [Run]: softmax on the raw outputs, then the position of the
    greatest probability, converted to [int]. *)
Definition predict (logits : list float32) : option (list float32 * Z) :=
  p ← softmax logits;
  Some (p, Int.wrap (Z.of_nat (max_element p))).

(** *** The reference definition of the specification *)

(** [max(logits)]. *)
Definition fmax (a b : float32) : float32 := if F32.ltb a b then b else a.

Definition maximum (v : list float32) : float32 :=
  match v with
  | [] => F32.zero
  | x :: rest => fold_left fmax rest x
  end.

(** [p_i = exp(x_i - max x) / sum_j exp(x_j - max x)], the sum taken in
    index order from [0.0f]. *)
Definition softmax_reference (x : list float32) : list float32 :=
  let m := maximum x in
  let e := (fun xi => expf (F32.sub xi m)) <$> x in
  let s := fold_left F32.add e F32.zero in
  (fun ei => F32.div ei s) <$> e.

End WithExp.

(** [i] is the first position of [p] that holds a greatest element. *)
Definition first_maximum (p : list float32) (i : nat) : Prop :=
  exists pi, p !! i = Some pi
    /\ (forall j pj, p !! j = Some pj -> F32.ltb pi pj = false)
    /\ (forall j pj, (j < i)%nat -> p !! j = Some pj -> F32.ltb pj pi = true).

(** [shifted] holds the logits of [logits] plus the constant [c * 2^-149],
    each sum exact, all numbers finite. *)
Definition exact_shift (logits shifted : list float32) (c : Z) : Prop :=
  Forall2 (fun x x' => F32.finite_valid x = true /\ F32.finite_valid x' = true
                       /\ F32.units x' = F32.units x + c) logits shifted.

(** Two ranges whose elements compare alike, position by position. *)
Definition same_order (v w : list float32) : Prop :=
  length v = length w
  /\ forall i j a b a' b',
       v !! i = Some a -> v !! j = Some b ->
       w !! i = Some a' -> w !! j = Some b' ->
       F32.ltb a b = F32.ltb a' b'.

End Decision.

(** ** The program around the model: loading, Run and the event loop

    The ONNX Runtime and SDL are outside the repository.  [Engine] lists
    what the runtime does for the calls the program makes, [Sdl] what the
    window system answers; every theorem below holds for all of them. *)

Module App.

(** [Ort::Exception], with the text of [what()]. *)
Record OrtException := mkOrt { what : string }.

(** A call into the runtime returns or throws [Ort::Exception]. *)
Inductive result (A : Type) :=
  | Ok (a : A)
  | Throws (e : OrtException)
  | Undefined.
Arguments Ok {A} a.
Arguments Throws {A} e.
Arguments Undefined {A}.

Record Engine := mkEngine {
  Session : Type;
  (** [Ort::Env env_{ORT_LOGGING_LEVEL_WARNING, "mnist-env"}] *)
  create_env : OrtException + unit;
  (** [Ort::Session(env_, model_path, session_options)] *)
  create_session : string -> OrtException + Session;
  (** [Ort::MemoryInfo::CreateCpu(OrtDeviceAllocator, OrtMemTypeCPU)] *)
  create_memory_info : OrtException + unit;
  (** [Ort::Value::CreateTensor<float>(info, data, count, shape, rank)]:
      the element count and the shape are what the call sees. *)
  create_tensor : nat -> list Z -> OrtException + unit;
  (** [session_.Run] from the tensor over [input_image_] into the tensor
      over [results_], ten floats. *)
  session_run : Session -> list float32 -> OrtException + vec float32 10;
  (** The input and output shapes the loaded model declares; the program
      never asks for them. *)
  declared_shapes : Session -> list Z * list Z
}.

Definition input_shape_ : list Z := [1; 1; MNIST_HEIGHT; MNIST_WIDTH].
Definition output_shape_ : list Z := [1; 10].

(** A loaded [MNISTModel]: the session and the two arrays. *)
Record Handle (E : Engine) := mkHandle {
  session_ : Session E;
  arrays : MNISTModel
}.
Arguments mkHandle {E} _ _.
Arguments session_ {E} _.
Arguments arrays {E} _.

(** The constructor [MNISTModel(model_path)], member initialisers first. *)
Definition MNISTModel_new (E : Engine) (model_path : string)
  : result (Handle E) :=
  let m := model_init in
  match create_env E with
  | inl e => Throws e
  | inr _ =>
  match create_session E model_path with
  | inl e => Throws e
  | inr s =>
  match create_memory_info E with
  | inl e => Throws e
  | inr _ =>
  match create_tensor E (length (input_image_ m)) input_shape_ with
  | inl e => Throws e
  | inr _ =>
  match create_tensor E (length (results_ m)) output_shape_ with
  | inl e => Throws e
  | inr _ => Ok (mkHandle s m)
  end end end end end.

(** *** main *)

Definition width : Z := MNIST_WIDTH * 10.
Definition height : Z := MNIST_HEIGHT * 8.

Definition SDL_BUTTON_LEFT : Z := 1.
Definition SDL_BUTTON_RIGHT : Z := 3.
Definition SDLK_ESCAPE : Z := 27.

Inductive event :=
  | SDL_QUIT
  | SDL_KEYDOWN (sym : Z)
  | SDL_MOUSEBUTTONDOWN (button x y : Z)
  | SDL_MOUSEBUTTONUP (button : Z)
  | SDL_MOUSEMOTION (x y : Z)
  | SDL_OTHER.

Record Sdl := mkSdl {
  init_ok : bool;                 (* SDL_Init(SDL_INIT_VIDEO) >= 0 *)
  window_ok : bool;               (* SDL_CreateWindow returned a window *)
  renderer_ok : bool;             (* SDL_CreateRenderer returned a renderer *)
  get_error : string;             (* SDL_GetError() *)
  (** The byte [SDL_RenderReadPixels] leaves at an offset of the buffer,
      at the [n]-th read of the run. *)
  read_pixel : nat -> nat -> byte
}.

(** What the process hands to its two streams, in the order of the calls:
    a line on [std::cerr] (ended by [std::endl]), a text on [std::cout]
    (no flush follows: it stays in the buffer of the stream until the next
    [std::endl] or a normal exit), a prediction on [std::cout] (two lines,
    each ended by [std::endl]). *)
Inductive output :=
  | Cerr (prefix message : string)
  | Cout (text : string)
  | CoutPrediction (predicted : Z) (probabilities : list float32).

(** How the process ends: [main] returns, an exception leaves [main]
    ([std::terminate]), the behaviour is undefined, or the loop is still
    polling when the events given are used up.  [log] is what was handed to
    the streams up to there; [std::terminate] flushes nothing, so after
    [Terminated] the part of [std::cout] behind the last [std::endl] need
    not have reached the terminal. *)
Inductive outcome :=
  | Exited (code : Z) (log : list output)
  | Terminated (e : OrtException) (log : list output)
  | Undefined_behaviour (log : list output)
  | Polling (log : list output).

Record loop_state (E : Engine) := mkLoop {
  quit : bool;
  drawing : bool;
  lastPos : Z * Z;
  reads : nat;
  mnistModel : Handle E;
  log : list output
}.
Arguments mkLoop {E} _ _ _ _ _ _.
Arguments quit {E} _.
Arguments drawing {E} _.
Arguments lastPos {E} _.
Arguments reads {E} _.
Arguments mnistModel {E} _.
Arguments log {E} _.

Definition clamp (v lo hi : Z) : Z := if v <? lo then lo else if hi <? v then hi else v.

(** [std::vector<uint8_t> pixels(width*height*4)] filled by
    [SDL_RenderReadPixels]. *)
Definition read_pixels (sdl : Sdl) (n : nat) : list byte :=
  read_pixel sdl n <$> seq 0 (Z.to_nat (Int.mul (Int.mul width height) 4)).

Section WithExp.

Variable expf : float32 -> float32.

(** [Run()]: the class index and the model with [results_] overwritten. *)
Definition Run {E : Engine} (h : Handle E) : result (Z * Handle E) :=
  match session_run E (session_ h) (input_image_ (arrays h)) with
  | inl e => Throws e
  | inr out =>
      match Decision.predict expf (vec_to_list out) with
      | Some (p, index) =>
          Ok (index, mkHandle (session_ h) (mkModel (input_image_ (arrays h)) p))
      | None => Undefined
      end
  end.

(** One event of the inner loop: the next state, or the end of the
    process. *)
Definition handle_event {E : Engine} (sdl : Sdl) (e : event) (st : loop_state E)
  : loop_state E + outcome :=
  match e with
  | SDL_QUIT =>
      inl (mkLoop true (drawing st) (lastPos st) (reads st) (mnistModel st) (log st))
  | SDL_KEYDOWN sym =>
      if sym =? SDLK_ESCAPE
      then inl (mkLoop true (drawing st) (lastPos st) (reads st) (mnistModel st) (log st))
      else inl st
  | SDL_MOUSEBUTTONDOWN button x y =>
      if button =? SDL_BUTTON_LEFT
      then inl (mkLoop (quit st) true
                  (clamp x 0 (width - 1), clamp y 0 (height - 1))
                  (reads st) (mnistModel st) (log st))
      else inl st
  | SDL_MOUSEBUTTONUP button =>
      if button =? SDL_BUTTON_LEFT then
        let pixels := read_pixels sdl (reads st) in
        match Normalizer.convertImage (arrays (mnistModel st)) pixels width height with
        | None => inr (Undefined_behaviour (log st))
        | Some m =>
            match Run (mkHandle (session_ (mnistModel st)) m) with
            | Throws e => inr (Terminated e (log st))
            | Undefined => inr (Undefined_behaviour (log st))
            | Ok (predicted, h) =>
                inl (mkLoop (quit st) false (lastPos st) (S (reads st)) h
                       (log st ++ [CoutPrediction predicted (results_ (arrays h))]))
            end
        end
      else inl st
  | SDL_MOUSEMOTION x y =>
      if drawing st
      then inl (mkLoop (quit st) (drawing st)
                  (clamp x 0 (width - 1), clamp y 0 (height - 1))
                  (reads st) (mnistModel st) (log st))
      else inl st
  | SDL_OTHER => inl st
  end.

(** [while (SDL_PollEvent(&e)) ...] over the events queued for one frame. *)
Fixpoint poll_events {E : Engine} (sdl : Sdl) (queue : list event)
    (st : loop_state E) : loop_state E + outcome :=
  match queue with
  | [] => inl st
  | e :: rest =>
      match handle_event sdl e st with
      | inl st' => poll_events sdl rest st'
      | inr o => inr o
      end
  end.

(** [while (!quit) ...], one list of events per frame. *)
Fixpoint main_loop {E : Engine} (sdl : Sdl) (frames : list (list event))
    (st : loop_state E) : outcome :=
  if quit st then Exited 0 (log st) else
  match frames with
  | [] => Polling (log st)
  | queue :: rest =>
      match poll_events sdl queue st with
      | inl st' => main_loop sdl rest st'
      | inr o => o
      end
  end.

(** The text of line 192, with its final newline. *)
Definition banner : string :=
  String.append
    "Left-click to draw, right-click to clear. Press ESC or close window to quit."
    (String (Ascii.ascii_of_nat 10) EmptyString).

Definition main (E : Engine) (sdl : Sdl) (frames : list (list event)) : outcome :=
  match MNISTModel_new E "mnist.onnx" with
  | Throws e => Exited (-1) [Cerr "ONNX Runtime error: " (what e)]
  | Undefined => Undefined_behaviour []
  | Ok h =>
      if negb (init_ok sdl) then
        Exited (-1) [Cerr "SDL cannot init: " (get_error sdl)]
      else if negb (window_ok sdl) then
        Exited (-1) [Cerr "Failed to create window: " (get_error sdl)]
      else if negb (renderer_ok sdl) then
        Exited (-1) [Cerr "Failed to create renderer: " (get_error sdl)]
      else
        main_loop sdl frames (mkLoop false false (0, 0) 0%nat h [Cout banner])
  end.

End WithExp.

(** *** Two runtimes to run the program with *)

(** A model file as the runtime sees it: the shapes it declares. *)
Record model_file := mkFile {
  file_input_shape : list Z;
  file_output_shape : list Z
}.

(** A runtime over a file system holding one model file at ["mnist.onnx"]
    (or none): a session is created when the file is there, a tensor when
    the element count is the product of the shape, and [Run] answers
    [infer]. *)
Definition engine_with (file : option model_file)
    (infer : list float32 -> OrtException + vec float32 10) : Engine :=
  {| Session := model_file;
     create_env := inr tt;
     create_session path :=
       if String.eqb path "mnist.onnx" then
         match file with
         | Some f => inr f
         | None => inl (mkOrt "Load model from mnist.onnx failed: File doesn't exist")
         end
       else inl (mkOrt "Load model failed: File doesn't exist");
     create_memory_info := inr tt;
     create_tensor count shape :=
       if Z.of_nat count =? fold_right Z.mul 1 shape then inr tt
       else inl (mkOrt "not enough space");
     session_run _ img := infer img;
     declared_shapes f := (file_input_shape f, file_output_shape f) |}.

(** A runtime with the expected model file whose [Run] reports a fault. *)
Definition faulty_engine (message : string) : Engine :=
  engine_with (Some (mkFile input_shape_ output_shape_))
              (fun _ => inl (mkOrt message)).

Definition quiet_sdl : Sdl :=
  {| init_ok := true; window_ok := true; renderer_ok := true;
     get_error := ""; read_pixel _ _ := "255"%byte |}.

End App.

(** ** Signs and ranges of binary32 numbers *)

Module Rounding.

(** A finite number of the format that is not negative. *)
Definition nonneg (x : float32) : bool :=
  F32.finite_valid x
  && match x with S754_finite true _ _ => false | _ => true end.

(** A zero, a negative number or minus infinity. *)
Definition nonpos (x : float32) : bool :=
  match x with
  | S754_zero _ | S754_finite true _ _ | S754_infinity true => true
  | _ => false
  end.

(** A finite number of the format inside [[0, 1]], by the comparisons of
    the format. *)
Definition probability (v : float32) : bool :=
  F32.finite_valid v && F32.leb F32.zero v && F32.leb v F32.one.

(** The same, in units of [2^-149]: [1.0f] is [2^149] units. *)
Definition unit_value (v : float32) : Prop :=
  nonneg v = true /\ F32.units v <= 2 ^ 149.

End Rounding.

(** ** Rounding to nearest: where the exact value lies *)

Module Nearest.

(** The exact value [num / den] lies in [[a, a + 1)], at the place in the
    interval that the location [l] names: on [a], below the middle, on the
    middle or above it. *)
Definition located (num den a : Z) (l : location) : Prop :=
  a * den <= num < (a + 1) * den
  /\ match l with
     | loc_Exact => num = a * den
     | loc_Inexact Lt => a * den < num /\ 2 * (num - a * den) < den
     | loc_Inexact Eq => 2 * (num - a * den) = den
     | loc_Inexact Gt => den < 2 * (num - a * den)
     end.

End Nearest.

(** ** The softmax output as a distribution *)

Module Distribution.

(** What is asked of [std::exp]: [exp(+0) = 1], and the result at a zero, a
    negative number or minus infinity is a finite number of [[0, 1]]. *)
Definition exp_ok (expf : float32 -> float32) : Prop :=
  expf F32.zero = F32.one
  /\ forall t, Rounding.nonpos t = true -> Rounding.probability (expf t) = true.

(** The exact sum of the entries, as a rational. *)
Definition total (p : list float32) : Q :=
  foldr (fun v acc => (F32.to_Q v + acc)%Q) 0%Q p.

Definition total_units (p : list float32) : Z :=
  foldr (fun v acc => F32.units v + acc) 0 p.

(** [ExpRef.expf] with its results at non-positive arguments kept inside
    [[0, 1]]. *)
Definition expf_sat (x : float32) : float32 :=
  let r := ExpRef.expf x in
  if Rounding.nonpos x then (if Rounding.probability r then r else F32.zero) else r.

End Distribution.

(** ** The bytes convertImage reads *)

Module Sampling.

(** The positions of the buffer the double loop reads, in the order of the
    reads: three bytes for each of the 784 cells. *)
Definition sample_indices (W H : Z) : list Z :=
  r ← seqZ 0 MNIST_HEIGHT; c ← seqZ 0 MNIST_WIDTH;
  (fun k => Int.add (Normalizer.src_idx W H r c) k) <$> [0; 1; 2].

Definition same_byte (a b : option byte) : bool :=
  match a, b with
  | Some x, Some y => Byte.eqb x y
  | None, None => true
  | _, _ => false
  end.

(** Two buffers hold the same byte, or both nothing, at every position
    read. *)
Definition same_samples (px1 px2 : list byte) (W H : Z) : bool :=
  forallb (fun i => same_byte (vec_at px1 i) (vec_at px2 i)) (sample_indices W H).

(** Every colour byte (R, G or B; not alpha) of the buffer is [v]. *)
Definition uniform (v : byte) (px : list byte) : Prop :=
  forall i b, px !! i = Some b -> (i mod 4 <> 3)%nat -> b = v.

(** The position of the last byte read on a capture that fits [int]: the
    blue channel of the pixel sampled for the cell (27, 27). *)
Definition last_read (W H : Z) : Z := (27 * H / 28 * W + 27 * W / 28) * 4 + 2.

(** From one channel sum to the next the intensity falls. *)
Definition step_down (s : Z) : bool :=
  F32.units (Normalizer.cell_of_sum (s + 1)) <? F32.units (Normalizer.cell_of_sum s).

End Sampling.

(** ** The events main handles *)

Module Events.

(** A release of the left button: the event that asks for a prediction. *)
Definition is_release (e : App.event) : bool :=
  match e with
  | App.SDL_MOUSEBUTTONUP button => button =? App.SDL_BUTTON_LEFT
  | _ => false
  end.

(** [SDL_QUIT], or a key press of ESC: the events that set [quit]. *)
Definition is_quit (e : App.event) : bool :=
  match e with
  | App.SDL_QUIT => true
  | App.SDL_KEYDOWN sym => sym =? App.SDLK_ESCAPE
  | _ => false
  end.

Definition releases (queue : list App.event) : nat :=
  length (filter (fun e => is_release e = true) queue).

(** The events the loop gets to: those of every frame up to the first one
    that holds a quit event, that frame included to its end. *)
Fixpoint handled (frames : list (list App.event)) : list App.event :=
  match frames with
  | [] => []
  | queue :: rest => queue ++ (if existsb is_quit queue then [] else handled rest)
  end.

(** A printed prediction: a class from 0 to 9 and ten probabilities. *)
Definition is_prediction (o : App.output) : bool :=
  match o with
  | App.CoutPrediction predicted probabilities =>
      (0 <=? predicted) && (predicted <? 10)
      && Nat.eqb (length probabilities) 10
  | _ => false
  end.

(** What every state of the loop keeps: the two arrays have their sizes. *)
Definition state_wf {E : App.Engine} (st : App.loop_state E) : Prop :=
  model_wf (App.arrays (App.mnistModel st)).

(** Whether the left button is held after an event. *)
Definition held_after (held : bool) (e : App.event) : bool :=
  match e with
  | App.SDL_MOUSEBUTTONDOWN button _ _ =>
      if button =? App.SDL_BUTTON_LEFT then true else held
  | App.SDL_MOUSEBUTTONUP button =>
      if button =? App.SDL_BUTTON_LEFT then false else held
  | _ => held
  end.

(** The pointer motions made with the left button held. *)
Fixpoint drags (held : bool) (queue : list App.event) : nat :=
  match queue with
  | [] => 0
  | e :: rest =>
      (match e with
       | App.SDL_MOUSEMOTION _ _ => if held then 1 else 0
       | _ => 0
       end + drags (held_after held e) rest)%nat
  end.

(** An end of the process other than undefined behaviour. *)
Definition defined (o : App.outcome) : bool :=
  match o with
  | App.Undefined_behaviour _ => false
  | _ => true
  end.

End Events.

(** ** The captures session_.Run is called on *)

Module Faults.

(** The image [convertImage] makes of the [k]-th capture of the run. *)
Definition image (sdl : App.Sdl) (k : nat) : option (list float32) :=
  input_image_ <$>
    Normalizer.convertImage model_init (App.read_pixels sdl k) App.width App.height.

(** [session_.Run] returned on the image of the [k]-th capture. *)
Definition answered (E : App.Engine) (sdl : App.Sdl) (s : App.Session E)
    (k : nat) : Prop :=
  exists img out, image sdl k = Some img /\ App.session_run E s img = inr out.

(** [session_.Run] threw [e] on the image of the [k]-th capture. *)
Definition faulted (E : App.Engine) (sdl : App.Sdl) (s : App.Session E)
    (k : nat) (e : App.OrtException) : Prop :=
  exists img, image sdl k = Some img /\ App.session_run E s img = inl e.

End Faults.

(** ** The SDL calls of main *)

Module Render.

(** The calls main makes on the window, the renderer and the canvas
    texture, with the arguments the program computes. *)
Inductive call :=
  | SDL_Init
  | SDL_CreateWindow (w h : Z)
  | SDL_CreateRenderer
  | SDL_SetRenderDrawBlendMode
  | SDL_RenderSetScale
  | SDL_CreateTexture (w h : Z)
  | SDL_SetRenderTarget (texture : bool)   (* the canvas texture, or NULL *)
  | SDL_SetRenderDrawColor (r g b a : Z)
  | SDL_RenderClear
  | SDL_RenderDrawLine (x1 y1 x2 y2 : Z)
  | SDL_RenderReadPixels (pitch : Z)
  | SDL_RenderCopy
  | SDL_RenderPresent
  | SDL_Delay (ms : Z)
  | SDL_DestroyTexture
  | SDL_DestroyRenderer
  | SDL_DestroyWindow
  | SDL_Quit.

(** The canvas made white: at the start and on a right click. *)
Definition clear_canvas : list call :=
  [SDL_SetRenderTarget true; SDL_SetRenderDrawColor 255 255 255 255;
   SDL_RenderClear; SDL_SetRenderTarget false].

(** The calls of one [case] of the [switch], in the state the event finds. *)
Definition event_calls {E : App.Engine} (e : App.event) (st : App.loop_state E)
  : list call :=
  match e with
  | App.SDL_MOUSEBUTTONDOWN button _ _ =>
      if button =? App.SDL_BUTTON_LEFT then []
      else if button =? App.SDL_BUTTON_RIGHT then clear_canvas
      else []
  | App.SDL_MOUSEBUTTONUP button =>
      if button =? App.SDL_BUTTON_LEFT then
        [SDL_SetRenderTarget true;
         SDL_RenderReadPixels (Int.mul App.width 4);
         SDL_SetRenderTarget false]
      else []
  | App.SDL_MOUSEMOTION x y =>
      if App.drawing st then
        let x' := App.clamp x 0 (App.width - 1) in
        let y' := App.clamp y 0 (App.height - 1) in
        let lx := (App.lastPos st).1 in
        let ly := (App.lastPos st).2 in
        [SDL_SetRenderTarget true; SDL_RenderDrawLine lx ly x' y']
        ++ ((fun i => SDL_RenderDrawLine (Int.add lx i) ly (Int.add x' i) y')
              <$> seqZ (-2) 5)
        ++ [SDL_SetRenderTarget false]
      else []
  | _ => []
  end.

(** The end of each turn of the outer loop: the window is redrawn. *)
Definition frame_calls : list call :=
  [SDL_SetRenderDrawColor 200 200 200 255; SDL_RenderClear;
   SDL_RenderCopy; SDL_RenderPresent; SDL_Delay 10].

Definition setup_calls : list call :=
  [SDL_Init; SDL_CreateWindow App.width App.height; SDL_CreateRenderer;
   SDL_SetRenderDrawBlendMode; SDL_RenderSetScale;
   SDL_CreateTexture App.width App.height]
  ++ clear_canvas.

Definition cleanup_calls : list call :=
  [SDL_DestroyTexture; SDL_DestroyRenderer; SDL_DestroyWindow; SDL_Quit].

Section WithExp.

Variable expf : float32 -> float32.

(** The calls of the inner loop, up to its end or to the exception. *)
Fixpoint poll_calls {E : App.Engine} (sdl : App.Sdl) (queue : list App.event)
    (st : App.loop_state E) : list call :=
  match queue with
  | [] => []
  | e :: rest =>
      event_calls e st
      ++ match App.handle_event expf sdl e st with
         | inl st' => poll_calls sdl rest st'
         | inr _ => []
         end
  end.

(** The calls of the outer loop and of the lines after it. *)
Fixpoint loop_calls {E : App.Engine} (sdl : App.Sdl)
    (frames : list (list App.event)) (st : App.loop_state E) : list call :=
  if App.quit st then cleanup_calls else
  match frames with
  | [] => []
  | queue :: rest =>
      poll_calls sdl queue st
      ++ match App.poll_events expf sdl queue st with
         | inl st' => frame_calls ++ loop_calls sdl rest st'
         | inr _ => []
         end
  end.

(** The calls of a run of main, in order. *)
Definition main_calls (E : App.Engine) (sdl : App.Sdl)
    (frames : list (list App.event)) : list call :=
  match App.MNISTModel_new E "mnist.onnx" with
  | App.Ok h =>
      if negb (App.init_ok sdl) then [SDL_Init]
      else if negb (App.window_ok sdl) then
        [SDL_Init; SDL_CreateWindow App.width App.height; SDL_Quit]
      else if negb (App.renderer_ok sdl) then
        [SDL_Init; SDL_CreateWindow App.width App.height; SDL_CreateRenderer;
         SDL_DestroyWindow; SDL_Quit]
      else
        setup_calls
        ++ loop_calls sdl frames
             (App.mkLoop false false (0, 0) 0%nat h [App.Cout App.banner])
  | _ => []
  end.

End WithExp.

(** *** What is read off a list of calls *)

(** The draw colour in force at each [SDL_RenderDrawLine], from the colour
    [c] in force at the start. *)
Fixpoint line_colours (c : Z * Z * Z * Z) (calls : list call)
  : list (Z * Z * Z * Z) :=
  match calls with
  | [] => []
  | SDL_SetRenderDrawColor r g b a :: rest => line_colours (r, g, b, a) rest
  | SDL_RenderDrawLine _ _ _ _ :: rest => c :: line_colours c rest
  | _ :: rest => line_colours c rest
  end.

Definition white : Z * Z * Z * Z := (255, 255, 255, 255).
Definition grey : Z * Z * Z * Z := (200, 200, 200, 255).

(** The render target after the calls, from the target at the start, if
    every line and every read of pixels found the canvas texture as the
    target and every copy and present the window. *)
Fixpoint run_target (texture : bool) (calls : list call) : option bool :=
  match calls with
  | [] => Some texture
  | SDL_SetRenderTarget t :: rest => run_target t rest
  | (SDL_RenderDrawLine _ _ _ _ | SDL_RenderReadPixels _) :: rest =>
      if texture then run_target texture rest else None
  | (SDL_RenderCopy | SDL_RenderPresent) :: rest =>
      if texture then None else run_target texture rest
  | _ :: rest => run_target texture rest
  end.

(** The number of [SDL_RenderDrawLine] calls. *)
Fixpoint lines (calls : list call) : nat :=
  match calls with
  | [] => 0
  | SDL_RenderDrawLine _ _ _ _ :: rest => S (lines rest)
  | _ :: rest => lines rest
  end.

Definition is_cleanup (c : call) : bool :=
  match c with
  | SDL_DestroyTexture | SDL_DestroyRenderer | SDL_DestroyWindow | SDL_Quit => true
  | _ => false
  end.

(** A line with both ends in the rows of the canvas and at most two
    columns outside it. *)
Definition line_in_reach (c : call) : bool :=
  match c with
  | SDL_RenderDrawLine x1 y1 x2 y2 =>
      (-2 <=? x1) && (x1 <=? App.width + 1) && (0 <=? y1) && (y1 <=? App.height - 1)
      && (-2 <=? x2) && (x2 <=? App.width + 1) && (0 <=? y2) && (y2 <=? App.height - 1)
  | _ => true
  end.

(** The point the next line starts from lies on the canvas. *)
Definition on_canvas {E : App.Engine} (st : App.loop_state E) : Prop :=
  0 <= (App.lastPos st).1 <= App.width - 1
  /\ 0 <= (App.lastPos st).2 <= App.height - 1.

End Render.

(** * Properties *)

(** ** Integer arithmetic and loops *)

Lemma wrap_small z : Int.in_range z -> Int.wrap z = z.
Proof.
  unfold Int.in_range, Int.min_signed, Int.max_signed, Int.wrap.
  intros Hz. rewrite Z.mod_small by lia. lia.
Qed.

Lemma to_size_t_small z : 0 <= z <= Int.max_signed -> Int.to_size_t z = z.
Proof.
  unfold Int.max_signed, Int.to_size_t. intros Hz.
  apply Z.mod_small. lia.
Qed.

Lemma of_u8_range b : 0 <= Int.of_u8 b <= 255.
Proof.
  unfold Int.of_u8. pose proof (Byte.to_N_bounded b). lia.
Qed.

(** A counting loop whose body keeps an invariant runs to its end. *)
Lemma for_each_inv {St} (P : Z -> St -> Prop) (body : Z -> St -> option St) n :
  forall lo s,
    P lo s ->
    (forall i t, lo <= i < lo + Z.of_nat n -> P i t ->
       exists t', body i t = Some t' /\ P (i + 1) t') ->
    exists s', for_each (seqZ lo (Z.of_nat n)) body s = Some s'
               /\ P (lo + Z.of_nat n) s'.
Proof.
  induction n as [|n IH]; intros lo s HP Hstep.
  - exists s. split; [reflexivity|]. now replace (lo + Z.of_nat 0) with lo by lia.
  - rewrite Nat2Z.inj_succ, seqZ_cons by lia. simpl.
    destruct (Hstep lo s) as (t & Ht & HPt); [lia|exact HP|].
    rewrite Ht.
    replace (Z.pred (Z.succ (Z.of_nat n))) with (Z.of_nat n) by lia.
    destruct (IH (Z.succ lo) t) as (s' & Hs' & HPs').
    + now replace (Z.succ lo) with (lo + 1) by lia.
    + intros i u Hi. apply Hstep. lia.
    + exists s'. split; [exact Hs'|].
      now replace (lo + Z.succ (Z.of_nat n)) with (Z.succ lo + Z.of_nat n) by lia.
Qed.

(** A loop with an iteration that is undefined in every state is undefined. *)
Lemma for_each_None {St} (body : Z -> St -> option St) i range :
  i ∈ range -> (forall s, body i s = None) ->
  forall s, for_each range body s = None.
Proof.
  intros Hin Hfail. induction range as [|j rest IH]; intros s.
  - inversion Hin.
  - simpl. destruct (decide (j = i)) as [->|Hne].
    + now rewrite Hfail.
    + destruct (body j s); [|reflexivity].
      apply IH. apply elem_of_cons in Hin as [->|Hin]; [congruence|exact Hin].
Qed.

(** ** convertImage on captures that fit [int] *)

Section ConvertImage.

Import Normalizer.

Variables (px : list byte) (W H : Z).
Hypothesis Hcap : capture px W H.
Hypothesis Hfit : fits_int W H.

Lemma srcY_exact r : 0 <= r < 28 -> srcY H r = r * H / 28 /\ 0 <= srcY H r < H.
Proof using Hcap Hfit.
  intros Hr. destruct Hcap as (HW & HH & _), Hfit as (_ & HfH & _).
  unfold Int.max_signed in *.
  assert (Hq : 0 <= r * H / 28 < H).
  { split; [apply Z.div_pos; nia|apply Z.div_lt_upper_bound; nia]. }
  unfold srcY, MNIST_HEIGHT, Int.div, Int.mul.
  rewrite (wrap_small (r * H)) by (unfold Int.in_range, Int.min_signed, Int.max_signed; nia).
  rewrite Z.quot_div_nonneg by nia.
  rewrite wrap_small by (unfold Int.in_range, Int.min_signed, Int.max_signed; nia).
  auto.
Qed.

Lemma srcX_exact c : 0 <= c < 28 -> srcX W c = c * W / 28 /\ 0 <= srcX W c < W.
Proof using Hcap Hfit.
  intros Hc. destruct Hcap as (HW & HH & _), Hfit as (HfW & _ & _).
  unfold Int.max_signed in *.
  assert (Hq : 0 <= c * W / 28 < W).
  { split; [apply Z.div_pos; nia|apply Z.div_lt_upper_bound; nia]. }
  unfold srcX, MNIST_WIDTH, Int.div, Int.mul.
  rewrite (wrap_small (c * W)) by (unfold Int.in_range, Int.min_signed, Int.max_signed; nia).
  rewrite Z.quot_div_nonneg by nia.
  rewrite wrap_small by (unfold Int.in_range, Int.min_signed, Int.max_signed; nia).
  auto.
Qed.

Lemma src_idx_exact r c :
  0 <= r < 28 -> 0 <= c < 28 ->
  src_idx W H r c = (r * H / 28 * W + c * W / 28) * 4
  /\ 0 <= src_idx W H r c /\ src_idx W H r c + 4 <= W * H * 4.
Proof using Hcap Hfit.
  intros Hr Hc.
  destruct (srcY_exact r Hr) as (Ey & Hy), (srcX_exact c Hc) as (Ex & Hx).
  destruct Hcap as (HW & HH & _), Hfit as (_ & _ & HfA).
  unfold Int.max_signed in *.
  unfold src_idx. rewrite <- Ey, <- Ex.
  set (y := srcY H r) in *. set (x := srcX W c) in *.
  assert (Hyx : 0 <= y * W + x <= W * H - 1) by nia.
  unfold Int.mul, Int.add.
  rewrite (wrap_small (y * W)) by (unfold Int.in_range, Int.min_signed, Int.max_signed; nia).
  rewrite (wrap_small (y * W + x)) by (unfold Int.in_range, Int.min_signed, Int.max_signed; nia).
  rewrite wrap_small by (unfold Int.in_range, Int.min_signed, Int.max_signed; nia).
  lia.
Qed.

(** Every read of the loop body hits the buffer. *)
Lemma pixel_read r c k :
  0 <= r < 28 -> 0 <= c < 28 -> 0 <= k < 4 ->
  Int.add (src_idx W H r c) k = (r * H / 28 * W + c * W / 28) * 4 + k
  /\ exists b, vec_at px (Int.add (src_idx W H r c) k) = Some b
            /\ px !! Z.to_nat ((r * H / 28 * W + c * W / 28) * 4 + k) = Some b.
Proof using Hcap Hfit.
  intros Hr Hc Hk.
  destruct (src_idx_exact r c Hr Hc) as (E & H0 & H1).
  destruct Hcap as (HW & HH & Hlen), Hfit as (_ & _ & HfA).
  unfold Int.max_signed in *.
  assert (Ea : Int.add (src_idx W H r c) k = src_idx W H r c + k).
  { unfold Int.add. apply wrap_small.
    unfold Int.in_range, Int.min_signed, Int.max_signed. lia. }
  split; [rewrite Ea, E; reflexivity|].
  unfold vec_at, vec_get. rewrite Ea, to_size_t_small by (unfold Int.max_signed; lia).
  rewrite <- E.
  destruct (lookup_lt_is_Some_2 px (Z.to_nat (src_idx W H r c + k))) as [b Hb]; [lia|].
  exists b. auto.
Qed.

(** The cell [(r, c)] of [img] holds the inverted luminance of the source
    pixel [(r * H / 28, c * W / 28)]. *)
Definition cell_ok (img : list float32) (r c : Z) : Prop :=
  exists R G B,
    px !! Z.to_nat ((r * H / 28 * W + c * W / 28) * 4) = Some R
    /\ px !! Z.to_nat ((r * H / 28 * W + c * W / 28) * 4 + 1) = Some G
    /\ px !! Z.to_nat ((r * H / 28 * W + c * W / 28) * 4 + 2) = Some B
    /\ img !! Z.to_nat (r * 28 + c) = Some (cell_value R G B).

(** The cells before the linear position [n] are written. *)
Definition done_upto (n : Z) (img : list float32) : Prop :=
  length img = 784%nat
  /\ forall r c, 0 <= r < 28 -> 0 <= c < 28 -> r * 28 + c < n -> cell_ok img r c.

Lemma convert_cell_step r c img :
  0 <= r < 28 -> 0 <= c < 28 -> done_upto (r * 28 + c) img ->
  exists img', convert_cell px W H r c img = Some img'
               /\ done_upto (r * 28 + (c + 1)) img'.
Proof using Hcap Hfit.
  intros Hr Hc (Hlen & Hdone).
  destruct (pixel_read r c 0) as (_ & R & HR & HR'); [lia..|].
  destruct (pixel_read r c 1) as (_ & G & HG & HG'); [lia..|].
  destruct (pixel_read r c 2) as (_ & B & HB & HB'); [lia..|].
  rewrite Z.add_0_r in HR'.
  unfold convert_cell. rewrite HR, HG, HB.
  assert (Ei : Int.add (Int.mul r MNIST_WIDTH) c = r * 28 + c).
  { unfold Int.add, Int.mul, MNIST_WIDTH.
    rewrite (wrap_small (r * 28)) by (unfold Int.in_range, Int.min_signed, Int.max_signed; lia).
    apply wrap_small. unfold Int.in_range, Int.min_signed, Int.max_signed. lia. }
  unfold vec_store, vec_set. rewrite Ei, to_size_t_small by (unfold Int.max_signed; lia).
  destruct (decide _) as [Hlt|Hge]; [|lia].
  eexists. split; [reflexivity|]. split; [now rewrite length_insert|].
  intros r' c' Hr' Hc' Hlin.
  destruct (decide (r' * 28 + c' = r * 28 + c)) as [Heq|Hne].
  - assert (r' = r /\ c' = c) as [-> ->] by lia.
    exists R, G, B. repeat split; try assumption.
    now apply list_lookup_insert_eq.
  - destruct (Hdone r' c') as (R' & G' & B' & H1 & H2 & H3 & H4); [lia..|].
    exists R', G', B'. repeat split; try assumption.
    rewrite list_lookup_insert_ne by lia. exact H4.
Qed.

Lemma convert_row_step r img :
  0 <= r < 28 -> done_upto (r * 28) img ->
  exists img', convert_row px W H r img = Some img'
               /\ done_upto ((r + 1) * 28) img'.
Proof using Hcap Hfit.
  intros Hr Hdone. unfold convert_row, MNIST_WIDTH.
  destruct (for_each_inv (fun c t => done_upto (r * 28 + c) t)
              (convert_cell px W H r) 28 0 img) as (img' & Hrun & Hpost).
  - now rewrite Z.add_0_r.
  - intros c t Hc Ht. apply convert_cell_step; [lia..|exact Ht].
  - exists img'. split; [exact Hrun|].
    now replace ((r + 1) * 28) with (r * 28 + (0 + Z.of_nat 28)) by lia.
Qed.

(** The whole double loop: it runs to its end and writes every cell. *)
Lemma convertImage_run m :
  model_wf m ->
  exists img, convertImage m px W H = Some (mkModel img (results_ m))
              /\ done_upto 784 img.
Proof using Hcap Hfit.
  intros (Hlen & _). unfold convertImage, MNIST_HEIGHT.
  destruct (for_each_inv (fun r t => done_upto (r * 28) t)
              (convert_row px W H) 28 0 (fill (input_image_ m) F32.zero))
    as (img & Hrun & Hpost).
  - split; [unfold fill; now rewrite length_fmap|]. intros; lia.
  - intros r t Hr Ht. apply convert_row_step; [lia|exact Ht].
  - exists img. change (Z.of_nat 28) with 28 in Hrun. rewrite Hrun.
    split; [reflexivity|exact Hpost].
Qed.

End ConvertImage.

(** ** The value of a cell *)

Lemma cell_value_sum r g b :
  Normalizer.cell_value r g b
  = Normalizer.cell_of_sum (Int.of_u8 r + Int.of_u8 g + Int.of_u8 b).
Proof.
  pose proof (of_u8_range r). pose proof (of_u8_range g).
  pose proof (of_u8_range b).
  unfold Normalizer.cell_value, Normalizer.cell_of_sum, Int.add.
  rewrite (wrap_small (_ + Int.of_u8 g))
    by (unfold Int.in_range, Int.min_signed, Int.max_signed; lia).
  rewrite wrap_small
    by (unfold Int.in_range, Int.min_signed, Int.max_signed; lia).
  reflexivity.
Qed.

(** All 766 possible channel sums, checked one by one: the cell is a value
    of the format inside [[0, 1]], within [2^-24] of the exact quotient. *)
Definition cell_check (s : Z) : bool :=
  Normalizer.in_unit (Normalizer.cell_of_sum s)
  && F32.valid (Normalizer.cell_of_sum s)
  && F32.is_finite (Normalizer.cell_of_sum s)
  && Qle_bool (Qabs (F32.to_Q (Normalizer.cell_of_sum s)
                     - Normalizer.exact_cell s)) (1 # 16777216).

Lemma cell_check_all s : 0 <= s <= 765 -> cell_check s = true.
Proof.
  intros Hs.
  assert (Hall : forallb cell_check (seqZ 0 766) = true) by (vm_compute; reflexivity).
  rewrite forallb_forall in Hall. apply Hall.
  apply list_elem_of_In, elem_of_seqZ. lia.
Qed.

Lemma cell_value_unit r g b : Normalizer.in_unit (Normalizer.cell_value r g b) = true.
Proof.
  pose proof (of_u8_range r). pose proof (of_u8_range g).
  pose proof (of_u8_range b).
  rewrite cell_value_sum.
  pose proof (cell_check_all (Int.of_u8 r + Int.of_u8 g + Int.of_u8 b)) as Hc.
  unfold cell_check in Hc. rewrite !andb_true_iff in Hc.
  apply Hc. lia.
Qed.

Lemma cell_value_exact r g b :
  (Qabs (F32.to_Q (Normalizer.cell_value r g b)
         - Normalizer.exact_cell (Int.of_u8 r + Int.of_u8 g + Int.of_u8 b))
   <= 1 # 16777216)%Q.
Proof.
  pose proof (of_u8_range r). pose proof (of_u8_range g).
  pose proof (of_u8_range b).
  rewrite cell_value_sum.
  pose proof (cell_check_all (Int.of_u8 r + Int.of_u8 g + Int.of_u8 b)) as Hc.
  unfold cell_check in Hc. rewrite !andb_true_iff in Hc.
  apply Qle_bool_iff, Hc. lia.
Qed.

(** ** Out-of-range captures *)

Lemma vec_at_negative {A} (v : list A) i :
  Int.min_signed <= i < 0 -> Z.of_nat (length v) <= 2 ^ 63 -> vec_at v i = None.
Proof.
  unfold Int.min_signed, vec_at, vec_get, Int.to_size_t. intros Hi Hlen.
  apply lookup_ge_None_2.
  assert (E : i mod 2 ^ 64 = i + 2 ^ 64).
  { symmetry. apply Z.mod_unique with (q := -1); lia. }
  rewrite E. lia.
Qed.

(** One undefined read makes the whole conversion undefined. *)
Lemma convertImage_None m px W H r c :
  0 <= r < 28 -> 0 <= c < 28 ->
  vec_at px (Int.add (Normalizer.src_idx W H r c) 0) = None ->
  Normalizer.convertImage m px W H = None.
Proof.
  intros Hr Hc Hoob. unfold Normalizer.convertImage.
  rewrite (for_each_None (Normalizer.convert_row px W H) r); [reflexivity| |].
  - apply elem_of_seqZ. unfold MNIST_HEIGHT. lia.
  - intros img. unfold Normalizer.convert_row.
    apply (for_each_None _ c).
    + apply elem_of_seqZ. unfold MNIST_WIDTH. lia.
    + intros t. unfold Normalizer.convert_cell. now rewrite Hoob.
Qed.

Lemma capture_replicate (b : byte) W H :
  1 <= W -> 1 <= H ->
  Normalizer.capture (replicate (Z.to_nat (W * H * 4)) b) W H.
Proof.
  intros HW HH. repeat split; try assumption.
  rewrite length_replicate, Z2Nat.id; [reflexivity|nia].
Qed.

(** ** The claims on convertImage *)

(** C1 (as amended). For every capture with W >= 1, H >= 1 and a buffer of
    W*H*4 bytes whose sizes fit [int] (27*W, 27*H and W*H*4 at most
    2^31 - 1), convertImage runs to its end and leaves in each cell (r, c)
    the value (255 - L) / 255 computed in binary32, L = (R + G + B) / 3.0f,
    for the three colour bytes R, G, B of the source pixel srcY = r*H/28,
    srcX = c*W/28; that value is within 2^-24 of the exact quotient. *)
Theorem convertImage_cells (m : MNISTModel) (px : list byte) (W H : Z) :
  model_wf m -> Normalizer.capture px W H -> Normalizer.fits_int W H ->
  exists m',
    Normalizer.convertImage m px W H = Some m'
    /\ forall r c, 0 <= r < 28 -> 0 <= c < 28 ->
       exists R G B,
         px !! Z.to_nat ((r * H / 28 * W + c * W / 28) * 4) = Some R
         /\ px !! Z.to_nat ((r * H / 28 * W + c * W / 28) * 4 + 1) = Some G
         /\ px !! Z.to_nat ((r * H / 28 * W + c * W / 28) * 4 + 2) = Some B
         /\ input_image_ m' !! Z.to_nat (r * 28 + c)
            = Some (Normalizer.cell_value R G B)
         /\ (Qabs (F32.to_Q (Normalizer.cell_value R G B)
                   - Normalizer.exact_cell (Int.of_u8 R + Int.of_u8 G + Int.of_u8 B))
             <= 1 # 16777216)%Q.
Proof.
  intros Hwf Hcap Hfit.
  destruct (convertImage_run px W H Hcap Hfit m Hwf) as (img & Hrun & _ & Hcells).
  eexists. split; [exact Hrun|]. intros r c Hr Hc.
  destruct (Hcells r c Hr Hc) as (R & G & B & H1 & H2 & H3 & H4); [lia|].
  exists R, G, B. repeat split; try assumption. apply cell_value_exact.
Qed.

Lemma convertImage_cells_witness :
  exists m',
    Normalizer.convertImage model_init (replicate 16 "255"%byte) 2 2 = Some m'
    /\ forall r c, 0 <= r < 28 -> 0 <= c < 28 ->
       exists R G B,
         replicate 16 "255"%byte !! Z.to_nat ((r * 2 / 28 * 2 + c * 2 / 28) * 4) = Some R
         /\ replicate 16 "255"%byte !! Z.to_nat ((r * 2 / 28 * 2 + c * 2 / 28) * 4 + 1) = Some G
         /\ replicate 16 "255"%byte !! Z.to_nat ((r * 2 / 28 * 2 + c * 2 / 28) * 4 + 2) = Some B
         /\ input_image_ m' !! Z.to_nat (r * 28 + c)
            = Some (Normalizer.cell_value R G B)
         /\ (Qabs (F32.to_Q (Normalizer.cell_value R G B)
                   - Normalizer.exact_cell (Int.of_u8 R + Int.of_u8 G + Int.of_u8 B))
             <= 1 # 16777216)%Q.
Proof.
  apply (convertImage_cells model_init (replicate 16 "255"%byte) 2 2).
  - split; reflexivity.
  - repeat split; simpl; lia.
  - repeat split; unfold Int.max_signed; lia.
Defined.

(** C1, as stated, fails on a capture 2^27 pixels wide and one pixel high
    (a buffer of 2^29 bytes): at column 16 the product [col * bigWidth]
    leaves [int], the computed [srcX] is negative instead of [16 * W / 28],
    and the read it leads to is outside the buffer. *)
Lemma convertImage_cells_counterexample :
  let W := 2 ^ 27 in
  let H := 1 in
  let px := replicate (Z.to_nat (W * H * 4)) "255"%byte in
  Normalizer.capture px W H
  /\ Normalizer.srcX W 16 = -76695844
  /\ 16 * W / 28 = 76695844
  /\ Normalizer.convertImage model_init px W H = None.
Proof.
  intros W H px. split; [|split; [|split]].
  - apply capture_replicate; unfold W, H; lia.
  - vm_compute. reflexivity.
  - vm_compute. reflexivity.
  - apply (convertImage_None _ _ _ _ 0 16); [lia..|].
    replace (Int.add (Normalizer.src_idx W H 0 16) 0) with (-306783376)
      by (vm_compute; reflexivity).
    apply vec_at_negative; [unfold Int.min_signed; lia|].
    unfold px. rewrite length_replicate, Z2Nat.id by (unfold W, H; lia).
    unfold W, H. lia.
Qed.

(** C2 (as amended). For every capture with W >= 1, H >= 1 and a buffer of
    W*H*4 bytes whose sizes fit [int], convertImage produces exactly 784
    binary32 values, each in the closed interval [0, 1]. *)
Theorem convertImage_shape (m : MNISTModel) (px : list byte) (W H : Z) :
  model_wf m -> Normalizer.capture px W H -> Normalizer.fits_int W H ->
  exists m',
    Normalizer.convertImage m px W H = Some m'
    /\ length (input_image_ m') = 784%nat
    /\ Forall (fun v => Normalizer.in_unit v = true) (input_image_ m').
Proof.
  intros Hwf Hcap Hfit.
  destruct (convertImage_run px W H Hcap Hfit m Hwf) as (img & Hrun & Hlen & Hcells).
  eexists. split; [exact Hrun|]. split; [exact Hlen|]. simpl.
  apply Forall_lookup. intros k v Hk.
  pose proof (lookup_lt_Some _ _ _ Hk) as Hlt. rewrite Hlen in Hlt.
  pose proof (Z.div_mod (Z.of_nat k) 28 ltac:(lia)) as Hdm.
  pose proof (Z.mod_pos_bound (Z.of_nat k) 28 ltac:(lia)) as Hmod.
  destruct (Hcells (Z.of_nat k / 28) (Z.of_nat k mod 28))
    as (R & G & B & _ & _ & _ & Hv).
  - split; [apply Z.div_pos; lia|apply Z.div_lt_upper_bound; lia].
  - exact Hmod.
  - lia.
  - replace (Z.of_nat k / 28 * 28 + Z.of_nat k mod 28) with (Z.of_nat k) in Hv
      by lia.
    rewrite Nat2Z.id in Hv. rewrite Hk in Hv. injection Hv as ->.
    apply cell_value_unit.
Qed.

Lemma convertImage_shape_witness :
  exists m',
    Normalizer.convertImage model_init (replicate 16 "000"%byte) 2 2 = Some m'
    /\ length (input_image_ m') = 784%nat
    /\ Forall (fun v => Normalizer.in_unit v = true) (input_image_ m').
Proof.
  apply (convertImage_shape model_init (replicate 16 "000"%byte) 2 2).
  - split; reflexivity.
  - repeat split; simpl; lia.
  - repeat split; unfold Int.max_signed; lia.
Defined.

(** C2, as stated, fails on a capture one pixel wide and 2^27 pixels high:
    at row 16 the product [row * bigHeight] leaves [int], the read is
    outside the buffer and no image is produced. *)
Lemma convertImage_shape_counterexample :
  let W := 1 in
  let H := 2 ^ 27 in
  let px := replicate (Z.to_nat (W * H * 4)) "000"%byte in
  Normalizer.capture px W H
  /\ Normalizer.convertImage model_init px W H = None.
Proof.
  intros W H px. split.
  - apply capture_replicate; unfold W, H; lia.
  - apply (convertImage_None _ _ _ _ 16 0); [lia..|].
    replace (Int.add (Normalizer.src_idx W H 16 0) 0) with (-306783376)
      by (vm_compute; reflexivity).
    apply vec_at_negative; [unfold Int.min_signed; lia|].
    unfold px. rewrite length_replicate, Z2Nat.id by (unfold W, H; lia).
    unfold W, H. lia.
Qed.

(** C9 (as amended). For every capture with W >= 1, H >= 1 and a buffer of
    exactly W*H*4 bytes whose sizes fit [int], every source access of the
    loop body is in bounds: for all r, c in [0, 28) the computed
    srcY = r*H/28 is in [0, H), srcX = c*W/28 is in [0, W), and the byte
    index (srcY*W + srcX)*4 + k, k in 0..2, is inside the buffer, so each
    read returns a byte and the conversion runs to its end. *)
Theorem convertImage_in_bounds (m : MNISTModel) (px : list byte) (W H : Z) :
  model_wf m -> Normalizer.capture px W H -> Normalizer.fits_int W H ->
  (forall r c k, 0 <= r < 28 -> 0 <= c < 28 -> 0 <= k <= 2 ->
     Normalizer.srcY H r = r * H / 28 /\ 0 <= Normalizer.srcY H r < H
     /\ Normalizer.srcX W c = c * W / 28 /\ 0 <= Normalizer.srcX W c < W
     /\ Int.add (Normalizer.src_idx W H r c) k
        = (Normalizer.srcY H r * W + Normalizer.srcX W c) * 4 + k
     /\ 0 <= Int.add (Normalizer.src_idx W H r c) k < Z.of_nat (length px)
     /\ is_Some (vec_at px (Int.add (Normalizer.src_idx W H r c) k)))
  /\ is_Some (Normalizer.convertImage m px W H).
Proof.
  intros Hwf Hcap Hfit. split.
  - intros r c k Hr Hc Hk.
    destruct (srcY_exact px W H Hcap Hfit r Hr) as (Ey & Hy).
    destruct (srcX_exact px W H Hcap Hfit c Hc) as (Ex & Hx).
    destruct (src_idx_exact px W H Hcap Hfit r c Hr Hc) as (Ei & Hi0 & Hi1).
    destruct (pixel_read px W H Hcap Hfit r c k Hr Hc) as (Ea & b & Hb & _); [lia|].
    destruct Hcap as (_ & _ & Hlen).
    assert (Ek : Int.add (Normalizer.src_idx W H r c) k
                 = (Normalizer.srcY H r * W + Normalizer.srcX W c) * 4 + k)
      by (rewrite Ea, Ey, Ex; reflexivity).
    split; [exact Ey|]. split; [exact Hy|]. split; [exact Ex|].
    split; [exact Hx|]. split; [exact Ek|]. split.
    + rewrite Ea, Hlen. rewrite Ei in Hi0, Hi1. lia.
    + rewrite Hb. eauto.
  - destruct (convertImage_run px W H Hcap Hfit m Hwf) as (img & Hrun & _).
    rewrite Hrun. eauto.
Qed.

Lemma convertImage_in_bounds_witness :
  (forall r c k, 0 <= r < 28 -> 0 <= c < 28 -> 0 <= k <= 2 ->
     Normalizer.srcY 224 r = r * 224 / 28 /\ 0 <= Normalizer.srcY 224 r < 224
     /\ Normalizer.srcX 280 c = c * 280 / 28 /\ 0 <= Normalizer.srcX 280 c < 280
     /\ Int.add (Normalizer.src_idx 280 224 r c) k
        = (Normalizer.srcY 224 r * 280 + Normalizer.srcX 280 c) * 4 + k
     /\ 0 <= Int.add (Normalizer.src_idx 280 224 r c) k
        < Z.of_nat (length (replicate (Z.to_nat (280 * 224 * 4)) "255"%byte))
     /\ is_Some (vec_at (replicate (Z.to_nat (280 * 224 * 4)) "255"%byte)
                        (Int.add (Normalizer.src_idx 280 224 r c) k)))
  /\ is_Some (Normalizer.convertImage model_init
                (replicate (Z.to_nat (280 * 224 * 4)) "255"%byte) 280 224).
Proof.
  apply (convertImage_in_bounds model_init
           (replicate (Z.to_nat (280 * 224 * 4)) "255"%byte) 280 224).
  - split; reflexivity.
  - apply capture_replicate; lia.
  - repeat split; unfold Int.max_signed; lia.
Defined.

(** C9, as stated, fails on a capture of 24000 x 24000 pixels: 27*W and
    27*H fit [int], but at row 27 the byte index [(srcY*W + srcX) * 4]
    leaves [int]; the index the code computes is negative and the read is
    outside the buffer of W*H*4 bytes. *)
Lemma convertImage_in_bounds_counterexample :
  let W := 24000 in
  let H := 24000 in
  let px := replicate (Z.to_nat (W * H * 4)) "255"%byte in
  Normalizer.capture px W H
  /\ Normalizer.srcY H 27 = 27 * H / 28
  /\ Normalizer.srcX W 0 = 0 * W / 28
  /\ Normalizer.src_idx W H 27 0 = -2073335296
  /\ vec_at px (Int.add (Normalizer.src_idx W H 27 0) 0) = None
  /\ Normalizer.convertImage model_init px W H = None.
Proof.
  intros W H px.
  assert (Hoob : vec_at px (Int.add (Normalizer.src_idx W H 27 0) 0) = None).
  { replace (Int.add (Normalizer.src_idx W H 27 0) 0) with (-2073335296)
      by (vm_compute; reflexivity).
    apply vec_at_negative; [unfold Int.min_signed; lia|].
    unfold px. rewrite length_replicate, Z2Nat.id by (unfold W, H; lia).
    unfold W, H. lia. }
  split; [apply capture_replicate; unfold W, H; lia|].
  split; [vm_compute; reflexivity|].
  split; [vm_compute; reflexivity|].
  split; [vm_compute; reflexivity|].
  split; [exact Hoob|].
  apply (convertImage_None _ _ _ _ 27 0); [lia..|exact Hoob].
Qed.

(** ** softmax against its reference definition *)

Section Softmax.

Import Decision.

Variable expf : float32 -> float32.

Lemma max_element_loop_value (rest : list float32) :
  forall (v : list float32) first largest x,
  v !! largest = Some x ->
  (forall k y, rest !! k = Some y -> v !! (first + k)%nat = Some y) ->
  v !! max_element_loop rest first largest x = Some (fold_left fmax rest x).
Proof.
  induction rest as [|y rest IH]; intros v first largest x Hx Hrest; simpl.
  - exact Hx.
  - unfold fmax at 2. destruct (F32.ltb x y).
    + apply IH.
      * specialize (Hrest 0%nat y eq_refl). now rewrite Nat.add_0_r in Hrest.
      * intros k z Hk. specialize (Hrest (S k) z Hk).
        now replace (S first + k)%nat with (first + S k)%nat by lia.
    + apply IH; [exact Hx|].
      intros k z Hk. specialize (Hrest (S k) z Hk).
      now replace (S first + k)%nat with (first + S k)%nat by lia.
Qed.

(** [*std::max_element] is the maximum of a non-empty range. *)
Lemma max_element_value x rest :
  (x :: rest) !! max_element (x :: rest) = Some (maximum (x :: rest)).
Proof.
  simpl. apply max_element_loop_value; [reflexivity|].
  intros k y Hk. exact Hk.
Qed.

Lemma exp_loop input rowmax :
  for_each (seqZ 0 (Z.of_nat (length input))) (exp_step expf input rowmax)
           (replicate (length input) F32.zero, F32.zero)
  = Some ((fun xi => expf (F32.sub xi rowmax)) <$> input,
          fold_left F32.add ((fun xi => expf (F32.sub xi rowmax)) <$> input) F32.zero).
Proof.
  set (f := fun xi => expf (F32.sub xi rowmax)).
  set (n := length input).
  destruct (for_each_inv
    (fun i st => 0 <= i <= Z.of_nat n /\
       st = ((f <$> take (Z.to_nat i) input) ++ replicate (n - Z.to_nat i) F32.zero,
             fold_left F32.add (f <$> take (Z.to_nat i) input) F32.zero))
    (exp_step expf input rowmax) n 0 (replicate n F32.zero, F32.zero))
    as (st & Hrun & _ & Hst).
  - split; [lia|]. simpl. now rewrite Nat.sub_0_r.
  - intros i [y sum] Hi (_ & Hinv). injection Hinv as -> ->.
    destruct (lookup_lt_is_Some_2 input (Z.to_nat i)) as [xi Hxi]; [fold n; lia|].
    unfold exp_step, vec_get, vec_set. rewrite Hxi. simpl.
    rewrite decide_True
      by (rewrite length_app, length_fmap, length_take, length_replicate; fold n; lia).
    simpl. eexists. split; [reflexivity|]. split; [lia|].
    replace (Z.to_nat (i + 1)) with (S (Z.to_nat i)) by lia.
    rewrite (take_S_r _ _ _ Hxi), fmap_app, fold_left_app. simpl. fold f.
    f_equal.
    replace (n - Z.to_nat i)%nat with (S (n - S (Z.to_nat i))) by lia.
    rewrite insert_app_r_alt by (rewrite length_fmap, length_take; fold n; lia).
    rewrite length_fmap, length_take_le by (fold n; lia).
    rewrite Nat.sub_diag. simpl. now rewrite <- app_assoc.
  - rewrite Hrun, Hst. f_equal.
    replace (Z.to_nat (0 + Z.of_nat n)) with n by lia.
    rewrite Nat.sub_diag, take_ge, app_nil_r by (fold n; lia). reflexivity.
Qed.

Lemma div_loop (y input : list float32) sum :
  length y = length input ->
  for_each (seqZ 0 (Z.of_nat (length input))) (div_step y sum) input
  = Some ((fun yi => F32.div yi sum) <$> y).
Proof.
  intros Hlen.
  set (g := fun yi => F32.div yi sum).
  set (n := length input).
  destruct (for_each_inv
    (fun i st => 0 <= i <= Z.of_nat n /\
       st = (g <$> take (Z.to_nat i) y) ++ drop (Z.to_nat i) input)
    (div_step y sum) n 0 input) as (st & Hrun & _ & Hst).
  - split; [lia|]. simpl. now rewrite drop_0.
  - intros i t Hi (_ & ->).
    destruct (lookup_lt_is_Some_2 y (Z.to_nat i)) as [yi Hyi]; [fold n; lia|].
    destruct (lookup_lt_is_Some_2 input (Z.to_nat i)) as [xi Hxi]; [fold n; lia|].
    unfold div_step, vec_get, vec_set. rewrite Hyi. simpl.
    rewrite decide_True
      by (rewrite length_app, length_fmap, length_take, length_drop; fold n; lia).
    eexists. split; [reflexivity|]. split; [lia|].
    replace (Z.to_nat (i + 1)) with (S (Z.to_nat i)) by lia.
    rewrite (take_S_r _ _ _ Hyi), fmap_app. simpl. fold g.
    rewrite insert_app_r_alt by (rewrite length_fmap, length_take; lia).
    rewrite length_fmap, length_take_le by lia.
    rewrite Nat.sub_diag, (drop_S _ _ _ Hxi). simpl. now rewrite <- app_assoc.
  - rewrite Hrun, Hst. f_equal.
    replace (Z.to_nat (0 + Z.of_nat n)) with n by lia.
    rewrite take_ge, drop_ge, app_nil_r by (fold n; lia). reflexivity.
Qed.

(** On a non-empty range the two loops compute the reference definition;
    on an empty one the dereference of [max_element] is undefined. *)
Lemma softmax_run input :
  softmax expf input
  = match input with
    | [] => None
    | _ => Some (softmax_reference expf input)
    end.
Proof.
  destruct input as [|x rest]; [reflexivity|].
  unfold softmax. rewrite max_element_value. simpl option_bind.
  cbn [mbind option_bind]. rewrite exp_loop. cbn [mbind option_bind].
  rewrite div_loop by now rewrite length_fmap.
  reflexivity.
Qed.

End Softmax.

(** ** The order of binary32 *)

Lemma ltb_irrefl x : F32.ltb x x = false.
Proof.
  unfold F32.ltb, SFltb.
  destruct x as [s|s| |s m e]; simpl; try reflexivity; destruct s; simpl;
    try reflexivity; rewrite Z.compare_refl, Pos.compare_cont_refl; reflexivity.
Qed.

(** Away from NaN, [<] is the strict order of the keys. *)
Lemma ltb_key x y :
  F32.is_nan x = false -> F32.is_nan y = false ->
  (F32.ltb x y = true <-> F32.key_lt (F32.key x) (F32.key y)).
Proof.
  intros Hx Hy. unfold F32.ltb, SFltb, F32.key_lt.
  destruct x as [sx|sx| |sx m1 e1], y as [sy|sy| |sy m2 e2];
    try discriminate; simpl;
    try destruct sx; try destruct sy; simpl;
    try solve [split; intros; first [discriminate | reflexivity | lia]];
    change (Pos.compare_cont Eq) with Pos.compare;
    destruct (Z.compare_spec e1 e2), (Pos.compare_spec m1 m2); simpl;
    split; intros; first [discriminate | reflexivity | lia].
Qed.

Lemma ltb_trans x y z :
  F32.ltb x y = true -> F32.ltb y z = true -> F32.ltb x z = true.
Proof.
  intros Hxy Hyz.
  assert (F32.is_nan x = false /\ F32.is_nan y = false /\ F32.is_nan z = false)
    as (Hx & Hy & Hz).
  { unfold F32.ltb, SFltb in *.
    destruct x, y, z; try discriminate; auto. }
  apply (ltb_key _ _ Hx Hz).
  apply (ltb_key _ _ Hx Hy) in Hxy. apply (ltb_key _ _ Hy Hz) in Hyz.
  unfold F32.key_lt in *. lia.
Qed.

(** What is not smaller than [y] is above everything [y] is above, and
    what [y] is not below stays below what [y] is below. *)
Lemma ltb_le_lt x y z :
  F32.is_nan x = false ->
  F32.ltb y x = false -> F32.ltb y z = true -> F32.ltb x z = true.
Proof.
  intros Hx Hyx Hyz.
  assert (F32.is_nan y = false /\ F32.is_nan z = false) as (Hy & Hz).
  { unfold F32.ltb, SFltb in Hyz. destruct y, z; try discriminate; auto. }
  apply (ltb_key _ _ Hx Hz). apply (ltb_key _ _ Hy Hz) in Hyz.
  assert (Hn : ~ F32.key_lt (F32.key y) (F32.key x)).
  { intros Hc. apply (ltb_key _ _ Hy Hx) in Hc. congruence. }
  unfold F32.key_lt in *. lia.
Qed.

Lemma ltb_lt_le x y z :
  F32.is_nan x = false ->
  F32.ltb y z = true -> F32.ltb y x = false -> F32.ltb z x = false.
Proof.
  intros Hx Hyz Hyx.
  assert (F32.is_nan y = false /\ F32.is_nan z = false) as (Hy & Hz).
  { unfold F32.ltb, SFltb in Hyz. destruct y, z; try discriminate; auto. }
  apply (ltb_key _ _ Hy Hz) in Hyz.
  assert (Hn : ~ F32.key_lt (F32.key y) (F32.key x)).
  { intros Hc. apply (ltb_key _ _ Hy Hx) in Hc. congruence. }
  destruct (F32.ltb z x) eqn:E; [|reflexivity].
  apply (ltb_key _ _ Hz Hx) in E. unfold F32.key_lt in *. lia.
Qed.

(** ** std::max_element *)

Lemma max_element_loop_first (rest : list float32) :
  forall (v : list float32) first largest x,
  Forall (fun a => F32.is_nan a = false) v ->
  drop first v = rest ->
  v !! largest = Some x -> (largest < first)%nat ->
  (forall j xj, (j < first)%nat -> v !! j = Some xj -> F32.ltb x xj = false) ->
  (forall j xj, (j < largest)%nat -> v !! j = Some xj -> F32.ltb xj x = true) ->
  Decision.first_maximum v (Decision.max_element_loop rest first largest x).
Proof.
  induction rest as [|y rest IH]; intros v first largest x Hnan Hdrop Hx Hlt Hge Hbefore.
  - simpl. exists x. split; [exact Hx|]. split; [|exact Hbefore].
    intros j xj Hj. apply (Hge j xj); [|exact Hj].
    apply lookup_lt_Some in Hj.
    assert (length (drop first v) = 0%nat) as Hl by now rewrite Hdrop.
    rewrite length_drop in Hl. lia.
  - assert (Hy : v !! first = Some y).
    { rewrite <- (Nat.add_0_r first), <- lookup_drop, Hdrop. reflexivity. }
    assert (Hrest : drop (S first) v = rest).
    { rewrite (drop_S _ _ _ Hy) in Hdrop. now injection Hdrop. }
    assert (Hnan_at : forall j xj, v !! j = Some xj -> F32.is_nan xj = false).
    { intros j xj Hj. rewrite Forall_lookup in Hnan. exact (Hnan j xj Hj). }
    simpl. destruct (F32.ltb x y) eqn:Hxy.
    + apply IH; try assumption; [lia| |].
      * intros j xj Hj Hvj. destruct (decide (j = first)) as [->|Hne].
        -- rewrite Hy in Hvj. injection Hvj as <-. apply ltb_irrefl.
        -- apply (ltb_lt_le _ x); [eapply Hnan_at; eassumption|exact Hxy|].
           apply (Hge j); [lia|exact Hvj].
      * intros j xj Hj Hvj.
        apply (ltb_le_lt _ x); [eapply Hnan_at; eassumption| |exact Hxy].
        apply (Hge j); [lia|exact Hvj].
    + apply IH; try assumption; [lia|].
      intros j xj Hj Hvj. destruct (decide (j = first)) as [->|Hne].
      * rewrite Hy in Hvj. injection Hvj as <-. exact Hxy.
      * apply (Hge j); [lia|exact Hvj].
Qed.

(** Away from NaN, [std::max_element] returns the first position of a
    greatest element. *)
Lemma max_element_first (v : list float32) :
  v <> [] -> Forall (fun a => F32.is_nan a = false) v ->
  Decision.first_maximum v (Decision.max_element v).
Proof.
  intros Hne Hnan. destruct v as [|x rest]; [congruence|].
  simpl. apply max_element_loop_first; try assumption; try reflexivity; try lia.
  intros j xj Hj Hvj. assert (j = 0%nat) as -> by lia.
  injection Hvj as <-. apply ltb_irrefl.
Qed.

Lemma max_element_loop_bound (rest : list float32) : forall first largest x,
  (largest < first)%nat ->
  (Decision.max_element_loop rest first largest x < first + length rest)%nat.
Proof.
  induction rest as [|y rest IH]; intros first largest x Hlt; simpl; [lia|].
  destruct (F32.ltb x y).
  - specialize (IH (S first) first y). lia.
  - specialize (IH (S first) largest x). lia.
Qed.

Lemma max_element_bound (v : list float32) :
  v <> [] -> (Decision.max_element v < length v)%nat.
Proof.
  destruct v as [|x rest]; [congruence|]. intros _. simpl.
  pose proof (max_element_loop_bound rest 1 0 x). lia.
Qed.

Lemma max_element_loop_same (rest : list float32) :
  forall (rest' v w : list float32) first largest x x',
  Decision.same_order v w ->
  drop first v = rest -> drop first w = rest' ->
  v !! largest = Some x -> w !! largest = Some x' ->
  Decision.max_element_loop rest first largest x
  = Decision.max_element_loop rest' first largest x'.
Proof.
  induction rest as [|y rest IH];
    intros rest' v w first largest x x' Hsame Hv Hw Hx Hx'.
  - destruct Hsame as (Hlen & _).
    assert (length rest' = 0%nat) as Hl.
    { rewrite <- Hw, length_drop, <- Hlen, <- length_drop, Hv. reflexivity. }
    destruct rest'; [reflexivity|discriminate].
  - destruct rest' as [|y' rest'].
    { destruct Hsame as (Hlen & _).
      assert (length (y :: rest) = 0%nat) as Hl; [|discriminate].
      rewrite <- Hv, length_drop, Hlen, <- length_drop, Hw. reflexivity. }
    assert (Hy : v !! first = Some y).
    { rewrite <- (Nat.add_0_r first), <- lookup_drop, Hv. reflexivity. }
    assert (Hy' : w !! first = Some y').
    { rewrite <- (Nat.add_0_r first), <- lookup_drop, Hw. reflexivity. }
    rewrite (drop_S _ _ _ Hy) in Hv. injection Hv as Hv.
    rewrite (drop_S _ _ _ Hy') in Hw. injection Hw as Hw.
    simpl.
    rewrite (proj2 Hsame largest first x y x' y' Hx Hy Hx' Hy').
    destruct (F32.ltb x' y'); eapply IH; eassumption.
Qed.

(** [std::max_element] only looks at the comparisons. *)
Lemma max_element_same (v w : list float32) :
  Decision.same_order v w -> Decision.max_element v = Decision.max_element w.
Proof.
  intros Hsame. destruct v as [|x rest], w as [|x' rest'];
    try reflexivity; try (destruct Hsame as (Hlen & _); discriminate).
  simpl. eapply max_element_loop_same; try eassumption; reflexivity.
Qed.

Lemma max_element_loop_const (v : float32) n : forall first largest,
  Decision.max_element_loop (replicate n v) first largest v = largest.
Proof.
  induction n as [|n IH]; intros first largest; simpl; [reflexivity|].
  rewrite ltb_irrefl. apply IH.
Qed.

Lemma max_element_const (v : float32) n :
  Decision.max_element (replicate n v) = 0%nat.
Proof.
  destruct n as [|n]; [reflexivity|]. simpl. apply max_element_loop_const.
Qed.

Lemma softmax_reference_length expf (x : list float32) :
  length (Decision.softmax_reference expf x) = length x.
Proof.
  unfold Decision.softmax_reference. now rewrite !length_fmap.
Qed.

Lemma predict_run expf (logits : list float32) :
  logits <> [] -> Z.of_nat (length logits) <= Int.max_signed ->
  Decision.predict expf logits
  = Some (Decision.softmax_reference expf logits,
          Z.of_nat (Decision.max_element (Decision.softmax_reference expf logits))).
Proof.
  intros Hne Hlen. unfold Decision.predict. rewrite softmax_run.
  destruct logits as [|x rest]; [congruence|]. cbn [mbind option_bind].
  f_equal. f_equal. apply wrap_small.
  pose proof (max_element_bound (Decision.softmax_reference expf (x :: rest))) as Hb.
  rewrite softmax_reference_length in Hb.
  assert (Decision.softmax_reference expf (x :: rest) <> []) as Hne'.
  { intros E. apply (f_equal length) in E.
    rewrite softmax_reference_length in E. discriminate. }
  specialize (Hb Hne').
  unfold Int.in_range, Int.min_signed, Int.max_signed in *. lia.
Qed.

(** ** Rounding and the exact values of binary32 *)

Lemma digits2_size m : digits2_pos m = Pos.size m.
Proof. induction m; simpl; congruence. Qed.

Lemma digits2_bounds m :
  2 ^ (Zpos (digits2_pos m) - 1) <= Zpos m < 2 ^ Zpos (digits2_pos m).
Proof.
  rewrite digits2_size.
  pose proof (Pos.size_gt m) as Hgt. pose proof (Pos.size_le m) as Hle.
  apply Pos2Z.pos_lt_pos in Hgt. apply Pos2Z.pos_le_pos in Hle.
  rewrite Pos2Z.inj_pow in Hgt, Hle.
  replace (Zpos (Pos.size m)) with (Z.succ (Zpos (Pos.size m) - 1)) in Hle by lia.
  rewrite Z.pow_succ_r in Hle by lia.
  split; [|exact Hgt]. lia.
Qed.

Lemma iter_xO_Z m d : Zpos (Pos.iter xO m d) = Zpos m * 2 ^ Zpos d.
Proof.
  rewrite <- Z.shiftl_mul_pow2 by lia. simpl.
  apply (Pos.iter_swap_gen _ _ Zpos xO (Z.mul 2)). reflexivity.
Qed.

Lemma digits2_iter_xO m d :
  Zpos (digits2_pos (Pos.iter xO m d)) = Zpos (digits2_pos m) + Zpos d.
Proof.
  induction d using Pos.peano_ind.
  - simpl. lia.
  - rewrite Pos.iter_succ. simpl. lia.
Qed.

Lemma iter_pos_iter {A} (f : A -> A) p : forall x, SpecFloat.iter_pos f p x = Pos.iter f x p.
Proof.
  induction p as [p IH|p IH|]; intros x; simpl.
  - rewrite !IH. now rewrite <- !Pos.iter_swap.
  - now rewrite !IH.
  - reflexivity.
Qed.

Lemma shr_1_even q : shr_1 (Build_shr_record (Zpos q~0) false false)
                     = Build_shr_record (Zpos q) false false.
Proof. reflexivity. Qed.

(** One doubling of the mantissa is one more in the exponent. *)
Lemma binary_round_double s m e :
  binary_round F32.prec F32.emax s m~0 e = binary_round F32.prec F32.emax s m (e + 1).
Proof.
  unfold binary_round.
  change (digits2_pos m~0) with (Pos.succ (digits2_pos m)).
  replace (Zpos (Pos.succ (digits2_pos m)) + e) with (Zpos (digits2_pos m) + (e + 1)) by lia.
  set (t := fexp F32.prec F32.emax (Zpos (digits2_pos m) + (e + 1))).
  unfold shl_align.
  destruct (Z.compare_spec t e) as [Heq|Hlt|Hgt].
  - (* t = e : the left side is aligned, the right one is shifted by one *)
    clearbody t. subst e. rewrite Z.sub_diag.
    replace (t - (t + 1)) with (Zneg 1) by lia. reflexivity.
  - (* t < e : both are shifted left to exponent t *)
    destruct (t - e) as [|d|d] eqn:Ed; try lia.
    destruct (t - (e + 1)) as [|d'|d'] eqn:Ed'; try lia.
    assert (d' = Pos.succ d) as -> by lia.
    now rewrite Pos.iter_succ_r.
  - (* e < t : both are shifted right to exponent t *)
    destruct (t - e) as [|d|d] eqn:Ed; try lia.
    assert (Esh : shr (shr_record_of_loc (Zpos m~0) loc_Exact) e (Zpos d)
            = shr (shr_record_of_loc (Zpos m) loc_Exact) (e + 1) (t - (e + 1))).
    { unfold shr. destruct (t - (e + 1)) as [|d'|d'] eqn:Ed'; try lia.
      - assert (d = 1%positive) as -> by lia. simpl. f_equal.
      - assert (d = Pos.succ d') as -> by lia.
        rewrite !iter_pos_iter, Pos.iter_succ_r. simpl shr_record_of_loc.
        rewrite shr_1_even. f_equal. lia. }
    assert (Eal : match t - (e + 1) with
                  | Z.neg d0 => (Pos.iter xO m d0, t)
                  | _ => (m, e + 1)
                  end = (m, e + 1)).
    { destruct (t - (e + 1)) eqn:Ed'; try reflexivity; lia. }
    rewrite Eal.
    unfold binary_round_aux, shr_fexp.
    change (Zdigits2 (Zpos m~0)) with (Zpos (Pos.succ (digits2_pos m))).
    change (Zdigits2 (Zpos m)) with (Zpos (digits2_pos m)).
    replace (Zpos (Pos.succ (digits2_pos m)) + e) with (Zpos (digits2_pos m) + (e + 1)) by lia.
    fold t. rewrite Ed, Esh. reflexivity.
Qed.

Lemma binary_round_scale s m e k :
  binary_round F32.prec F32.emax s (Pos.iter xO m k) e
  = binary_round F32.prec F32.emax s m (e + Zpos k).
Proof.
  revert e. induction k using Pos.peano_ind; intros e.
  - simpl. apply binary_round_double.
  - rewrite Pos.iter_succ, binary_round_double, IHk. f_equal. lia.
Qed.

(** Rounding [M * 2^k] at exponent [e] is rounding [M] at [e + k]. *)
Lemma binary_normalize_scale M e k sz :
  0 <= k ->
  binary_normalize F32.prec F32.emax (M * 2 ^ k) e sz
  = binary_normalize F32.prec F32.emax M (e + k) sz.
Proof.
  intros Hk. destruct k as [|k|k]; [|clear Hk|lia].
  - now rewrite Z.mul_1_r, Z.add_0_r.
  - destruct M as [|m|m]; [reflexivity| |].
    + replace (Zpos m * 2 ^ Zpos k) with (Zpos (Pos.iter xO m k))
        by apply iter_xO_Z.
      apply binary_round_scale.
    + replace (Zneg m * 2 ^ Zpos k) with (Zneg (Pos.iter xO m k))
        by (change (Zneg m) with (- Zpos m); rewrite Z.mul_opp_l, <- iter_xO_Z; reflexivity).
      apply binary_round_scale.
Qed.

(** A number of the format rounds to itself. *)
Lemma binary_round_valid s m e :
  bounded F32.prec F32.emax m e = true ->
  binary_round F32.prec F32.emax s m e = S754_finite s m e.
Proof.
  unfold bounded, canonical_mantissa. rewrite andb_true_iff, Z.eqb_eq, Z.leb_le.
  intros (Hcan & Hmax).
  unfold binary_round, shl_align. rewrite Hcan, Z.sub_diag.
  unfold binary_round_aux, shr_fexp. simpl Zdigits2. rewrite Hcan, Z.sub_diag.
  simpl. rewrite Hcan, Z.sub_diag. simpl.
  apply Z.leb_le in Hmax. now rewrite Hmax.
Qed.

Lemma bounded_facts m e :
  bounded F32.prec F32.emax m e = true ->
  -149 <= e /\ Zpos (digits2_pos m) <= 24
  /\ (-149 < e -> Zpos (digits2_pos m) = 24).
Proof.
  unfold bounded, canonical_mantissa, fexp, emin, F32.prec, F32.emax.
  rewrite andb_true_iff, Z.eqb_eq. intros (Hcan & _). lia.
Qed.

Lemma shl_align_Z m e e' :
  e' <= e -> Zpos (fst (shl_align m e e')) = Zpos m * 2 ^ (e - e').
Proof.
  intros Hle. unfold shl_align.
  destruct (e' - e) as [|d|d] eqn:Ed; try lia; simpl fst.
  - replace (e - e') with 0 by lia. lia.
  - rewrite iter_xO_Z. f_equal. f_equal. lia.
Qed.

Lemma units_scale (s : bool) m e :
  -149 <= e -> cond_Zopp s (Zpos m * 2 ^ (e + 149)) = cond_Zopp s (Zpos m) * 2 ^ (e + 149).
Proof. intros _. destruct s; simpl; lia. Qed.

Lemma ldexp_units_finite s m e :
  bounded F32.prec F32.emax m e = true ->
  F32.ldexp (F32.units (S754_finite s m e)) (-149) = S754_finite s m e.
Proof.
  intros Hb. destruct (bounded_facts m e Hb) as (He & _).
  unfold F32.ldexp. simpl F32.units. rewrite units_scale by exact He.
  rewrite binary_normalize_scale by lia.
  replace (-149 + (e + 149)) with e by lia.
  destruct s; simpl; now apply binary_round_valid.
Qed.

(** A subtraction of two finite numbers of the format is the rounding of
    the difference of their values, the sign of a zero result apart. *)
Lemma sub_units x m :
  F32.finite_valid x = true -> F32.finite_valid m = true ->
  F32.pos_zero (F32.sub x m)
  = F32.pos_zero (F32.ldexp (F32.units x - F32.units m) (-149)).
Proof.
  unfold F32.finite_valid. rewrite !andb_true_iff. intros (Fx & Vx) (Fm & Vm).
  destruct x as [sx|sx| |sx mx ex], m as [sm|sm| |sm mm em]; try discriminate.
  - destruct sx, sm; reflexivity.
  - change (F32.sub (S754_zero sx) (S754_finite sm mm em))
      with (S754_finite (negb sm) mm em).
    replace (F32.units (S754_zero sx) - F32.units (S754_finite sm mm em))
      with (F32.units (S754_finite (negb sm) mm em))
      by (simpl; destruct sm; simpl; lia).
    now rewrite (ldexp_units_finite (negb sm) mm em Vm).
  - change (F32.sub (S754_finite sx mx ex) (S754_zero sm))
      with (S754_finite sx mx ex).
    replace (F32.units (S754_finite sx mx ex) - F32.units (S754_zero sm))
      with (F32.units (S754_finite sx mx ex)) by (simpl; lia).
    now rewrite (ldexp_units_finite sx mx ex Vx).
  - destruct (bounded_facts mx ex Vx) as (Hex & _).
    destruct (bounded_facts mm em Vm) as (Hem & _).
    unfold F32.sub, SFsub. cbv zeta.
    set (ez := Z.min ex em).
    set (D := cond_Zopp sx (Zpos (fst (shl_align mx ex ez)))
              - cond_Zopp sm (Zpos (fst (shl_align mm em ez)))).
    assert (ED : F32.units (S754_finite sx mx ex) - F32.units (S754_finite sm mm em)
                 = D * 2 ^ (ez + 149)).
    { unfold D. simpl F32.units.
      rewrite !shl_align_Z by (unfold ez; lia).
      rewrite Z.mul_sub_distr_r.
      assert (Hp : forall (s : bool) m e, ez <= e ->
                cond_Zopp s (Zpos m * 2 ^ (e - ez)) * 2 ^ (ez + 149)
                = cond_Zopp s (Zpos m * 2 ^ (e + 149))).
      { intros s m e He.
        replace (e + 149) with ((e - ez) + (ez + 149)) by lia.
        rewrite (Z.pow_add_r 2 (e - ez) (ez + 149)) by (unfold ez in *; lia).
        destruct s; simpl; lia. }
      rewrite !Hp by (unfold ez; lia). reflexivity. }
    rewrite ED. unfold F32.ldexp.
    rewrite binary_normalize_scale by (unfold ez; lia).
    replace (-149 + (ez + 149)) with ez by lia.
    reflexivity.
Qed.

Lemma canonical_lt m1 e1 m2 e2 :
  bounded F32.prec F32.emax m1 e1 = true ->
  bounded F32.prec F32.emax m2 e2 = true ->
  e1 < e2 ->
  Zpos m1 * 2 ^ (e1 + 149) < Zpos m2 * 2 ^ (e2 + 149).
Proof.
  intros H1 H2 Hlt.
  destruct (bounded_facts m1 e1 H1) as (He1 & Hd1 & _).
  destruct (bounded_facts m2 e2 H2) as (He2 & _ & Hd2).
  specialize (Hd2 ltac:(lia)).
  pose proof (digits2_bounds m1) as (_ & Hm1).
  pose proof (digits2_bounds m2) as (Hm2 & _).
  rewrite Hd2 in Hm2. change (2 ^ (24 - 1)) with 8388608 in Hm2.
  assert (Zpos m1 < 16777216).
  { eapply Z.lt_le_trans; [exact Hm1|].
    change 16777216 with (2 ^ 24). apply Z.pow_le_mono_r; lia. }
  replace (e2 + 149) with ((e1 + 149) + (e2 - e1)) by lia.
  rewrite (Z.pow_add_r 2 (e1 + 149) (e2 - e1)) by lia.
  assert (0 < 2 ^ (e1 + 149)) by (apply Z.pow_pos_nonneg; lia).
  assert (HQ : 2 ^ 1 <= 2 ^ (e2 - e1)) by (apply Z.pow_le_mono_r; lia).
  change (2 ^ 1) with 2 in HQ.
  set (P := 2 ^ (e1 + 149)) in *. set (Q := 2 ^ (e2 - e1)) in *.
  assert (16777216 <= Zpos m2 * Q) by nia.
  assert (Zpos m1 * P < 16777216 * P) by nia.
  assert (16777216 * P <= Zpos m2 * Q * P) by nia.
  lia.
Qed.

(** On the finite numbers of the format, [<] is the order of the values. *)
Lemma ltb_units x y :
  F32.finite_valid x = true -> F32.finite_valid y = true ->
  (F32.ltb x y = true <-> F32.units x < F32.units y).
Proof.
  intros Hx Hy.
  assert (Nx : F32.is_nan x = false) by (destruct x; try reflexivity; discriminate).
  assert (Ny : F32.is_nan y = false) by (destruct y; try reflexivity; discriminate).
  rewrite (ltb_key x y Nx Ny).
  unfold F32.finite_valid in *. rewrite !andb_true_iff in *.
  destruct Hx as (Fx & Vx), Hy as (Fy & Vy).
  assert (Hp : forall m e, bounded F32.prec F32.emax m e = true ->
               0 < Zpos m * 2 ^ (e + 149)).
  { intros m e Hb. destruct (bounded_facts m e Hb) as (He & _).
    apply Z.mul_pos_pos; [lia|apply Z.pow_pos_nonneg; lia]. }
  unfold F32.key_lt.
  destruct x as [sx|sx| |sx m1 e1], y as [sy|sy| |sy m2 e2]; try discriminate;
    simpl in Vx, Vy; simpl;
    try (pose proof (Hp _ _ Vx)); try (pose proof (Hp _ _ Vy));
    try destruct sx; try destruct sy; simpl; try lia.
  - destruct (Z.lt_trichotomy e1 e2) as [Hl|[->|Hg]].
    + pose proof (canonical_lt _ _ _ _ Vx Vy Hl). lia.
    + assert (0 < 2 ^ (e2 + 149)) by (destruct (bounded_facts _ _ Vy); apply Z.pow_pos_nonneg; lia).
      split; intros; [nia|]. right. split; [lia|]. right. split; [lia|]. nia.
    + pose proof (canonical_lt _ _ _ _ Vy Vx Hg). lia.
  - destruct (Z.lt_trichotomy e1 e2) as [Hl|[->|Hg]].
    + pose proof (canonical_lt _ _ _ _ Vx Vy Hl). lia.
    + assert (0 < 2 ^ (e2 + 149)) by (destruct (bounded_facts _ _ Vy); apply Z.pow_pos_nonneg; lia).
      split; intros; [nia|]. right. split; [lia|]. right. split; [lia|]. nia.
    + pose proof (canonical_lt _ _ _ _ Vy Vx Hg). lia.
Qed.

(** ** The claims on the decision layer *)

(** C3. The softmax applied to the raw logits is the max-subtraction
    reference definition p_i = exp(x_i - max x) / sum_j exp(x_j - max x):
    the two loops of the code return exactly that list (for any
    implementation of exp, in binary32, the sum taken in index order), the
    maximum being read once, from the untouched input, before the first
    exponential; away from NaN that maximum is an element of the input that
    no element exceeds. *)
Theorem softmax_refines_reference (expf : float32 -> float32)
    (logits : list float32) :
  Decision.softmax expf logits
  = match logits with
    | [] => None
    | _ :: _ => Some (Decision.softmax_reference expf logits)
    end
  /\ (forall i xi, logits !! i = Some xi ->
       Decision.softmax_reference expf logits !! i
       = Some (F32.div
                 (expf (F32.sub xi (Decision.maximum logits)))
                 (fold_left F32.add
                    ((fun xj => expf (F32.sub xj (Decision.maximum logits)))
                       <$> logits) F32.zero)))
  /\ (logits <> [] -> Forall (fun a => F32.is_nan a = false) logits ->
       Decision.maximum logits ∈ logits
       /\ forall xj, xj ∈ logits -> F32.ltb (Decision.maximum logits) xj = false).
Proof.
  split; [|split].
  - rewrite softmax_run. destruct logits; reflexivity.
  - intros i xi Hi. unfold Decision.softmax_reference.
    rewrite !list_lookup_fmap, Hi. reflexivity.
  - intros Hne Hnan.
    destruct (max_element_first logits Hne Hnan) as (m & Hm & Hmax & _).
    assert (Em : Decision.maximum logits = m).
    { destruct logits as [|x rest]; [congruence|].
      rewrite max_element_value in Hm. now injection Hm. }
    rewrite Em. split.
    + apply list_elem_of_lookup. eauto.
    + intros xj Hxj. apply list_elem_of_lookup in Hxj as (j & Hj).
      exact (Hmax j xj Hj).
Qed.

(** ** Loading and running the model *)

Section Program.

Import App.

Variable expf : float32 -> float32.
Variable E : Engine.
Variable sdl : Sdl.

Lemma read_pixels_capture n :
  Normalizer.capture (read_pixels sdl n) width height
  /\ Normalizer.fits_int width height.
Proof.
  unfold read_pixels.
  replace (Int.mul (Int.mul width height) 4) with 250880 by (vm_compute; reflexivity).
  split.
  - unfold Normalizer.capture. rewrite length_fmap, length_seq.
    change width with 280. change height with 224. lia.
  - unfold Normalizer.fits_int, Int.max_signed.
    change width with 280. change height with 224. lia.
Qed.

(** The constructor either returns a model with both arrays at their
    sizes or throws; it is never undefined, and it only asks the runtime
    to create its objects. *)
Lemma MNISTModel_new_cases path :
  (exists s, MNISTModel_new E path = Ok (mkHandle s model_init)
             /\ create_session E path = inr s)
  \/ (exists e, MNISTModel_new E path = Throws e).
Proof.
  unfold MNISTModel_new.
  destruct (create_env E) as [e|_]; [right; eauto|].
  destruct (create_session E path) as [e|s]; [right; eauto|].
  destruct (create_memory_info E) as [e|_]; [right; eauto|].
  destruct (create_tensor E _ input_shape_) as [e|_]; [right; eauto|].
  destruct (create_tensor E _ output_shape_) as [e|_]; [right; eauto|].
  left. eauto.
Qed.

(** In every state of the loop, a fault of the runtime during [Run] leaves
    the handler of the button release as an exception nobody catches. *)
Lemma mouse_up_fault (st : loop_state E) e :
  model_wf (arrays (mnistModel st)) ->
  (forall img, session_run E (session_ (mnistModel st)) img = inl e) ->
  handle_event expf sdl (SDL_MOUSEBUTTONUP SDL_BUTTON_LEFT) st
  = inr (Terminated e (log st)).
Proof.
  intros Hwf Hfault. unfold handle_event. rewrite Z.eqb_refl.
  destruct (read_pixels_capture (reads st)) as (Hcap & Hfit).
  destruct (convertImage_run _ _ _ Hcap Hfit _ Hwf) as (img & Hrun & _).
  rewrite Hrun. unfold Run. cbn [session_ arrays]. rewrite Hfault. reflexivity.
Qed.

End Program.

(** C6: what the code does when the runtime reports a fault during
    classify.  With the model loaded and the window open, the first release
    of the left button calls [Run]; the exception [session_.Run] throws is
    not caught anywhere in [main], so the process is terminated: no result
    reaches the caller and the loop does not go on (the events that follow
    are never read). *)
Theorem main_inference_fault (expf : float32 -> float32) (E : App.Engine)
    (sdl : App.Sdl) (h : App.Handle E) (e : App.OrtException)
    (queued : list App.event) (frames : list (list App.event)) :
  App.MNISTModel_new E "mnist.onnx" = App.Ok h ->
  App.init_ok sdl = true -> App.window_ok sdl = true ->
  App.renderer_ok sdl = true ->
  (forall img, App.session_run E (App.session_ h) img = inl e) ->
  App.main expf E sdl
    ((App.SDL_MOUSEBUTTONUP App.SDL_BUTTON_LEFT :: queued) :: frames)
  = App.Terminated e [App.Cout App.banner].
Proof.
  intros Hload Hinit Hwin Hren Hfault.
  unfold App.main. rewrite Hload, Hinit, Hwin, Hren. cbn [negb].
  cbn [App.main_loop App.quit App.poll_events].
  rewrite (mouse_up_fault expf E sdl _ e).
  - reflexivity.
  - cbn [App.mnistModel].
    destruct (MNISTModel_new_cases E "mnist.onnx") as [(s & Hs & _)|(e' & He')];
      rewrite Hload in *; [|discriminate].
    injection Hs as ->. split; reflexivity.
  - exact Hfault.
Qed.

Lemma main_inference_fault_witness :
  App.main ExpRef.expf (App.faulty_engine "Non-zero status code") App.quiet_sdl
    [[App.SDL_MOUSEBUTTONUP App.SDL_BUTTON_LEFT; App.SDL_MOUSEBUTTONDOWN 1 5 5]; []]
  = App.Terminated (App.mkOrt "Non-zero status code") [App.Cout App.banner].
Proof.
  apply (main_inference_fault ExpRef.expf
           (App.faulty_engine "Non-zero status code") App.quiet_sdl
           (@App.mkHandle (App.faulty_engine "Non-zero status code")
              (App.mkFile App.input_shape_ App.output_shape_) model_init));
    reflexivity.
Defined.




(** ** softmax under an exact shift of the logits *)

Lemma exp_pos_zero (expf : float32 -> float32) a :
  expf (S754_zero true) = expf (S754_zero false) ->
  expf a = expf (F32.pos_zero a).
Proof.
  intros H0. destruct a as [[|]| | |]; simpl; auto.
Qed.

Lemma exact_shift_same_order logits shifted c :
  Decision.exact_shift logits shifted c -> Decision.same_order logits shifted.
Proof.
  intros Hshift. split; [exact (Forall2_length _ _ _ Hshift)|].
  intros i j a b a' b' Ha Hb Ha' Hb'.
  destruct (Forall2_lookup_lr _ _ _ _ _ _ Hshift Ha Ha') as (Fa & Fa' & Ea).
  destruct (Forall2_lookup_lr _ _ _ _ _ _ Hshift Hb Hb') as (Fb & Fb' & Eb).
  pose proof (ltb_units a b Fa Fb) as H1.
  pose proof (ltb_units a' b' Fa' Fb') as H2.
  destruct (F32.ltb a b), (F32.ltb a' b'); try reflexivity.
  - assert (F32.units a' < F32.units b') by (rewrite Ea, Eb; apply Z.add_lt_mono_r, H1; reflexivity).
    apply H2 in H. discriminate.
  - assert (F32.units a < F32.units b).
    { assert (F32.units a' < F32.units b') as Hlt by (apply H2; reflexivity).
      rewrite Ea, Eb in Hlt. lia. }
    apply H1 in H. discriminate.
Qed.

Lemma exp_list_shift (expf : float32 -> float32) m m' l l' c :
  expf (S754_zero true) = expf (S754_zero false) ->
  F32.finite_valid m = true -> F32.finite_valid m' = true ->
  F32.units m' = F32.units m + c ->
  Decision.exact_shift l l' c ->
  (fun xi => expf (F32.sub xi m')) <$> l'
  = (fun xi => expf (F32.sub xi m)) <$> l.
Proof.
  intros H0 Fm Fm' Em Hshift.
  induction Hshift as [|a a' l l' (Fa & Fa' & Ea) _ IH]; [reflexivity|].
  cbn [fmap list_fmap]. f_equal; [|exact IH].
  rewrite (exp_pos_zero expf _ H0), (exp_pos_zero expf (F32.sub a _) H0).
  rewrite (sub_units a' _ Fa' Fm'), (sub_units a _ Fa Fm).
  do 3 f_equal. lia.
Qed.

Lemma softmax_reference_shift (expf : float32 -> float32) logits shifted c :
  expf (S754_zero true) = expf (S754_zero false) ->
  Decision.exact_shift logits shifted c ->
  Decision.softmax_reference expf shifted = Decision.softmax_reference expf logits.
Proof.
  intros H0 Hshift.
  destruct logits as [|x rest].
  { apply Forall2_nil_inv_l in Hshift. now subst. }
  destruct shifted as [|x' rest']; [now apply Forall2_nil_inv_r in Hshift|].
  pose proof (exact_shift_same_order _ _ _ Hshift) as Hsame.
  pose proof (max_element_same _ _ Hsame) as Hk.
  pose proof (max_element_value x rest) as Hm.
  pose proof (max_element_value x' rest') as Hm'.
  rewrite <- Hk in Hm'.
  destruct (Forall2_lookup_lr _ _ _ _ _ _ Hshift Hm Hm') as (Fm & Fm' & Em).
  unfold Decision.softmax_reference. cbv zeta.
  now rewrite (exp_list_shift expf _ _ _ _ c H0 Fm Fm' Em Hshift).
Qed.

(** C8 (as amended). For every finite logit vector and every constant C
    for which the sums logit_i + C are exact (the shifted logits are again
    binary32 numbers), and an exp that does not tell -0 from +0, the
    softmax of the shifted vector is the softmax of the original one, bit
    for bit. *)
Theorem softmax_shift_exact (expf : float32 -> float32)
    (logits shifted : list float32) (c : Z) :
  expf (S754_zero true) = expf (S754_zero false) ->
  Decision.exact_shift logits shifted c ->
  Decision.softmax expf shifted = Decision.softmax expf logits.
Proof.
  intros H0 Hshift. rewrite !softmax_run.
  pose proof (softmax_reference_shift expf _ _ _ H0 Hshift) as E.
  destruct Hshift; [reflexivity|]. now rewrite E.
Qed.

Lemma softmax_shift_exact_witness :
  Decision.softmax ExpRef.expf
    [F32.of_int 2; F32.of_int 3; F32.of_int 1; F32.of_int 5; F32.ldexp 5 (-1);
     F32.of_int 2; F32.of_int 4; F32.of_int 2; F32.ldexp 3 (-1); F32.of_int 2]
  = Decision.softmax ExpRef.expf
    [F32.zero; F32.of_int 1; F32.of_int (-1); F32.of_int 3; F32.ldexp 1 (-1);
     F32.zero; F32.of_int 2; S754_zero true; F32.ldexp (-1) (-1); F32.zero].
Proof.
  apply (softmax_shift_exact ExpRef.expf _ _ (F32.units (F32.of_int 2))).
  - reflexivity.
  - repeat (constructor; [repeat split; vm_compute; reflexivity|]).
    constructor.
Defined.

(** C8, as stated, fails for the logits [0, 1, 0, ..., 0] and C = 2^25:
    each sum logit_i + C, taken in binary32, is 2^25 (2^25 + 1 is not a
    binary32 number), so the shifted vector is constant and its softmax is
    uniform, while the softmax of the original vector is not. *)
Lemma softmax_shift_counterexample :
  let logits :=
    [F32.zero; F32.of_int 1; F32.zero; F32.zero; F32.zero;
     F32.zero; F32.zero; F32.zero; F32.zero; F32.zero] in
  let C := F32.ldexp 1 25 in
  let shifted := (fun x => F32.add x C) <$> logits in
  Forall (fun a => F32.finite_valid a = true) logits
  /\ F32.finite_valid C = true
  /\ shifted = replicate 10 C
  /\ Decision.softmax ExpRef.expf shifted
     = Some (replicate 10 (F32.ldexp 13421773 (-27)))
  /\ Decision.softmax ExpRef.expf shifted <> Decision.softmax ExpRef.expf logits.
Proof.
  intros logits C shifted.
  split; [repeat constructor|].
  split; [reflexivity|].
  split; [vm_compute; reflexivity|].
  split; [vm_compute; reflexivity|].
  vm_compute. discriminate.
Qed.

(** * Further properties *)

(** ** convertImage: the bytes read and the values written *)

Lemma for_each_ext {St} (f g : Z -> St -> option St) range :
  (forall i s, i ∈ range -> f i s = g i s) ->
  forall s, for_each range f s = for_each range g s.
Proof.
  induction range as [|i rest IH]; intros Hfg s; [reflexivity|].
  simpl. rewrite (Hfg i s) by apply list_elem_of_here.
  destruct (g i s); [|reflexivity].
  apply IH. intros j t Hj. apply Hfg. now apply list_elem_of_further.
Qed.

Lemma same_byte_eq a b : Sampling.same_byte a b = true -> a = b.
Proof.
  destruct a as [x|], b as [y|]; simpl; try discriminate; try reflexivity.
  intros E. f_equal. now apply Byte.byte_dec_bl.
Qed.

Lemma sample_indices_elem W H r c k :
  0 <= r < 28 -> 0 <= c < 28 -> 0 <= k <= 2 ->
  Int.add (Normalizer.src_idx W H r c) k ∈ Sampling.sample_indices W H.
Proof.
  intros Hr Hc Hk. unfold Sampling.sample_indices.
  apply list_elem_of_bind. exists r. split; [|apply elem_of_seqZ; unfold MNIST_HEIGHT; lia].
  apply list_elem_of_bind. exists c. split; [|apply elem_of_seqZ; unfold MNIST_WIDTH; lia].
  apply list_elem_of_fmap. exists k. split; [reflexivity|].
  assert (k = 0 \/ k = 1 \/ k = 2) as [-> | [-> | ->]] by lia;
    repeat first [apply list_elem_of_here | apply list_elem_of_further].
Qed.

(** The loop depends on the buffer through the bytes it reads only. *)
Lemma convertImage_ext m (px1 px2 : list byte) W H :
  (forall r c k, 0 <= r < 28 -> 0 <= c < 28 -> 0 <= k <= 2 ->
     vec_at px1 (Int.add (Normalizer.src_idx W H r c) k)
     = vec_at px2 (Int.add (Normalizer.src_idx W H r c) k)) ->
  Normalizer.convertImage m px1 W H = Normalizer.convertImage m px2 W H.
Proof.
  intros Hsame. unfold Normalizer.convertImage.
  rewrite (for_each_ext (Normalizer.convert_row px1 W H) (Normalizer.convert_row px2 W H));
    [reflexivity|].
  intros r img Hr. apply elem_of_seqZ in Hr. unfold MNIST_HEIGHT in Hr.
  unfold Normalizer.convert_row. apply for_each_ext.
  intros c t Hc. apply elem_of_seqZ in Hc. unfold MNIST_WIDTH in Hc.
  unfold Normalizer.convert_cell.
  rewrite !(Hsame r c) by lia. reflexivity.
Qed.

(** X1. convertImage looks at the buffer through the 3 x 784 bytes it reads
    and at nothing else: two buffers that hold the same bytes at the
    positions read (or both none there), whatever their lengths, their
    other pixels and their alpha bytes, give the same result, a defined
    image or an out-of-bounds read. *)
Theorem convertImage_same_samples (m : MNISTModel) (px1 px2 : list byte)
    (W H : Z) :
  Sampling.same_samples px1 px2 W H = true ->
  Normalizer.convertImage m px1 W H = Normalizer.convertImage m px2 W H.
Proof.
  intros Hs. apply convertImage_ext. intros r c k Hr Hc Hk.
  unfold Sampling.same_samples in Hs. rewrite forallb_forall in Hs.
  apply same_byte_eq, Hs, list_elem_of_In. now apply sample_indices_elem.
Qed.

Lemma convertImage_same_samples_witness :
  Normalizer.convertImage model_init
    (replicate 12 "000"%byte ++ replicate 4 "255"%byte) 2 2
  = Normalizer.convertImage model_init
      ([ "000"; "000"; "000"; "077"; "000"; "000"; "000"; "000";
         "000"; "000"; "000"; "001"; "255"; "255"; "255"; "000";
         "009"; "009" ]%byte) 2 2.
Proof.
  apply (convertImage_same_samples model_init). vm_compute. reflexivity.
Defined.

Lemma of_u8_inj a b : Int.of_u8 a = Int.of_u8 b -> a = b.
Proof.
  unfold Int.of_u8. intros E. apply N2Z.inj in E.
  apply (f_equal Byte.of_N) in E. rewrite !Byte.of_to_N in E. congruence.
Qed.

(** A defined conversion is determined cell by cell. *)
Lemma done_upto_replicate (px : list byte) W H img v :
  Sampling.uniform v px ->
  done_upto px W H 784 img ->
  0 <= W -> 0 <= H ->
  img = replicate 784 (Normalizer.cell_value v v v).
Proof.
  intros Hu (Hlen & Hcells) HW HH.
  apply list_eq. intros i.
  destruct (decide (i < 784)%nat) as [Hi|Hi].
  - rewrite lookup_replicate_2 by exact Hi.
    destruct (Hcells (Z.of_nat i / 28) (Z.of_nat i mod 28)) as (R & G & B & HR & HG & HB & Hc).
    + split; [apply Z.div_pos; lia|apply Z.div_lt_upper_bound; lia].
    + apply Z.mod_pos_bound. lia.
    + pose proof (Z.div_mod (Z.of_nat i) 28 ltac:(lia)). lia.
    + replace (Z.to_nat (Z.of_nat i / 28 * 28 + Z.of_nat i mod 28)) with i in Hc
        by (pose proof (Z.div_mod (Z.of_nat i) 28 ltac:(lia)); lia).
      rewrite Hc.
      set (q := Z.of_nat i / 28 * H / 28 * W + Z.of_nat i mod 28 * W / 28) in *.
      assert (Hq : 0 <= q).
      { unfold q. apply Z.add_nonneg_nonneg.
        - apply Z.mul_nonneg_nonneg; [|exact HW].
          apply Z.div_pos; [|lia]. apply Z.mul_nonneg_nonneg; [|exact HH].
          apply Z.div_pos; lia.
        - apply Z.div_pos; [|lia]. apply Z.mul_nonneg_nonneg; [|exact HW].
          apply Z.mod_pos_bound. lia. }
      assert (Hmod : forall k, 0 <= k < 3 -> (Z.to_nat (q * 4 + k) mod 4 <> 3)%nat).
      { intros k Hk E. apply (f_equal Z.of_nat) in E.
        rewrite Nat2Z.inj_mod, Z2Nat.id in E by lia.
        rewrite Z.add_comm, Z.mod_add, Z.mod_small in E by lia. lia. }
      rewrite (Hu _ _ HR) by (rewrite <- (Z.add_0_r (q * 4)); apply Hmod; lia).
      rewrite (Hu _ _ HG) by (apply Hmod; lia).
      rewrite (Hu _ _ HB) by (apply Hmod; lia).
      reflexivity.
  - transitivity (@None float32).
    + apply lookup_ge_None_2. lia.
    + symmetry. apply lookup_replicate_None. lia.
Qed.

(** X2. A capture of one colour gives an image of one intensity, and the
    conversion inverts: white pixels give 0.0f in every cell, black pixels
    1.0f, whatever the alpha bytes; results_ is not touched. *)
Theorem convertImage_uniform (m : MNISTModel) (px : list byte) (W H : Z)
    (v : byte) :
  model_wf m -> Normalizer.capture px W H -> Normalizer.fits_int W H ->
  Sampling.uniform v px ->
  Normalizer.convertImage m px W H
  = Some (mkModel (replicate 784 (Normalizer.cell_value v v v)) (results_ m))
  /\ Normalizer.cell_value "255" "255" "255" = F32.zero
  /\ Normalizer.cell_value "000" "000" "000" = F32.one.
Proof.
  intros Hwf Hcap Hfit Hu.
  destruct (convertImage_run px W H Hcap Hfit m Hwf) as (img & Hrun & Hdone).
  destruct Hcap as (HW & HH & _).
  rewrite Hrun, (done_upto_replicate px W H img v Hu Hdone) by lia.
  repeat split; vm_compute; reflexivity.
Qed.

Lemma convertImage_uniform_witness :
  Normalizer.convertImage model_init (replicate 32 "255"%byte) 4 2
  = Some (mkModel (replicate 784 (Normalizer.cell_value "255" "255" "255"))
                  (results_ model_init))
  /\ Normalizer.cell_value "255" "255" "255" = F32.zero
  /\ Normalizer.cell_value "000" "000" "000" = F32.one.
Proof.
  apply (convertImage_uniform model_init (replicate 32 "255"%byte) 4 2).
  - split; reflexivity.
  - repeat split; vm_compute; discriminate.
  - repeat split; vm_compute; discriminate.
  - intros i b Hb _. apply lookup_replicate in Hb. tauto.
Defined.

(** *** The intensity as a function of the colour *)

Lemma cell_of_sum_valid s :
  0 <= s <= 765 -> F32.finite_valid (Normalizer.cell_of_sum s) = true.
Proof.
  intros Hs. pose proof (cell_check_all s Hs) as Hc.
  unfold cell_check in Hc. rewrite !andb_true_iff in Hc.
  unfold F32.finite_valid. rewrite andb_true_iff. tauto.
Qed.

Lemma cell_step_down s :
  0 <= s < 765 ->
  F32.units (Normalizer.cell_of_sum (s + 1)) < F32.units (Normalizer.cell_of_sum s).
Proof.
  intros Hs.
  assert (Hall : forallb Sampling.step_down (seqZ 0 765) = true)
    by (vm_compute; reflexivity).
  rewrite forallb_forall in Hall.
  apply Z.ltb_lt. apply (Hall s). apply list_elem_of_In, elem_of_seqZ. lia.
Qed.

Lemma cell_units_decreasing s d :
  0 <= s -> (0 < d)%nat -> s + Z.of_nat d <= 765 ->
  F32.units (Normalizer.cell_of_sum (s + Z.of_nat d))
  < F32.units (Normalizer.cell_of_sum s).
Proof.
  intros Hs Hd. induction d as [|d IH]; [lia|]. intros Hle.
  destruct d as [|d].
  - apply cell_step_down. lia.
  - eapply Z.lt_trans; [|apply IH; lia].
    replace (s + Z.of_nat (S (S d))) with (s + Z.of_nat (S d) + 1) by lia.
    apply cell_step_down. lia.
Qed.

Lemma cell_of_sum_darker s s' :
  0 <= s -> s < s' -> s' <= 765 ->
  F32.ltb (Normalizer.cell_of_sum s') (Normalizer.cell_of_sum s) = true.
Proof.
  intros Hs Hlt Hle.
  apply ltb_units; try (apply cell_of_sum_valid; lia).
  replace s' with (s + Z.of_nat (Z.to_nat (s' - s))) by lia.
  apply cell_units_decreasing; lia.
Qed.

(** X3. The intensity falls strictly with the brightness of the pixel: of
    two pixels, the one with the smaller channel sum R + G + B gets the
    strictly greater cell value, so the 766 possible sums give 766
    different intensities. *)
Theorem cell_value_darker (r g b r' g' b' : byte) :
  Int.of_u8 r + Int.of_u8 g + Int.of_u8 b
  < Int.of_u8 r' + Int.of_u8 g' + Int.of_u8 b' ->
  F32.ltb (Normalizer.cell_value r' g' b') (Normalizer.cell_value r g b) = true.
Proof.
  intros Hlt. rewrite !cell_value_sum.
  pose proof (of_u8_range r). pose proof (of_u8_range g). pose proof (of_u8_range b).
  pose proof (of_u8_range r'). pose proof (of_u8_range g'). pose proof (of_u8_range b').
  apply cell_of_sum_darker; lia.
Qed.

Lemma cell_value_darker_witness :
  F32.ltb (Normalizer.cell_value "200" "200" "200")
          (Normalizer.cell_value "200" "199" "200") = true.
Proof.
  apply (cell_value_darker "200" "199" "200" "200" "200" "200").
  vm_compute. reflexivity.
Defined.

(** X4. A cell is exactly 1.0f for a black pixel and for no other, exactly
    0.0f for a white pixel and for no other. *)
Theorem cell_value_extremes (r g b : byte) :
  (Normalizer.cell_value r g b = F32.one
   <-> (r = "000" /\ g = "000" /\ b = "000")%byte)
  /\ (Normalizer.cell_value r g b = F32.zero
      <-> (r = "255" /\ g = "255" /\ b = "255")%byte).
Proof.
  pose proof (of_u8_range r) as Hr. pose proof (of_u8_range g) as Hg.
  pose proof (of_u8_range b) as Hb.
  assert (E1 : Normalizer.cell_of_sum 0 = F32.one) by (vm_compute; reflexivity).
  assert (E765 : Normalizer.cell_of_sum 765 = F32.zero) by (vm_compute; reflexivity).
  rewrite cell_value_sum.
  set (s := Int.of_u8 r + Int.of_u8 g + Int.of_u8 b) in *.
  split; split.
  - intros E.
    destruct (Z.eq_dec s 0) as [E0|Hne].
    + repeat split; apply of_u8_inj; change (Int.of_u8 "000") with 0; lia.
    + pose proof (cell_of_sum_darker 0 s) as Hd.
      rewrite E, E1, ltb_irrefl in Hd. discriminate Hd; lia.
  - intros (-> & -> & ->). exact E1.
  - intros E.
    destruct (Z.eq_dec s 765) as [E0|Hne].
    + repeat split; apply of_u8_inj; change (Int.of_u8 "255") with 255; lia.
    + pose proof (cell_of_sum_darker s 765) as Hd.
      rewrite E, E765, ltb_irrefl in Hd. discriminate Hd; lia.
  - intros (-> & -> & ->). exact E765.
Qed.

(** *** The smallest buffer *)

Lemma convertImage_cell_None m (px : list byte) W H r c :
  0 <= r < 28 -> 0 <= c < 28 ->
  (forall img, Normalizer.convert_cell px W H r c img = None) ->
  Normalizer.convertImage m px W H = None.
Proof.
  intros Hr Hc Hoob. unfold Normalizer.convertImage.
  rewrite (for_each_None (Normalizer.convert_row px W H) r); [reflexivity| |].
  - apply elem_of_seqZ. unfold MNIST_HEIGHT. lia.
  - intros img. unfold Normalizer.convert_row.
    apply (for_each_None _ c); [|exact Hoob].
    apply elem_of_seqZ. unfold MNIST_WIDTH. lia.
Qed.

Lemma convert_cell_blue_None (px : list byte) W H r c img :
  vec_at px (Int.add (Normalizer.src_idx W H r c) 2) = None ->
  Normalizer.convert_cell px W H r c img = None.
Proof.
  intros E. unfold Normalizer.convert_cell. cbv zeta. rewrite E.
  destruct (vec_at px (Int.add (Normalizer.src_idx W H r c) 0)); [|reflexivity].
  destruct (vec_at px (Int.add (Normalizer.src_idx W H r c) 1)); reflexivity.
Qed.

(** The positions read on sides that fit [int], as plain integers. *)
Lemma sample_index_exact W H r c k :
  1 <= W -> 1 <= H -> Normalizer.fits_int W H ->
  0 <= r < 28 -> 0 <= c < 28 -> 0 <= k < 4 ->
  Int.add (Normalizer.src_idx W H r c) k = (r * H / 28 * W + c * W / 28) * 4 + k
  /\ 0 <= (r * H / 28 * W + c * W / 28) * 4
  /\ (r * H / 28 * W + c * W / 28) * 4 + 4 <= W * H * 4
  /\ (r * H / 28 * W + c * W / 28) * 4 + 2 <= Sampling.last_read W H.
Proof.
  intros HW HH Hfit Hr Hc Hk.
  pose proof (capture_replicate "000"%byte W H HW HH) as Hcap.
  destruct (pixel_read _ W H Hcap Hfit r c k Hr Hc Hk) as (E & _).
  destruct (src_idx_exact _ W H Hcap Hfit r c Hr Hc) as (Ei & H0 & H4).
  rewrite Ei in H0, H4.
  repeat split; try assumption.
  unfold Sampling.last_read.
  assert (r * H / 28 <= 27 * H / 28) by (apply Z.div_le_mono; nia).
  assert (c * W / 28 <= 27 * W / 28) by (apply Z.div_le_mono; nia).
  assert (0 <= r * H / 28) by (apply Z.div_pos; nia).
  nia.
Qed.

Lemma vec_at_small {A} (v : list A) i :
  0 <= i <= Int.max_signed -> vec_at v i = v !! Z.to_nat i.
Proof. intros Hi. unfold vec_at, vec_get. now rewrite to_size_t_small. Qed.

(** X5. On sides W, H >= 1 that fit int, convertImage is defined exactly
    when the buffer reaches the last byte read, the blue channel of the
    pixel sampled for cell (27, 27); the alpha byte after it and everything
    behind are never needed, and one byte less is an out-of-bounds read. *)
Theorem convertImage_defined_iff (m : MNISTModel) (px : list byte) (W H : Z) :
  model_wf m -> 1 <= W -> 1 <= H -> Normalizer.fits_int W H ->
  (is_Some (Normalizer.convertImage m px W H)
   <-> Sampling.last_read W H < Z.of_nat (length px)).
Proof.
  intros Hwf HW HH Hfit.
  assert (Hmax : W * H * 4 <= Int.max_signed) by apply Hfit.
  split.
  - intros Hsome.
    destruct (Z.lt_ge_cases (Sampling.last_read W H) (Z.of_nat (length px)))
      as [Hlt|Hge]; [exact Hlt|exfalso].
    destruct (sample_index_exact W H 27 27 2 HW HH Hfit) as (E & H0 & H4 & _); try lia.
    rewrite (convertImage_cell_None m px W H 27 27) in Hsome; try lia.
    + destruct Hsome as (x & Hx). discriminate Hx.
    + intros img. apply convert_cell_blue_None.
      rewrite E, vec_at_small by lia.
      apply lookup_ge_None_2. unfold Sampling.last_read in Hge. lia.
  - intros Hlen.
    set (n := Z.to_nat (W * H * 4)).
    set (px' := take n (px ++ replicate n "000"%byte)).
    assert (Hcap : Normalizer.capture px' W H).
    { repeat split; try assumption. unfold px'.
      rewrite length_take, length_app, length_replicate. unfold n. lia. }
    rewrite (convertImage_ext m px px' W H).
    + destruct (convertImage_run px' W H Hcap Hfit m Hwf) as (img & -> & _). eauto.
    + intros r c k Hr Hc Hk.
      destruct (sample_index_exact W H r c k HW HH Hfit) as (E & H0 & H4 & Hl); try lia.
      rewrite E, !vec_at_small by lia.
      unfold px'. rewrite lookup_take_lt by (unfold n; lia).
      rewrite lookup_app_l by lia. reflexivity.
Qed.

Lemma convertImage_defined_iff_witness :
  is_Some (Normalizer.convertImage model_init
             [ "010"; "020"; "030"; "255"; "040"; "050"; "060" ]%byte 2 1)
  <-> Sampling.last_read 2 1
      < Z.of_nat (length [ "010"; "020"; "030"; "255"; "040"; "050"; "060" ]%byte).
Proof.
  apply (convertImage_defined_iff model_init); try lia.
  - split; reflexivity.
  - repeat split; vm_compute; discriminate.
Defined.

(** X6. Whatever the sides given (zero, negative or too large for int
    included), the first cell reads the bytes 0, 1 and 2: on a buffer of
    fewer than three bytes, the empty one included, convertImage reads out
    of bounds. *)
Theorem convertImage_short_buffer (m : MNISTModel) (px : list byte) (W H : Z) :
  (length px < 3)%nat -> Normalizer.convertImage m px W H = None.
Proof.
  intros Hlen. apply (convertImage_cell_None m px W H 0 0); try lia.
  intros img. apply convert_cell_blue_None.
  assert (E : Normalizer.src_idx W H 0 0 = 0).
  { unfold Normalizer.src_idx, Normalizer.srcY, Normalizer.srcX, Int.mul.
    rewrite !Z.mul_0_l. reflexivity. }
  rewrite E. change (Int.add 0 2) with 2.
  apply lookup_ge_None_2. change (Z.to_nat (Int.to_size_t 2)) with 2%nat. lia.
Qed.

Lemma convertImage_short_buffer_witness :
  Normalizer.convertImage model_init [] 0 0 = None.
Proof.
  apply (convertImage_short_buffer model_init [] 0 0). simpl. lia.
Defined.

(** ** Rounding: the sum and the quotient within one unit in the last place *)

Lemma shr_1_m mrs : 0 <= shr_m mrs -> shr_m (shr_1 mrs) = shr_m mrs / 2.
Proof.
  destruct mrs as [m r s]. cbn [shr_m]. intros Hm.
  destruct m as [|[p|p|]|p]; cbn [shr_1 shr_m]; try reflexivity; try lia.
  - rewrite Pos2Z.inj_xI. apply Z.div_unique with (r := 1); lia.
  - rewrite Pos2Z.inj_xO. apply Z.div_unique with (r := 0); lia.
Qed.

Lemma shr_m_iter n : forall mrs,
  0 <= shr_m mrs ->
  shr_m (Pos.iter shr_1 mrs n) = shr_m mrs / 2 ^ Zpos n.
Proof.
  induction n using Pos.peano_ind; intros mrs Hm.
  - simpl. now apply shr_1_m.
  - rewrite Pos.iter_succ, shr_1_m.
    + rewrite IHn by exact Hm. rewrite Z.div_div by lia.
      f_equal. rewrite Pos2Z.inj_succ, Z.pow_succ_r; lia.
    + rewrite IHn by exact Hm. apply Z.div_pos; lia.
Qed.

Lemma shr_m_of_loc m l : shr_m (shr_record_of_loc m l) = m.
Proof. destruct l as [|[]]; reflexivity. Qed.

(** A shift to the right by [n >= 0] bits divides the mantissa. *)
Lemma shr_spec m l e n :
  0 <= m -> 0 <= n ->
  exists mrs, shr (shr_record_of_loc m l) e n = (mrs, e + n)
              /\ shr_m mrs = m / 2 ^ n.
Proof.
  intros Hm Hn. unfold shr. destruct n as [|n|n]; [| |lia].
  - eexists. split; [rewrite Z.add_0_r; reflexivity|].
    rewrite shr_m_of_loc, Z.div_1_r. reflexivity.
  - eexists. split; [reflexivity|].
    rewrite iter_pos_iter, shr_m_iter; rewrite shr_m_of_loc; auto.
Qed.

Lemma round_nearest_even_range m l :
  m <= round_nearest_even m l <= m + 1.
Proof. destruct l as [|[]]; simpl; try destruct (Z.even m); lia. Qed.

Lemma Zdigits2_bounds q :
  0 < q -> 2 ^ (Zdigits2 q - 1) <= q < 2 ^ Zdigits2 q.
Proof.
  destruct q as [|p|p]; try lia. intros _. simpl Zdigits2. apply digits2_bounds.
Qed.

Lemma Zdigits2_unique q d :
  0 < q -> 2 ^ (d - 1) <= q < 2 ^ d -> Zdigits2 q = d.
Proof.
  intros Hq (Hlo & Hhi). pose proof (Zdigits2_bounds q Hq) as (Hlo' & Hhi').
  assert (0 < Zdigits2 q) by (destruct q; simpl; lia).
  assert (0 < d).
  { destruct (Z.lt_trichotomy d 0) as [Hneg|[->|Hpos]]; [| |exact Hpos].
    - rewrite (Z.pow_neg_r 2 d Hneg) in Hhi. lia.
    - change (2 ^ 0) with 1 in Hhi. lia. }
  assert (Zdigits2 q - 1 < d).
  { apply (Z.pow_lt_mono_r_iff 2); lia. }
  assert (d - 1 < Zdigits2 q).
  { apply (Z.pow_lt_mono_r_iff 2); lia. }
  lia.
Qed.

Lemma fexp_eq e : fexp F32.prec F32.emax e = Z.max (e - 24) (-149).
Proof. reflexivity. Qed.

Lemma shr_nonpos mrs e n : n <= 0 -> shr mrs e n = (mrs, e).
Proof. intros Hn. destruct n; try reflexivity; lia. Qed.

Lemma bounded_iff m e :
  bounded F32.prec F32.emax m e = true
  <-> Z.max (Zpos (digits2_pos m) + e - 24) (-149) = e /\ e <= 104.
Proof.
  unfold bounded, canonical_mantissa.
  rewrite andb_true_iff, Z.eqb_eq, Z.leb_le, fexp_eq. reflexivity.
Qed.

(** Rounding a mantissa [q >= 0] at an exponent [e] not above the target
    exponent [t]: the result is zero or a number of the format, a multiple
    of [2^t] at most one step above [q / 2^(t - e)]. *)
Lemma round_aux_faithful (s : bool) (q e : Z) (l : location) :
  0 <= q ->
  let t := Z.max (Zdigits2 q + e - 24) (-149) in
  e <= t -> t <= 103 ->
  exists u,
    (binary_round_aux F32.prec F32.emax s q e l = S754_zero s /\ u = 0
     \/ exists m3 e3,
          binary_round_aux F32.prec F32.emax s q e l = S754_finite s m3 e3
          /\ u = Zpos m3 * 2 ^ (e3 + 149)
          /\ bounded F32.prec F32.emax m3 e3 = true)
    /\ q / 2 ^ (t - e) * 2 ^ (t + 149) <= u
       <= (q / 2 ^ (t - e) + 1) * 2 ^ (t + 149)
    /\ (-149 < t -> 2 ^ 23 * 2 ^ (t + 149) <= u).
Proof.
  intros Hq t Het Ht.
  assert (Ht149 : -149 <= t) by (unfold t; lia).
  assert (Hpow : 0 < 2 ^ (t + 149)) by (apply Z.pow_pos_nonneg; lia).
  assert (Hpn : 0 < 2 ^ (t - e)) by (apply Z.pow_pos_nonneg; lia).
  unfold binary_round_aux, shr_fexp. rewrite fexp_eq. fold t.
  destruct (shr_spec q l e (t - e) Hq ltac:(lia)) as (mrs1 & E1 & Hm1).
  rewrite E1. replace (e + (t - e)) with t by lia.
  set (m1 := q / 2 ^ (t - e)) in *.
  pose proof (round_nearest_even_range (shr_m mrs1) (loc_of_shr_record mrs1)) as Hm2.
  set (m2 := round_nearest_even (shr_m mrs1) (loc_of_shr_record mrs1)) in *.
  rewrite Hm1 in Hm2.
  assert (Hm1_lo : 0 <= m1) by (apply Z.div_pos; lia).
  assert (Hm1_hi : m1 < 2 ^ 24).
  { destruct (Z.eq_dec q 0) as [->|Hq0]; [unfold m1; rewrite Z.div_0_l by lia; lia|].
    pose proof (Zdigits2_bounds q ltac:(lia)) as (_ & Hhi).
    apply Z.div_lt_upper_bound; [lia|].
    rewrite <- Z.pow_add_r by lia.
    eapply Z.lt_le_trans; [exact Hhi|]. apply Z.pow_le_mono_r; lia. }
  assert (Hnormal : -149 < t -> 2 ^ 23 <= m1).
  { intros Hn.
    assert (Et : t = Zdigits2 q + e - 24) by (unfold t in *; lia).
    assert (Hq0 : 0 < q).
    { destruct (Z.eq_dec q 0) as [->|]; [simpl in Et; lia|lia]. }
    pose proof (Zdigits2_bounds q Hq0) as (Hlo & _).
    apply Z.div_le_lower_bound; [lia|].
    rewrite <- Z.pow_add_r by lia.
    replace (t - e + 23) with (Zdigits2 q - 1) by lia. exact Hlo. }
  rewrite fexp_eq.
  assert (Hcases : m2 = 0 \/ 0 < m2 < 2 ^ 24 \/ m2 = 2 ^ 24) by lia.
  destruct Hcases as [E0|[Hmid|E24]].
  - (* the mantissa is rounded to zero *)
    exists 0. rewrite E0. change (Zdigits2 0) with 0.
    rewrite shr_nonpos by lia. cbn [shr_m shr_record_of_loc].
    split; [left; auto|]. split; [nia|]. intros Hn. specialize (Hnormal Hn). lia.
  - (* no carry: the mantissa has at most 24 digits *)
    pose proof (Zdigits2_bounds m2 ltac:(lia)) as (Hlo2 & Hhi2).
    assert (Hd2 : Zdigits2 m2 <= 24).
    { destruct (Z.le_gt_cases (Zdigits2 m2) 24); [assumption|].
      assert (2 ^ 24 <= 2 ^ (Zdigits2 m2 - 1)) by (apply Z.pow_le_mono_r; lia).
      lia. }
    assert (Hd2n : -149 < t -> Zdigits2 m2 = 24).
    { intros Hn. specialize (Hnormal Hn).
      apply Zdigits2_unique; [lia|]. change (2 ^ (24 - 1)) with (2 ^ 23). lia. }
    rewrite shr_nonpos by lia. cbn [shr_m shr_record_of_loc].
    destruct m2 as [|p|p] eqn:Ep; try lia.
    exists (Zpos p * 2 ^ (t + 149)).
    split.
    + right. exists p, t.
      assert (Hle : (t <=? F32.emax - F32.prec) = true) by (apply Z.leb_le; unfold F32.emax, F32.prec; lia).
      rewrite Hle. split; [reflexivity|]. split; [reflexivity|].
      apply bounded_iff. simpl Zdigits2 in *. lia.
    + split; [nia|]. intros Hn. specialize (Hnormal Hn).
      apply Z.mul_le_mono_nonneg_r; lia.
  - (* carry: the mantissa 2^24 becomes 2^23 one exponent higher *)
    rewrite E24. change (Zdigits2 (2 ^ 24)) with 25.
    replace (Z.max (25 + t - 24) (-149) - t) with 1 by lia.
    cbn [shr shr_record_of_loc iter_pos]. 
    change (shr_m (shr_1 {| shr_m := 2 ^ 24; shr_r := false; shr_s := false |}))
      with (Zpos 8388608).
    cbv iota.
    assert (Hle : (t + 1 <=? F32.emax - F32.prec) = true) by (apply Z.leb_le; unfold F32.emax, F32.prec; lia).
    rewrite Hle.
    exists (Zpos 8388608 * 2 ^ (t + 1 + 149)).
    split.
    + right. exists 8388608%positive, (t + 1).
      split; [reflexivity|]. split; [reflexivity|].
      apply bounded_iff. change (Zpos (digits2_pos 8388608)) with 24. lia.
    + replace (t + 1 + 149) with (Z.succ (t + 149)) by lia.
      rewrite Z.pow_succ_r by lia.
      change (2 ^ 24) with 16777216 in *. change (2 ^ 23) with 8388608 in *.
      split; [nia|]. intros Hn. nia.
Qed.

Lemma div_bracket q n : 0 <= q -> 0 <= n ->
  q / 2 ^ n * 2 ^ n <= q < (q / 2 ^ n + 1) * 2 ^ n.
Proof.
  intros Hq Hn. assert (0 < 2 ^ n) by (apply Z.pow_pos_nonneg; lia).
  pose proof (Z.div_mod q (2 ^ n) ltac:(lia)).
  pose proof (Z.mod_pos_bound q (2 ^ n) ltac:(lia)). nia.
Qed.

(** [binary_round] on a positive value of at most 32: the result is a
    number of the format within one unit in the last place of the value. *)
Lemma binary_round_faithful (M : positive) (e : Z) :
  -149 <= e -> Zpos M * 2 ^ (e + 149) <= 2 ^ 154 ->
  Rounding.nonneg (binary_round F32.prec F32.emax false M e) = true
  /\ - (F32.units (binary_round F32.prec F32.emax false M e) + 2 ^ 23)
     <= (F32.units (binary_round F32.prec F32.emax false M e)
         - Zpos M * 2 ^ (e + 149)) * 2 ^ 23
     <= F32.units (binary_round F32.prec F32.emax false M e) + 2 ^ 23.
Proof.
  intros He HV. unfold binary_round.
  rewrite fexp_eq. set (t := Z.max (Zpos (digits2_pos M) + e - 24) (-149)).
  (* the aligned mantissa [mz] at exponent [ez] *)
  assert (Hal : exists mz ez,
             shl_align M e t = (mz, ez)
             /\ Zpos mz * 2 ^ (ez + 149) = Zpos M * 2 ^ (e + 149)
             /\ -149 <= ez
             /\ ez <= Z.max (Zdigits2 (Zpos mz) + ez - 24) (-149)
             /\ Z.max (Zdigits2 (Zpos mz) + ez - 24) (-149) = t).
  { unfold shl_align. destruct (t - e) as [|d|d] eqn:Ed.
    - exists M, e. simpl Zdigits2. fold t. repeat split; try lia.
    - exists M, e. simpl Zdigits2. fold t. repeat split; try lia.
    - exists (Pos.iter xO M d), t. simpl Zdigits2.
      rewrite digits2_iter_xO, iter_xO_Z.
      assert (Zpos d = e - t) by lia.
      repeat split; try (unfold t in *; lia).
      rewrite <- Z.mul_assoc, <- Z.pow_add_r by (unfold t in *; lia).
      f_equal. f_equal. lia. }
  destruct Hal as (mz & ez & -> & EV & Hez & Hle & Et).
  assert (Hpos : 0 < 2 ^ (ez + 149)) by (apply Z.pow_pos_nonneg; lia).
  assert (Ht : t <= 103).
  { pose proof (Zdigits2_bounds (Zpos mz) ltac:(lia)) as (Hlo & _).
    assert (2 ^ (Zdigits2 (Zpos mz) - 1 + (ez + 149)) <= 2 ^ 154).
    { rewrite Z.pow_add_r by (simpl; lia). rewrite <- EV in HV. nia. }
    assert (Zdigits2 (Zpos mz) - 1 + (ez + 149) <= 154).
    { apply (Z.pow_le_mono_r_iff 2); lia. }
    lia. }
  destruct (round_aux_faithful false (Zpos mz) ez loc_Exact ltac:(lia))
    as (u & Hr & Hu & Hn); [lia|rewrite Et; exact Ht|].
  rewrite Et in Hu, Hn.
  assert (Ht149 : -149 <= t) by (unfold t; lia).
  pose proof (div_bracket (Zpos mz) (t - ez) ltac:(lia) ltac:(lia)) as Hbr.
  assert (E2 : 2 ^ (t + 149) = 2 ^ (t - ez) * 2 ^ (ez + 149)).
  { rewrite <- Z.pow_add_r by lia. f_equal. lia. }
  set (m1 := Zpos mz / 2 ^ (t - ez)) in *.
  assert (Hulp : 0 < 2 ^ (t + 149)) by (apply Z.pow_pos_nonneg; lia).
  assert (Herr : - 2 ^ (t + 149) <= u - Zpos M * 2 ^ (e + 149) <= 2 ^ (t + 149)).
  { rewrite <- EV. rewrite E2 in *. nia. }
  assert (Hrel : - (u + 2 ^ 23) <= (u - Zpos M * 2 ^ (e + 149)) * 2 ^ 23 <= u + 2 ^ 23).
  { destruct (Z.eq_dec t (-149)) as [E149|Hne].
    - rewrite E149 in Herr. change (2 ^ (-149 + 149)) with 1 in Herr.
      assert (0 <= u) by nia. lia.
    - specialize (Hn ltac:(lia)). lia. }
  destruct Hr as [(-> & ->)|(m3 & e3 & -> & -> & Hb)].
  - split; [reflexivity|]. exact Hrel.
  - split; [|exact Hrel].
    unfold Rounding.nonneg, F32.finite_valid. simpl. now rewrite Hb.
Qed.

Lemma nonneg_units x : Rounding.nonneg x = true -> 0 <= F32.units x.
Proof.
  unfold Rounding.nonneg. rewrite andb_true_iff. intros (_ & Hs).
  destruct x as [s|s| |[|] m e]; simpl; try discriminate; lia.
Qed.

Lemma nonneg_exponent s m e :
  Rounding.nonneg (S754_finite s m e) = true ->
  s = false /\ bounded F32.prec F32.emax m e = true /\ -149 <= e.
Proof.
  unfold Rounding.nonneg, F32.finite_valid. rewrite !andb_true_iff.
  intros ((_ & Hb) & Hs). destruct s; [discriminate|].
  simpl in Hb. destruct (bounded_facts m e Hb). auto.
Qed.

(** An addition of two numbers that are not negative and sum to at most
    32: the result is a number of the format within one unit in the last
    place of the sum. *)
Lemma add_faithful a b :
  Rounding.nonneg a = true -> Rounding.nonneg b = true ->
  F32.units a + F32.units b <= 2 ^ 154 ->
  Rounding.nonneg (F32.add a b) = true
  /\ - (F32.units (F32.add a b) + 2 ^ 23)
     <= (F32.units (F32.add a b) - (F32.units a + F32.units b)) * 2 ^ 23
     <= F32.units (F32.add a b) + 2 ^ 23.
Proof.
  intros Ha Hb HV.
  pose proof (nonneg_units a Ha) as Ua. pose proof (nonneg_units b Hb) as Ub.
  destruct a as [sa|sa| |sa ma ea]; try discriminate;
    destruct b as [sb|sb| |sb mb eb]; try discriminate.
  - destruct sa, sb; (split; [reflexivity|simpl; lia]).
  - change (F32.add (S754_zero sa) (S754_finite sb mb eb)) with (S754_finite sb mb eb).
    split; [exact Hb|]. simpl F32.units at 3. lia.
  - change (F32.add (S754_finite sa ma ea) (S754_zero sb)) with (S754_finite sa ma ea).
    split; [exact Ha|]. simpl F32.units at 4. lia.
  - destruct (nonneg_exponent _ _ _ Ha) as (-> & Va & Ea).
    destruct (nonneg_exponent _ _ _ Hb) as (-> & Vb & Eb).
    unfold F32.add, SFadd. cbv zeta. cbn [cond_Zopp].
    set (ez := Z.min ea eb).
    assert (Esum : F32.units (S754_finite false ma ea) + F32.units (S754_finite false mb eb)
                   = Zpos (fst (shl_align ma ea ez) + fst (shl_align mb eb ez)) * 2 ^ (ez + 149)).
    { rewrite Pos2Z.inj_add, !shl_align_Z by (unfold ez; lia).
      rewrite Z.mul_add_distr_r, <- !Z.mul_assoc, <- !Z.pow_add_r by (unfold ez; lia).
      simpl. f_equal; f_equal; f_equal; lia. }
    rewrite Esum in *.
    change (Zpos (fst (shl_align ma ea ez)) + Zpos (fst (shl_align mb eb ez)))
      with (Zpos (fst (shl_align ma ea ez) + fst (shl_align mb eb ez))).
    apply binary_round_faithful; [unfold ez; lia|exact HV].
Qed.

Lemma div_core_spec m1 e1 m2 e2 :
  let e' := Z.min (Z.max (Zpos (digits2_pos m1) + e1 - (Zpos (digits2_pos m2) + e2) - 24) (-149))
                  (e1 - e2) in
  exists l,
    SFdiv_core_binary F32.prec F32.emax (Zpos m1) e1 (Zpos m2) e2
    = (Zpos m1 * 2 ^ (e1 - e2 - e') / Zpos m2, e', l).
Proof.
  intros e'. unfold SFdiv_core_binary. rewrite fexp_eq.
  cbn [Zdigits2]. fold e'.
  set (s := e1 - e2 - e').
  assert (Hs : 0 <= s) by (unfold s, e'; lia).
  assert (Em : match s with
               | 0 => Zpos m1
               | Zpos _ => Z.shiftl (Zpos m1) s
               | Zneg _ => 0
               end = Zpos m1 * 2 ^ s).
  { destruct s as [|p|p] eqn:Es; [lia| |lia]. now rewrite Z.shiftl_mul_pow2. }
  rewrite Em.
  destruct (Z.div_eucl (Zpos m1 * 2 ^ s) (Zpos m2)) as [q r] eqn:Ed.
  exists (new_location (Zpos m2) r).
  f_equal. f_equal. unfold Z.div. now rewrite Ed.
Qed.

Lemma digits_le q k : 0 <= q < 2 ^ k -> 0 <= k -> Zdigits2 q <= k.
Proof.
  intros (Hq & Hlt) Hk. destruct (Z.eq_dec q 0) as [->|Hne]; [simpl; lia|].
  pose proof (Zdigits2_bounds q ltac:(lia)) as (Hlo & _).
  destruct (Z.le_gt_cases (Zdigits2 q) k); [assumption|].
  assert (2 ^ k <= 2 ^ (Zdigits2 q - 1)) by (apply Z.pow_le_mono_r; lia). lia.
Qed.

Lemma pow_le_inv a b : 2 ^ a <= 2 ^ b -> 0 <= b -> a <= b.
Proof.
  intros H Hb. destruct (Z.le_gt_cases a b); [assumption|].
  assert (2 ^ b < 2 ^ a) by (apply Z.pow_lt_mono_r; lia). lia.
Qed.

Lemma pow_lt_inv a b : 2 ^ a < 2 ^ b -> 0 <= b -> a < b.
Proof.
  intros H Hb. destruct (Z.lt_ge_cases a b); [assumption|].
  assert (2 ^ b <= 2 ^ a) by (apply Z.pow_le_mono_r; lia). lia.
Qed.

Lemma quotient_error (q m' m2 N Pe P2 T u m1' : Z) :
  0 < m2 -> 0 < N -> 0 < Pe -> 0 < P2 -> T = N * Pe ->
  q * m2 <= m' < (q + 1) * m2 ->
  m1' * N <= q < (m1' + 1) * N ->
  m1' * T <= u <= (m1' + 1) * T ->
  - (T * (m2 * P2)) <= u * (m2 * P2) - m' * Pe * P2 <= T * (m2 * P2).
Proof.
  intros Hm2 HN HPe HP2 -> (Hq1 & Hq2) (Hb1 & Hb2) (Hu1 & Hu2).
  set (X := m2 * P2). assert (HX : 0 < X) by (unfold X; nia).
  assert (G : 0 < Pe * P2) by nia.
  assert (L1 : m1' * (N * Pe) * X <= u * X) by (apply Z.mul_le_mono_nonneg_r; lia).
  assert (L2 : u * X <= (m1' + 1) * (N * Pe) * X) by (apply Z.mul_le_mono_nonneg_r; lia).
  assert (L3 : m1' * N * m2 <= m').
  { apply Z.le_trans with (q * m2); [apply Z.mul_le_mono_nonneg_r; lia|exact Hq1]. }
  assert (L4 : m' < (m1' + 1) * N * m2).
  { apply Z.lt_le_trans with ((q + 1) * m2); [exact Hq2|].
    apply Z.mul_le_mono_nonneg_r; lia. }
  assert (L5 : m1' * N * m2 * (Pe * P2) <= m' * (Pe * P2))
    by (apply Z.mul_le_mono_nonneg_r; lia).
  assert (L6 : m' * (Pe * P2) < (m1' + 1) * N * m2 * (Pe * P2))
    by (apply Z.mul_lt_mono_pos_r; lia).
  replace (m1' * N * m2 * (Pe * P2)) with (m1' * (N * Pe) * X) in L5 by (unfold X; ring).
  replace ((m1' + 1) * N * m2 * (Pe * P2)) with ((m1' + 1) * (N * Pe) * X) in L6
    by (unfold X; ring).
  replace (m' * Pe * P2) with (m' * (Pe * P2)) by ring.
  replace (N * Pe * X) with ((m1' + 1) * (N * Pe) * X - m1' * (N * Pe) * X) by ring.
  lia.
Qed.

Lemma relative_error (u Us T D K : Z) :
  0 < Us -> 0 <= u -> 0 < K ->
  - (T * Us) <= D <= T * Us ->
  T = 1 \/ K * T <= u ->
  - (u * Us + K * Us) <= D * K <= u * Us + K * Us.
Proof.
  intros HUs Hu HK (H1 & H2) [->|HT].
  - nia.
  - assert (K * T * Us <= u * Us) by (apply Z.mul_le_mono_nonneg_r; lia). nia.
Qed.

(** A division of a number of [0, 1] by one of [1/2, 32]: the quotient is
    a number of the format within one unit in the last place. *)
Lemma div_faithful y s :
  Rounding.nonneg y = true -> Rounding.nonneg s = true ->
  F32.units y <= 2 ^ 149 -> 2 ^ 148 <= F32.units s <= 2 ^ 154 ->
  Rounding.nonneg (F32.div y s) = true
  /\ - (F32.units (F32.div y s) * F32.units s + 2 ^ 23 * F32.units s)
     <= (F32.units (F32.div y s) * F32.units s - F32.units y * 2 ^ 149) * 2 ^ 23
     <= F32.units (F32.div y s) * F32.units s + 2 ^ 23 * F32.units s.
Proof.
  intros Hy Hs HUy HUs.
  destruct s as [ss|ss| |ss m2 e2]; try discriminate;
    [simpl in HUs; change (2 ^ 148) with 356811923176489970264571492362373784095686656 in HUs; lia|].
  destruct (nonneg_exponent _ _ _ Hs) as (-> & V2 & E2).
  destruct y as [sy|sy| |sy m1 e1]; try discriminate.
  { (* a zero numerator *)
    change (F32.div (S754_zero sy) (S754_finite false m2 e2)) with (S754_zero (xorb sy false)).
    split; [reflexivity|]. cbn [F32.units] in *. lia. }
  destruct (nonneg_exponent _ _ _ Hy) as (-> & V1 & E1).
  cbn [F32.units cond_Zopp] in *.
  set (d1 := Zpos (digits2_pos m1)) in *. set (d2 := Zpos (digits2_pos m2)) in *.
  destruct (bounded_facts m1 e1 V1) as (_ & Hd1 & _).
  pose proof (digits2_bounds m1) as (Hlo1 & Hhi1). fold d1 in Hlo1, Hhi1.
  pose proof (digits2_bounds m2) as (Hlo2 & Hhi2). fold d2 in Hlo2, Hhi2.
  assert (Hd1pos : 0 < d1) by (unfold d1; lia).
  assert (Hd2pos : 0 < d2) by (unfold d2; lia).
  assert (P1 : 0 < 2 ^ (e1 + 149)) by (apply Z.pow_pos_nonneg; lia).
  assert (P2 : 0 < 2 ^ (e2 + 149)) by (apply Z.pow_pos_nonneg; lia).
  (* the magnitudes of the two operands *)
  assert (Hy1 : d1 + e1 <= 1).
  { assert (2 ^ (d1 - 1 + (e1 + 149)) <= 2 ^ 149).
    { rewrite Z.pow_add_r by lia. nia. }
    apply pow_le_inv in H; lia. }
  assert (Hs0 : 0 <= d2 + e2).
  { assert (2 ^ 148 < 2 ^ (d2 + (e2 + 149))).
    { rewrite Z.pow_add_r by lia. nia. }
    apply pow_lt_inv in H; lia. }
  assert (He2 : e2 <= 0).
  { destruct (bounded_facts m2 e2 V2) as (_ & _ & Hnorm). fold d2 in Hnorm.
    assert (2 ^ (d2 - 1 + (e2 + 149)) <= 2 ^ 154).
    { rewrite Z.pow_add_r by lia. nia. }
    apply pow_le_inv in H; lia. }
  destruct (div_core_spec m1 e1 m2 e2) as (l & Ecore). fold d1 d2 in Ecore.
  set (e' := Z.min (Z.max (d1 + e1 - (d2 + e2) - 24) (-149)) (e1 - e2)) in *.
  unfold F32.div, SFdiv. rewrite Ecore. cbn [xorb].
  set (sh := e1 - e2 - e') in *.
  assert (Hsh : 0 <= sh) by (unfold sh, e'; lia).
  assert (He' : -149 <= e') by (unfold e'; lia).
  assert (He'F : e' = Z.max (d1 + e1 - (d2 + e2) - 24) (-149)) by (unfold e'; lia).
  assert (Psh : 0 < 2 ^ sh) by (apply Z.pow_pos_nonneg; lia).
  clear Hy Hs.
  set (m' := Zpos m1 * 2 ^ sh) in *.
  set (q := m' / Zpos m2) in *.
  assert (Hq : 0 <= q) by (apply Z.div_pos; unfold m'; nia).
  assert (Hqlo : q * Zpos m2 <= m') by (unfold q; rewrite Z.mul_comm; apply Z.mul_div_le; lia).
  assert (Hqhi : m' < (q + 1) * Zpos m2).
  { unfold q. rewrite Z.mul_comm. 
    replace (m' / Zpos m2 + 1) with (Z.succ (m' / Zpos m2)) by lia.
    apply Z.mul_succ_div_gt. lia. }
  set (dq := Zdigits2 q).
  (* the quotient has enough digits for its exponent *)
  assert (Hle : e' <= Z.max (dq + e' - 24) (-149)).
  { destruct (Z.eq_dec e' (-149)); [lia|].
    assert (Esh : sh = 24 - d1 + d2) by (unfold sh; lia).
    assert (2 ^ 23 <= q).
    { apply Z.div_le_lower_bound; [lia|].
      assert (Zpos m2 * 2 ^ 23 <= 2 ^ d2 * 2 ^ 23) by nia.
      assert (2 ^ (d1 - 1) * 2 ^ sh <= m') by (unfold m'; nia).
      rewrite <- Z.pow_add_r in * by lia.
      replace (d1 - 1 + sh) with (d2 + 23) in * by lia. lia. }
    assert (24 <= dq).
    { unfold dq. pose proof (Zdigits2_bounds q ltac:(lia)) as (_ & Hhi).
      assert (2 ^ 23 < 2 ^ Zdigits2 q) by lia.
      apply pow_lt_inv in H0; [lia|].
      destruct q; simpl; lia. }
    lia. }
  (* and is small enough not to overflow *)
  assert (Hdq : dq + e' <= 2).
  { destruct (Z.eq_dec q 0) as [Eq0|Hq0].
    { unfold dq. rewrite Eq0. simpl. lia. }
    assert (Hm'hi : m' < 2 ^ (d1 + sh)).
    { rewrite Z.pow_add_r by lia. unfold m'. nia. }
    assert (Hk : 0 <= d1 + sh - d2 + 1).
    { assert (Zpos m2 <= m') by nia.
      assert (2 ^ (d2 - 1) < 2 ^ (d1 + sh)) by lia.
      apply pow_lt_inv in H0; lia. }
    assert (q < 2 ^ (d1 + sh - d2 + 1)).
    { apply Z.div_lt_upper_bound; [lia|].
      assert (2 ^ (d2 - 1) * 2 ^ (d1 + sh - d2 + 1) <= Zpos m2 * 2 ^ (d1 + sh - d2 + 1)).
      { apply Z.mul_le_mono_nonneg_r; [apply Z.pow_nonneg; lia|lia]. }
      rewrite <- Z.pow_add_r in H by lia.
      replace (d2 - 1 + (d1 + sh - d2 + 1)) with (d1 + sh) in H by lia. lia. }
    pose proof (digits_le q (d1 + sh - d2 + 1) ltac:(lia) ltac:(lia)).
    fold dq in H0. unfold sh in *. lia. }
  destruct (round_aux_faithful false q e' l Hq) as (u & Hr & Hu & Hn);
    fold dq; [exact Hle|lia|].
  fold dq in Hu, Hn.
  set (t := Z.max (dq + e' - 24) (-149)) in *.
  assert (Ht149 : -149 <= t) by (unfold t; apply Z.le_max_r).
  assert (Hte : 0 <= t - e') by (clear - Hle; lia).
  pose proof (div_bracket q (t - e') Hq Hte) as Hbr.
  assert (Pn : 0 < 2 ^ (t - e')) by (apply Z.pow_pos_nonneg; lia).
  assert (Pe' : 0 < 2 ^ (e' + 149)) by (apply Z.pow_pos_nonneg; clear - He'; lia).
  assert (E2t : 2 ^ (t + 149) = 2 ^ (t - e') * 2 ^ (e' + 149)).
  { rewrite <- Z.pow_add_r by (clear - Hte He'; lia). f_equal. clear. lia. }
  assert (EyA : Zpos m1 * 2 ^ (e1 + 149) * 2 ^ 149
                = m' * 2 ^ (e' + 149) * 2 ^ (e2 + 149)).
  { unfold m'. rewrite <- !Z.mul_assoc. f_equal.
    rewrite <- !Z.pow_add_r by (clear - Hsh He' E1 E2; lia).
    f_equal. unfold sh. clear. lia. }
  pose proof (quotient_error q m' (Zpos m2) (2 ^ (t - e')) (2 ^ (e' + 149))
                (2 ^ (e2 + 149)) (2 ^ (t + 149)) u (q / 2 ^ (t - e'))
                ltac:(clear; lia) Pn Pe' P2 E2t (conj Hqlo Hqhi) Hbr Hu) as Herr.
  rewrite <- EyA in Herr.
  assert (Hu0 : 0 <= u).
  { destruct Hu as (Hu1 & _). eapply Z.le_trans; [|exact Hu1].
    apply Z.mul_nonneg_nonneg; [apply Z.div_pos; [exact Hq|exact Pn]|].
    apply Z.pow_nonneg. clear. lia. }
  assert (HUs0 : 0 < Zpos m2 * 2 ^ (e2 + 149)) by (apply Z.mul_pos_pos; [clear; lia|exact P2]).
  assert (HT : 2 ^ (t + 149) = 1 \/ 2 ^ 23 * 2 ^ (t + 149) <= u).
  { destruct (Z.eq_dec t (-149)) as [E149|Hne].
    - left. rewrite E149. reflexivity.
    - right. apply Hn. clear - Ht149 Hne. lia. }
  pose proof (relative_error u (Zpos m2 * 2 ^ (e2 + 149)) (2 ^ (t + 149))
                (u * (Zpos m2 * 2 ^ (e2 + 149)) - Zpos m1 * 2 ^ (e1 + 149) * 2 ^ 149)
                (2 ^ 23) HUs0 Hu0 ltac:(clear; lia) Herr HT) as Hrel.
  destruct Hr as [(-> & ->)|(m3 & e3 & -> & -> & Hb)].
  - split; [reflexivity|]. exact Hrel.
  - split; [|exact Hrel].
    unfold Rounding.nonneg, F32.finite_valid. simpl. now rewrite Hb.
Qed.

Lemma shr_m_nonneg m l e n :
  0 <= m -> 0 <= shr_m (fst (shr (shr_record_of_loc m l) e n)).
Proof.
  intros Hm. destruct (Z.le_gt_cases n 0).
  - rewrite shr_nonpos by assumption. cbn [fst]. now rewrite shr_m_of_loc.
  - destruct (shr_spec m l e n Hm ltac:(lia)) as (mrs & E & Em).
    rewrite E. cbn [fst]. rewrite Em.
    apply Z.div_pos; [lia|apply Z.pow_pos_nonneg; lia].
Qed.

(** Rounding never turns a magnitude into a NaN, and keeps the sign. *)
Lemma round_aux_class s q e l :
  0 <= q ->
  match binary_round_aux F32.prec F32.emax s q e l with
  | S754_zero s' | S754_infinity s' | S754_finite s' _ _ => s' = s
  | S754_nan => False
  end.
Proof.
  intros Hq. unfold binary_round_aux, shr_fexp.
  pose proof (shr_m_nonneg q l e (fexp F32.prec F32.emax (Zdigits2 q + e) - e) Hq) as H1.
  destruct (shr (shr_record_of_loc q l) e _) as [mrs1 e1]. cbn [fst] in H1.
  pose proof (round_nearest_even_range (shr_m mrs1) (loc_of_shr_record mrs1)) as H2.
  set (m2 := round_nearest_even (shr_m mrs1) (loc_of_shr_record mrs1)) in *.
  pose proof (shr_m_nonneg m2 loc_Exact e1
                (fexp F32.prec F32.emax (Zdigits2 m2 + e1) - e1) ltac:(lia)) as H3.
  destruct (shr (shr_record_of_loc m2 loc_Exact) e1 _) as [mrs3 e3]. cbn [fst] in H3.
  destruct (shr_m mrs3) as [|p|p]; [reflexivity| |lia].
  destruct (e3 <=? _); reflexivity.
Qed.

Lemma binary_round_class s m e :
  match binary_round F32.prec F32.emax s m e with
  | S754_zero s' | S754_infinity s' | S754_finite s' _ _ => s' = s
  | S754_nan => False
  end.
Proof.
  unfold binary_round. destruct (shl_align m e _) as [mz ez].
  apply round_aux_class. lia.
Qed.

Lemma nonpos_pos_zero x : Rounding.nonpos (F32.pos_zero x) = Rounding.nonpos x.
Proof. destruct x; reflexivity. Qed.

(** A finite number minus one that is not smaller is zero, negative or
    minus infinity. *)
Lemma sub_nonpos x m :
  F32.finite_valid x = true -> F32.finite_valid m = true ->
  F32.units x <= F32.units m ->
  Rounding.nonpos (F32.sub x m) = true.
Proof.
  intros Fx Fm Hle.
  rewrite <- nonpos_pos_zero, (sub_units x m Fx Fm), nonpos_pos_zero.
  unfold F32.ldexp.
  destruct (F32.units x - F32.units m) as [|p|p] eqn:ED; [reflexivity|lia|].
  cbn [binary_normalize].
  pose proof (binary_round_class true p (-149)) as Hc.
  destruct (binary_round F32.prec F32.emax true p (-149)); try reflexivity; try contradiction;
    now subst.
Qed.

Lemma sub_self m : F32.is_finite m = true -> F32.sub m m = F32.zero.
Proof.
  destruct m as [[|]|s| |s mm e]; try discriminate; try reflexivity.
  intros _. unfold F32.sub, SFsub. cbv zeta. rewrite Z.sub_diag. reflexivity.
Qed.

Lemma units_one : F32.units F32.one = 2 ^ 149.
Proof. reflexivity. Qed.

(** Ten numbers of [0, 1], one of them 1, summed from the left and each
    divided by the sum. *)
Lemma distribution_bound (e0 e1 e2 e3 e4 e5 e6 e7 e8 e9 : float32) :
  Rounding.unit_value e0 -> Rounding.unit_value e1 ->
  Rounding.unit_value e2 -> Rounding.unit_value e3 ->
  Rounding.unit_value e4 -> Rounding.unit_value e5 ->
  Rounding.unit_value e6 -> Rounding.unit_value e7 ->
  Rounding.unit_value e8 -> Rounding.unit_value e9 ->
  2 ^ 149 <= F32.units e0 + F32.units e1 + F32.units e2 + F32.units e3
             + F32.units e4 + F32.units e5 + F32.units e6 + F32.units e7
             + F32.units e8 + F32.units e9 ->
  let s := fold_left F32.add [e0; e1; e2; e3; e4; e5; e6; e7; e8; e9] F32.zero in
  let p := (fun ei => F32.div ei s) <$> [e0; e1; e2; e3; e4; e5; e6; e7; e8; e9] in
  Forall (fun v => Rounding.nonneg v = true) p
  /\ - 2 ^ 149 <= (foldr (fun v acc => F32.units v + acc) 0 p - 2 ^ 149) * 100000
     <= 2 ^ 149.
Proof.
  intros (N0 & H0) (N1 & H1) (N2 & H2) (N3 & H3) (N4 & H4) (N5 & H5) (N6 & H6)
         (N7 & H7) (N8 & H8) (N9 & H9) Hsum.
  pose proof (nonneg_units _ N0). pose proof (nonneg_units _ N1).
  pose proof (nonneg_units _ N2). pose proof (nonneg_units _ N3).
  pose proof (nonneg_units _ N4). pose proof (nonneg_units _ N5).
  pose proof (nonneg_units _ N6). pose proof (nonneg_units _ N7).
  pose proof (nonneg_units _ N8). pose proof (nonneg_units _ N9).
  cbn [fold_left fmap list_fmap foldr]. cbv zeta.
  assert (Nz : Rounding.nonneg F32.zero = true) by reflexivity.
  assert (Uz : F32.units F32.zero = 0) by reflexivity.
  change (2 ^ 149) with 713623846352979940529142984724747568191373312 in *.
  destruct (add_faithful F32.zero e0 Nz N0) as (M1 & B1);
    [change (2 ^ 154) with 22835963083295358096932575511191922182123945984; lia|].
  rewrite Uz in B1. set (s1 := F32.add F32.zero e0) in *.
  destruct (add_faithful s1 e1 M1 N1) as (M2 & B2);
    [change (2 ^ 154) with 22835963083295358096932575511191922182123945984;
     change (2 ^ 23) with 8388608 in *; lia|].
  set (s2 := F32.add s1 e1) in *.
  destruct (add_faithful s2 e2 M2 N2) as (M3 & B3);
    [change (2 ^ 154) with 22835963083295358096932575511191922182123945984;
     change (2 ^ 23) with 8388608 in *; lia|].
  set (s3 := F32.add s2 e2) in *.
  destruct (add_faithful s3 e3 M3 N3) as (M4 & B4);
    [change (2 ^ 154) with 22835963083295358096932575511191922182123945984;
     change (2 ^ 23) with 8388608 in *; lia|].
  set (s4 := F32.add s3 e3) in *.
  destruct (add_faithful s4 e4 M4 N4) as (M5 & B5);
    [change (2 ^ 154) with 22835963083295358096932575511191922182123945984;
     change (2 ^ 23) with 8388608 in *; lia|].
  set (s5 := F32.add s4 e4) in *.
  destruct (add_faithful s5 e5 M5 N5) as (M6 & B6);
    [change (2 ^ 154) with 22835963083295358096932575511191922182123945984;
     change (2 ^ 23) with 8388608 in *; lia|].
  set (s6 := F32.add s5 e5) in *.
  destruct (add_faithful s6 e6 M6 N6) as (M7 & B7);
    [change (2 ^ 154) with 22835963083295358096932575511191922182123945984;
     change (2 ^ 23) with 8388608 in *; lia|].
  set (s7 := F32.add s6 e6) in *.
  destruct (add_faithful s7 e7 M7 N7) as (M8 & B8);
    [change (2 ^ 154) with 22835963083295358096932575511191922182123945984;
     change (2 ^ 23) with 8388608 in *; lia|].
  set (s8 := F32.add s7 e7) in *.
  destruct (add_faithful s8 e8 M8 N8) as (M9 & B9);
    [change (2 ^ 154) with 22835963083295358096932575511191922182123945984;
     change (2 ^ 23) with 8388608 in *; lia|].
  set (s9 := F32.add s8 e8) in *.
  destruct (add_faithful s9 e9 M9 N9) as (M10 & B10);
    [change (2 ^ 154) with 22835963083295358096932575511191922182123945984;
     change (2 ^ 23) with 8388608 in *; lia|].
  set (s := F32.add s9 e9) in *.
  change (2 ^ 23) with 8388608 in *.
  assert (Hs : 356811923176489970264571492362373784095686656 <= F32.units s
               <= 22835963083295358096932575511191922182123945984) by lia.
  assert (Hdiv : forall e, Rounding.nonneg e = true ->
            F32.units e <= 713623846352979940529142984724747568191373312 ->
            Rounding.nonneg (F32.div e s) = true
            /\ - (F32.units (F32.div e s) * F32.units s + 8388608 * F32.units s)
               <= (F32.units (F32.div e s) * F32.units s
                   - F32.units e * 713623846352979940529142984724747568191373312) * 8388608
               <= F32.units (F32.div e s) * F32.units s + 8388608 * F32.units s).
  { intros e Ne He. apply div_faithful; assumption. }
  destruct (Hdiv e0 N0 H0) as (P0 & D0). destruct (Hdiv e1 N1 H1) as (P1 & D1).
  destruct (Hdiv e2 N2 H2) as (P2 & D2). destruct (Hdiv e3 N3 H3) as (P3 & D3).
  destruct (Hdiv e4 N4 H4) as (P4 & D4). destruct (Hdiv e5 N5 H5) as (P5 & D5).
  destruct (Hdiv e6 N6 H6) as (P6 & D6). destruct (Hdiv e7 N7 H7) as (P7 & D7).
  destruct (Hdiv e8 N8 H8) as (P8 & D8). destruct (Hdiv e9 N9 H9) as (P9 & D9).
  split; [repeat constructor; assumption|].
  clear Hdiv.
  set (p0 := F32.units (F32.div e0 s)) in *. set (p1 := F32.units (F32.div e1 s)) in *.
  set (p2 := F32.units (F32.div e2 s)) in *. set (p3 := F32.units (F32.div e3 s)) in *.
  set (p4 := F32.units (F32.div e4 s)) in *. set (p5 := F32.units (F32.div e5 s)) in *.
  set (p6 := F32.units (F32.div e6 s)) in *. set (p7 := F32.units (F32.div e7 s)) in *.
  set (p8 := F32.units (F32.div e8 s)) in *. set (p9 := F32.units (F32.div e9 s)) in *.
  set (us := F32.units s) in *.
  assert (Hus : 0 < us) by lia.
  assert (HW : - (713623846352979940529142984724747568191373312 * us)
               <= ((p0 * us + p1 * us + p2 * us + p3 * us + p4 * us + p5 * us
                    + p6 * us + p7 * us + p8 * us + p9 * us)
                   - 713623846352979940529142984724747568191373312 * us) * 100000
               <= 713623846352979940529142984724747568191373312 * us) by lia.
  replace (p0 * us + p1 * us + p2 * us + p3 * us + p4 * us + p5 * us
           + p6 * us + p7 * us + p8 * us + p9 * us)
    with ((p0 + (p1 + (p2 + (p3 + (p4 + (p5 + (p6 + (p7 + (p8 + (p9 + 0)))))))))) * us)
    in HW by ring.
  set (P := p0 + (p1 + (p2 + (p3 + (p4 + (p5 + (p6 + (p7 + (p8 + (p9 + 0)))))))))) in *.
  clearbody P. clear - HW Hus. nia.
Qed.

(** ** The softmax output as a probability vector *)

Lemma probability_unit v : Rounding.probability v = true -> Rounding.unit_value v.
Proof.
  unfold Rounding.probability, Rounding.unit_value, Rounding.nonneg. rewrite !andb_true_iff.
  intros ((Hv & H0) & H1). split.
  - split; [exact Hv|].
    destruct v as [s|s| |[|] m e]; try reflexivity; discriminate H0.
  - destruct v as [s|s| |[|] m e];
      try discriminate Hv; try discriminate H0; try discriminate H1.
    + change (F32.units (S754_zero s)) with 0. apply Z.pow_nonneg. lia.
    + unfold F32.finite_valid in Hv. cbn [F32.is_finite F32.valid valid_binary andb] in Hv.
      unfold F32.leb, SFleb, F32.one in H1. cbn [SFcompare] in H1.
      change (F32.units (S754_finite false m e)) with (Zpos m * 2 ^ (e + 149)).
      destruct (Z.compare_spec e (-23)) as [->|Hlt|Hgt].
      * change (Pos.compare_cont Eq) with Pos.compare in H1.
        change (2 ^ (-23 + 149)) with (2 ^ 126).
        change (2 ^ 149) with (8388608 * 2 ^ 126).
        apply Z.mul_le_mono_nonneg_r; [apply Z.pow_nonneg; lia|].
        assert (Hm : (m <= 8388608)%positive).
        { unfold Pos.le. intros E. rewrite E in H1. discriminate H1. }
        exact (Pos2Z.pos_le_pos _ _ Hm).
      * apply Z.lt_le_incl.
        change (2 ^ 149) with (Zpos 8388608 * 2 ^ (-23 + 149)).
        apply canonical_lt; [exact Hv|reflexivity|exact Hlt].
      * discriminate H1.
Qed.

Lemma nonneg_leb v : Rounding.nonneg v = true -> F32.leb F32.zero v = true.
Proof.
  unfold Rounding.nonneg. rewrite andb_true_iff. intros (Hv & Hs).
  destruct v as [s|s| |[|] m e]; try discriminate; reflexivity.
Qed.

Lemma nonneg_finite_valid v : Rounding.nonneg v = true -> F32.finite_valid v = true.
Proof. unfold Rounding.nonneg. rewrite andb_true_iff. tauto. Qed.

(** The value of a finite number is its number of units times [2^-149]. *)
Lemma to_Q_units v :
  F32.finite_valid v = true ->
  (F32.to_Q v == inject_Z (F32.units v) / inject_Z (2 ^ 149))%Q.
Proof.
  unfold F32.finite_valid. rewrite andb_true_iff. intros (Hf & Hv).
  destruct v as [s|s| |s m e]; try discriminate.
  - simpl. reflexivity.
  - simpl in Hv. destruct (bounded_facts m e Hv) as (He & _).
    unfold F32.to_Q, F32.units. rewrite units_scale by exact He.
    rewrite inject_Z_mult.
    rewrite (Zpower_Qpower 2 (e + 149)) by lia.
    rewrite (Zpower_Qpower 2 149) by lia.
    change (inject_Z 2) with (2 # 1)%Q.
    rewrite Qpower_plus by discriminate.
    field.
Qed.

Lemma total_to_units p :
  Forall (fun v => F32.finite_valid v = true) p ->
  (Distribution.total p == inject_Z (Distribution.total_units p) / inject_Z (2 ^ 149))%Q.
Proof.
  induction 1 as [|v p Hv Hp IH]; simpl.
  - reflexivity.
  - rewrite IH, (to_Q_units v Hv), inject_Z_plus. field.
    discriminate.
Qed.

Lemma total_units_lookup (p : list float32) k v :
  Forall (fun a => 0 <= F32.units a) p ->
  p !! k = Some v -> F32.units v <= Distribution.total_units p.
Proof.
  unfold Distribution.total_units.
  intros Hp. revert k. induction Hp as [|a p Ha Hp IH]; intros k Hk; [discriminate|].
  cbv beta in Ha.
  assert (0 <= foldr (fun v acc => F32.units v + acc) 0 p).
  { clear IH Hk. induction Hp as [|b q Hb Hq IHq]; cbn [foldr]; [lia|].
    cbv beta in Hb. lia. }
  destruct k as [|k]; cbn [foldr]; simpl in Hk.
  - injection Hk as ->. lia.
  - specialize (IH k Hk). lia.
Qed.

(** The greatest logit is one of the logits and no logit exceeds it. *)
Lemma maximum_greatest (logits : list float32) :
  logits <> [] ->
  Forall (fun a => F32.finite_valid a = true) logits ->
  logits !! Decision.max_element logits = Some (Decision.maximum logits)
  /\ F32.finite_valid (Decision.maximum logits) = true
  /\ Forall (fun a => F32.units a <= F32.units (Decision.maximum logits)) logits.
Proof.
  intros Hne Hfin.
  assert (Hm : logits !! Decision.max_element logits = Some (Decision.maximum logits)).
  { destruct logits as [|x rest]; [congruence|]. apply max_element_value. }
  assert (Fm : F32.finite_valid (Decision.maximum logits) = true).
  { rewrite Forall_lookup in Hfin. exact (Hfin _ _ Hm). }
  split; [exact Hm|]. split; [exact Fm|].
  assert (Hnan : Forall (fun a => F32.is_nan a = false) logits).
  { eapply Forall_impl; [exact Hfin|]. intros a Ha.
    destruct a; try reflexivity; discriminate. }
  destruct (max_element_first logits Hne Hnan) as (pi & Hpi & Hge & _).
  rewrite Hm in Hpi. injection Hpi as <-.
  rewrite Forall_lookup. intros j a Ha.
  specialize (Hge j a Ha).
  rewrite Forall_lookup in Hfin.
  pose proof (ltb_units _ _ Fm (Hfin _ _ Ha)) as Hiff.
  destruct (Z.le_gt_cases (F32.units a) (F32.units (Decision.maximum logits)))
    as [Hle|Hgt]; [exact Hle|].
  apply Hiff in Hgt. congruence.
Qed.

Lemma expf_sat_ok : Distribution.exp_ok Distribution.expf_sat.
Proof.
  split; [reflexivity|].
  intros t Ht. unfold Distribution.expf_sat. rewrite Ht.
  destruct (Rounding.probability (ExpRef.expf t)) eqn:E; [exact E|reflexivity].
Qed.

(** On ten finite logits the probabilities are finite numbers that are not
    negative, and their exact sum is within 1e-5 of 1. *)
Lemma softmax_reference_total (expf : float32 -> float32) (logits : list float32) :
  Distribution.exp_ok expf ->
  length logits = 10%nat ->
  Forall (fun a => F32.finite_valid a = true) logits ->
  Forall (fun v => Rounding.nonneg v = true) (Decision.softmax_reference expf logits)
  /\ (Qabs (Distribution.total (Decision.softmax_reference expf logits) - 1)
      <= 1 # 100000)%Q.
Proof.
  intros (Hexp0 & Hexp) Hlen Hfin.
  assert (Hne : logits <> []) by (intros ->; discriminate).
  destruct (maximum_greatest logits Hne Hfin) as (Hm & Fm & Hle).
  unfold Decision.softmax_reference. cbv zeta.
  set (m := Decision.maximum logits) in *.
  set (f := fun xi => expf (F32.sub xi m)).
  assert (Hunit : Forall Rounding.unit_value (f <$> logits)).
  { rewrite Forall_fmap. rewrite Forall_lookup in Hfin, Hle |- *.
    intros i x Hx. simpl. unfold f. apply probability_unit, Hexp, sub_nonpos; eauto. }
  assert (Hone : 2 ^ 149 <= Distribution.total_units (f <$> logits)).
  { rewrite <- units_one.
    apply total_units_lookup with (k := Decision.max_element logits).
    - eapply Forall_impl; [exact Hunit|]. intros a (Ha & _). now apply nonneg_units.
    - rewrite list_lookup_fmap, Hm. simpl. unfold f.
      rewrite sub_self, Hexp0; [reflexivity|].
      unfold F32.finite_valid in Fm. apply andb_true_iff in Fm. tauto. }
  clearbody f m.
  destruct logits as [|x0 [|x1 [|x2 [|x3 [|x4 [|x5 [|x6 [|x7 [|x8 [|x9 [|]]]]]]]]]]];
    try discriminate.
  cbn [fmap list_fmap] in *.
  repeat match goal with
         | H : Forall _ (_ :: _) |- _ => apply Forall_cons in H; destruct H as (? & H)
         end.
  unfold Distribution.total_units in Hone. cbn [foldr] in Hone.
  destruct (distribution_bound (f x0) (f x1) (f x2) (f x3) (f x4) (f x5) (f x6)
              (f x7) (f x8) (f x9)) as (Hnn & Hsum); try assumption; [lia|].
  cbv zeta in Hnn, Hsum. cbn [fmap list_fmap] in Hnn, Hsum.
  set (s := fold_left F32.add _ F32.zero) in *.
  split; [exact Hnn|].
  rewrite total_to_units
    by (eapply Forall_impl; [exact Hnn|]; intros v Hv; now apply nonneg_finite_valid).
  fold (Distribution.total_units [F32.div (f x0) s; F32.div (f x1) s; F32.div (f x2) s;
                     F32.div (f x3) s; F32.div (f x4) s; F32.div (f x5) s;
                     F32.div (f x6) s; F32.div (f x7) s; F32.div (f x8) s;
                     F32.div (f x9) s]) in Hsum.
  set (T := Distribution.total_units _) in *. clearbody T.
  apply Qabs_Qle_condition.
  change (2 ^ 149) with 713623846352979940529142984724747568191373312 in *.
  unfold Qle, Qminus, Qplus, Qopp, Qdiv, Qmult, Qinv, inject_Z; simpl.
  lia.
Qed.

(** The exact value of a finite number that is not negative. *)
Lemma nonneg_to_Q v : Rounding.nonneg v = true -> (0 <= F32.to_Q v)%Q.
Proof.
  intros Hv. rewrite (to_Q_units v (nonneg_finite_valid v Hv)).
  pose proof (nonneg_units v Hv) as Hu.
  unfold Qle, Qdiv, Qmult, Qinv, inject_Z. simpl. lia.
Qed.

(** X7. For an exp that returns 1 at 0 and a number of [0, 1] at every
    non-positive argument: on ten finite logits the softmax returns ten
    finite probabilities, none below zero, whose exact sum is within 1e-5
    of 1. *)
Theorem softmax_distribution (expf : float32 -> float32)
    (logits : list float32) :
  Distribution.exp_ok expf ->
  length logits = 10%nat ->
  Forall (fun a => F32.finite_valid a = true) logits ->
  exists p,
    Decision.softmax expf logits = Some p
    /\ length p = 10%nat
    /\ Forall (fun v => F32.finite_valid v = true /\ F32.leb F32.zero v = true) p
    /\ (Qabs (Distribution.total p - 1) <= 1 # 100000)%Q.
Proof.
  intros Hexp Hlen Hfin.
  assert (Hne : logits <> []) by (intros ->; discriminate).
  exists (Decision.softmax_reference expf logits).
  split; [rewrite softmax_run; destruct logits; [congruence|reflexivity]|].
  split; [now rewrite softmax_reference_length|].
  destruct (softmax_reference_total expf logits Hexp Hlen Hfin) as (Hnn & Hsum).
  split; [|exact Hsum].
  eapply Forall_impl; [exact Hnn|]. intros v Hv.
  split; [now apply nonneg_finite_valid|now apply nonneg_leb].
Qed.

Lemma softmax_distribution_witness :
  exists p,
    Decision.softmax Distribution.expf_sat
      [F32.zero; F32.of_int 1; F32.of_int (-1); F32.of_int 3; F32.ldexp 1 (-1);
       F32.zero; F32.of_int 2; S754_zero true; F32.ldexp (-1) (-1); F32.zero]
    = Some p
    /\ length p = 10%nat
    /\ Forall (fun v => F32.finite_valid v = true /\ F32.leb F32.zero v = true) p
    /\ (Qabs (Distribution.total p - 1) <= 1 # 100000)%Q.
Proof.
  apply (softmax_distribution Distribution.expf_sat).
  - exact expf_sat_ok.
  - reflexivity.
  - repeat constructor.
Defined.

(** C4. For every finite 10-element logit vector, the probability vector
    produced by softmax has every entry >= 0 and its entries sum to 1.0
    within 1e-5: for an exp that returns 1 at 0 and a number of [[0, 1]] at
    every non-positive argument, what Run's tail leaves in [results_] is
    ten finite numbers, each with an exact value of at least 0, whose exact
    sum lies between 1 - 1e-5 and 1 + 1e-5. *)
Theorem softmax_sums_to_one (expf : float32 -> float32)
    (logits : list float32) :
  Distribution.exp_ok expf ->
  length logits = 10%nat ->
  Forall (fun a => F32.finite_valid a = true) logits ->
  exists p cls,
    Decision.predict expf logits = Some (p, cls)
    /\ Decision.softmax expf logits = Some p
    /\ length p = 10%nat
    /\ Forall (fun v => F32.is_finite v = true /\ (0 <= F32.to_Q v)%Q) p
    /\ (1 - (1 # 100000) <= Distribution.total p)%Q
    /\ (Distribution.total p <= 1 + (1 # 100000))%Q.
Proof.
  intros Hexp Hlen Hfin.
  assert (Hne : logits <> []) by (intros ->; discriminate).
  exists (Decision.softmax_reference expf logits).
  eexists.
  split; [apply predict_run; [exact Hne|rewrite Hlen; unfold Int.max_signed; lia]|].
  split; [rewrite softmax_run; destruct logits; [congruence|reflexivity]|].
  split; [now rewrite softmax_reference_length|].
  destruct (softmax_reference_total expf logits Hexp Hlen Hfin) as (Hnn & Hsum).
  split.
  - eapply Forall_impl; [exact Hnn|]. intros v Hv. split; [|now apply nonneg_to_Q].
    apply nonneg_finite_valid in Hv. unfold F32.finite_valid in Hv.
    apply andb_true_iff in Hv. tauto.
  - apply Qabs_Qle_condition in Hsum. destruct Hsum as (Hlo & Hhi).
    set (T := Distribution.total _) in *. clearbody T.
    split.
    + apply (Qplus_le_l _ _ (- (1))). ring_simplify.
      ring_simplify in Hlo. exact Hlo.
    + apply (Qplus_le_l _ _ (- (1))). ring_simplify.
      ring_simplify in Hhi. exact Hhi.
Qed.

Lemma softmax_sums_to_one_witness :
  exists p cls,
    Decision.predict Distribution.expf_sat
      [F32.of_int 2; F32.zero; F32.of_int (-3); F32.ldexp 5 (-2); F32.of_int 1;
       F32.of_int 2; S754_zero true; F32.of_int (-1); F32.ldexp (-3) (-1); F32.zero]
    = Some (p, cls)
    /\ Decision.softmax Distribution.expf_sat
      [F32.of_int 2; F32.zero; F32.of_int (-3); F32.ldexp 5 (-2); F32.of_int 1;
       F32.of_int 2; S754_zero true; F32.of_int (-1); F32.ldexp (-3) (-1); F32.zero]
    = Some p
    /\ length p = 10%nat
    /\ Forall (fun v => F32.is_finite v = true /\ (0 <= F32.to_Q v)%Q) p
    /\ (1 - (1 # 100000) <= Distribution.total p)%Q
    /\ (Distribution.total p <= 1 + (1 # 100000))%Q.
Proof.
  apply (softmax_sums_to_one Distribution.expf_sat).
  - exact expf_sat_ok.
  - reflexivity.
  - repeat constructor.
Defined.

(** ** Rounding to nearest even is monotone *)

Lemma new_location_located (m2 q r : Z) :
  0 < m2 -> 0 <= r < m2 ->
  Nearest.located (q * m2 + r) m2 q (new_location m2 r).
Proof.
  intros Hm2 Hr. unfold Nearest.located. split; [lia|].
  unfold new_location. destruct (Z.even m2) eqn:Ev.
  - unfold new_location_even. destruct (Z.eqb_spec r 0) as [->|Hne]; [lia|].
    destruct (Z.compare_spec (2 * r) m2); lia.
  - unfold new_location_odd. destruct (Z.eqb_spec r 0) as [->|Hne]; [lia|].
    assert (Hodd : Z.odd m2 = true) by (rewrite <- Z.negb_even, Ev; reflexivity).
    apply Z.odd_spec in Hodd as (k & Hk).
    destruct (Z.compare_spec (2 * r + 1) m2); lia.
Qed.

Lemma loc_of_record_of_loc m l :
  loc_of_shr_record (shr_record_of_loc m l) = l.
Proof. destruct l as [|[]]; reflexivity. Qed.

Lemma shr_1_record mrs :
  0 <= shr_m mrs ->
  shr_1 mrs = {| shr_m := shr_m mrs / 2; shr_r := Z.odd (shr_m mrs);
                 shr_s := shr_r mrs || shr_s mrs |}.
Proof.
  destruct mrs as [m r s]. cbn [shr_m shr_r shr_s]. intros Hm.
  destruct m as [|[p|p|]|p]; cbn [shr_1]; [reflexivity| | |reflexivity|exfalso; lia].
  - f_equal. rewrite Pos2Z.inj_xI. apply Z.div_unique with (r := 1); lia.
  - f_equal. rewrite Pos2Z.inj_xO. apply Z.div_unique with (r := 0); lia.
Qed.

(** One shift to the right: the mantissa is halved, the interval doubled. *)
Lemma located_half num den h (b r s : bool) :
  0 < den ->
  Nearest.located num den (2 * h + Z.b2z b)
    (loc_of_shr_record {| shr_m := 2 * h + Z.b2z b; shr_r := r; shr_s := s |}) ->
  Nearest.located num (2 * den) h
    (loc_of_shr_record {| shr_m := h; shr_r := b; shr_s := r || s |}).
Proof.
  intros Hden. unfold Nearest.located.
  set (X := h * den).
  replace (h * (2 * den)) with (2 * X) by (unfold X; ring).
  replace ((h + 1) * (2 * den)) with (2 * X + 2 * den) by (unfold X; ring).
  replace ((2 * h + Z.b2z b) * den) with (2 * X + Z.b2z b * den) by (unfold X; ring).
  replace ((2 * h + Z.b2z b + 1) * den) with (2 * X + Z.b2z b * den + den)
    by (unfold X; ring).
  clearbody X.
  destruct b, r, s; cbn [loc_of_shr_record orb Z.b2z];
    rewrite ?Z.mul_1_l, ?Z.mul_0_l; intros (Hb & Hl); lia.
Qed.

Lemma shr_1_located num den mrs :
  0 < den -> 0 <= shr_m mrs ->
  Nearest.located num den (shr_m mrs) (loc_of_shr_record mrs) ->
  Nearest.located num (2 * den) (shr_m (shr_1 mrs)) (loc_of_shr_record (shr_1 mrs)).
Proof.
  intros Hden Hm Hl. rewrite (shr_1_record mrs Hm). cbn [shr_m].
  destruct mrs as [m r s]. cbn [shr_m shr_r shr_s] in *.
  apply located_half; [exact Hden|].
  replace (2 * (m / 2) + Z.b2z (Z.odd m)) with m; [exact Hl|].
  rewrite (Z.div_mod m 2) at 1 by lia. f_equal.
  rewrite Zmod_odd. destruct (Z.odd m); reflexivity.
Qed.

Lemma shr_iter_located num den n : forall mrs,
  0 < den -> 0 <= shr_m mrs ->
  Nearest.located num den (shr_m mrs) (loc_of_shr_record mrs) ->
  Nearest.located num (den * 2 ^ Zpos n)
    (shr_m (Pos.iter shr_1 mrs n)) (loc_of_shr_record (Pos.iter shr_1 mrs n)).
Proof.
  induction n using Pos.peano_ind; intros mrs Hden Hm Hl.
  - simpl Pos.iter. change (2 ^ 1) with 2. rewrite Z.mul_comm.
    now apply shr_1_located.
  - rewrite Pos.iter_succ, Pos2Z.inj_succ, Z.pow_succ_r by lia.
    replace (den * (2 * 2 ^ Zpos n)) with (2 * (den * 2 ^ Zpos n)) by ring.
    apply shr_1_located.
    + apply Z.mul_pos_pos; [exact Hden|apply Z.pow_pos_nonneg; lia].
    + rewrite shr_m_iter by exact Hm. apply Z.div_pos; [exact Hm|].
      apply Z.pow_pos_nonneg; lia.
    + now apply IHn.
Qed.

(** A shift by [n >= 0] bits keeps track of where the exact value lies. *)
Lemma shr_located num den m l e n :
  0 < den -> 0 <= m -> 0 <= n ->
  Nearest.located num den m l ->
  exists mrs,
    shr (shr_record_of_loc m l) e n = (mrs, e + n)
    /\ shr_m mrs = m / 2 ^ n
    /\ Nearest.located num (den * 2 ^ n) (shr_m mrs) (loc_of_shr_record mrs).
Proof.
  intros Hden Hm Hn Hl. unfold shr. destruct n as [|n|n]; [| |lia].
  - exists (shr_record_of_loc m l).
    rewrite Z.add_0_r, shr_m_of_loc, loc_of_record_of_loc, Z.div_1_r, Z.mul_1_r.
    auto.
  - exists (Pos.iter shr_1 (shr_record_of_loc m l) n).
    rewrite iter_pos_iter. split; [reflexivity|].
    split; [rewrite shr_m_iter; rewrite shr_m_of_loc; auto|].
    apply shr_iter_located; rewrite ?shr_m_of_loc, ?loc_of_record_of_loc; assumption.
Qed.

Lemma located_scale k num den a l :
  0 < k -> Nearest.located num den a l ->
  Nearest.located (k * num) (k * den) a l.
Proof.
  unfold Nearest.located. intros Hk (Hb & Hl).
  split; [nia|]. destruct l as [|[]]; nia.
Qed.

(** Of two values on the same grid, the greater is not rounded below the
    smaller. *)
Lemma round_nearest_even_monotone num1 num2 den a1 a2 l1 l2 :
  0 < den -> num1 <= num2 ->
  Nearest.located num1 den a1 l1 -> Nearest.located num2 den a2 l2 ->
  round_nearest_even a1 l1 <= round_nearest_even a2 l2.
Proof.
  intros Hden Hle (Hb1 & Hl1) (Hb2 & Hl2).
  pose proof (round_nearest_even_range a1 l1) as R1.
  pose proof (round_nearest_even_range a2 l2) as R2.
  assert (Ha : a1 <= a2) by nia.
  destruct (Z.eq_dec a1 a2) as [<-|Hne]; [|lia].
  destruct l1 as [|[]], l2 as [|[]]; cbn [round_nearest_even] in *;
    try destruct (Z.even a1); nia.
Qed.

(** Rounding a mantissa [q >= 0] whose shift to the target exponent [t]
    left [mrs1]: the result is the mantissa of [mrs1], rounded to nearest
    even, at the exponent [t]. *)
Lemma round_aux_value (q e : Z) (l : location) (mrs1 : shr_record) :
  0 <= q ->
  let t := Z.max (Zdigits2 q + e - 24) (-149) in
  e <= t -> t <= 103 ->
  shr (shr_record_of_loc q l) e (t - e) = (mrs1, e + (t - e)) ->
  shr_m mrs1 = q / 2 ^ (t - e) ->
  F32.units (binary_round_aux F32.prec F32.emax false q e l)
  = round_nearest_even (shr_m mrs1) (loc_of_shr_record mrs1) * 2 ^ (t + 149)
  /\ Rounding.nonneg (binary_round_aux F32.prec F32.emax false q e l) = true
  /\ 0 <= shr_m mrs1 < 2 ^ 24
  /\ (-149 < t -> 2 ^ 23 <= shr_m mrs1).
Proof.
  intros Hq t Het Ht E1 Hm1.
  assert (Hnn : Rounding.nonneg (binary_round_aux F32.prec F32.emax false q e l) = true).
  { destruct (round_aux_faithful false q e l Hq Het Ht)
      as (u & [(-> & _)|(m3 & e3 & -> & _ & Hb)] & _); [reflexivity|].
    unfold Rounding.nonneg, F32.finite_valid. simpl. now rewrite Hb. }
  revert Hnn. generalize (Rounding.nonneg (binary_round_aux F32.prec F32.emax false q e l)).
  intros nn Hnn.
  assert (Ht149 : -149 <= t) by (unfold t; lia).
  assert (Hpow : 0 < 2 ^ (t + 149)) by (apply Z.pow_pos_nonneg; lia).
  assert (Hpn : 0 < 2 ^ (t - e)) by (apply Z.pow_pos_nonneg; lia).
  unfold binary_round_aux, shr_fexp. rewrite fexp_eq. fold t.
  rewrite E1. replace (e + (t - e)) with t by lia.
  pose proof (round_nearest_even_range (shr_m mrs1) (loc_of_shr_record mrs1)) as Hm2.
  set (m2 := round_nearest_even (shr_m mrs1) (loc_of_shr_record mrs1)) in *.
  rewrite Hm1 in *.
  set (m1 := q / 2 ^ (t - e)) in *.
  assert (Hm1_lo : 0 <= m1) by (apply Z.div_pos; lia).
  assert (Hm1_hi : m1 < 2 ^ 24).
  { destruct (Z.eq_dec q 0) as [->|Hq0]; [unfold m1; rewrite Z.div_0_l by lia; lia|].
    pose proof (Zdigits2_bounds q ltac:(lia)) as (_ & Hhi).
    apply Z.div_lt_upper_bound; [lia|].
    rewrite <- Z.pow_add_r by lia.
    eapply Z.lt_le_trans; [exact Hhi|]. apply Z.pow_le_mono_r; lia. }
  assert (Hnormal : -149 < t -> 2 ^ 23 <= m1).
  { intros Hn.
    assert (Et : t = Zdigits2 q + e - 24) by (unfold t in *; lia).
    assert (Hq0 : 0 < q).
    { destruct (Z.eq_dec q 0) as [->|]; [simpl in Et; lia|lia]. }
    pose proof (Zdigits2_bounds q Hq0) as (Hlo & _).
    apply Z.div_le_lower_bound; [lia|].
    rewrite <- Z.pow_add_r by lia.
    replace (t - e + 23) with (Zdigits2 q - 1) by lia. exact Hlo. }
  rewrite fexp_eq.
  assert (Hcases : m2 = 0 \/ 0 < m2 < 2 ^ 24 \/ m2 = 2 ^ 24) by lia.
  split; [|split; [|split; [lia|exact Hnormal]]].
  - destruct Hcases as [E0|[Hmid|E24]].
    + rewrite E0. change (Zdigits2 0) with 0.
      rewrite shr_nonpos by lia. cbn [shr_m shr_record_of_loc]. reflexivity.
    + pose proof (Zdigits2_bounds m2 ltac:(lia)) as (Hlo2 & Hhi2).
      assert (Hd2 : Zdigits2 m2 <= 24).
      { destruct (Z.le_gt_cases (Zdigits2 m2) 24); [assumption|].
        assert (2 ^ 24 <= 2 ^ (Zdigits2 m2 - 1)) by (apply Z.pow_le_mono_r; lia).
        lia. }
      rewrite shr_nonpos by lia. cbn [shr_m shr_record_of_loc].
      destruct m2 as [|p|p] eqn:Ep; try lia.
      assert (Hle : (t <=? F32.emax - F32.prec) = true)
        by (apply Z.leb_le; unfold F32.emax, F32.prec; lia).
      rewrite Hle. reflexivity.
    + rewrite E24. change (Zdigits2 (2 ^ 24)) with 25.
      replace (Z.max (25 + t - 24) (-149) - t) with 1 by lia.
      cbn [shr shr_record_of_loc SpecFloat.iter_pos].
      change (shr_m (shr_1 {| shr_m := 2 ^ 24; shr_r := false; shr_s := false |}))
        with (Zpos 8388608).
      cbv iota.
      assert (Hle : (t + 1 <=? F32.emax - F32.prec) = true)
        by (apply Z.leb_le; unfold F32.emax, F32.prec; lia).
      rewrite Hle. cbn [F32.units cond_Zopp].
      replace (t + 1 + 149) with (Z.succ (t + 149)) by lia.
      rewrite Z.pow_succ_r by lia.
      change (2 ^ 24) with (2 * 8388608). ring.
  - exact Hnn.
Qed.

(** The quotient of two positive numbers, the first at most 1 and the
    second in [1/2, 32]: the exact quotient, located on the grid of the
    target exponent [t], rounded to nearest even. *)
Lemma div_located (m1 : positive) (e1 : Z) (m2 : positive) (e2 : Z) :
  bounded F32.prec F32.emax m1 e1 = true ->
  bounded F32.prec F32.emax m2 e2 = true ->
  Zpos m1 * 2 ^ (e1 + 149) <= 2 ^ 149 ->
  2 ^ 148 <= Zpos m2 * 2 ^ (e2 + 149) <= 2 ^ 154 ->
  exists t a l,
    -149 <= t
    /\ Nearest.located (Zpos m1 * 2 ^ (e1 + 149) * 2 ^ 149)
         (Zpos m2 * 2 ^ (e2 + 149) * 2 ^ (t + 149)) a l
    /\ F32.units (F32.div (S754_finite false m1 e1) (S754_finite false m2 e2))
       = round_nearest_even a l * 2 ^ (t + 149)
    /\ 0 <= a < 2 ^ 24
    /\ (-149 < t -> 2 ^ 23 <= a).
Proof.
  intros V1 V2 HUy HUs.
  destruct (bounded_facts m1 e1 V1) as (E1 & Hd1 & _).
  destruct (bounded_facts m2 e2 V2) as (E2 & _ & Hnorm2).
  set (d1 := Zpos (digits2_pos m1)) in *. set (d2 := Zpos (digits2_pos m2)) in *.
  pose proof (digits2_bounds m1) as (Hlo1 & Hhi1). fold d1 in Hlo1, Hhi1.
  pose proof (digits2_bounds m2) as (Hlo2 & Hhi2). fold d2 in Hlo2, Hhi2.
  assert (Hd1pos : 0 < d1) by (unfold d1; lia).
  assert (Hd2pos : 0 < d2) by (unfold d2; lia).
  assert (P1 : 0 < 2 ^ (e1 + 149)) by (apply Z.pow_pos_nonneg; lia).
  assert (P2 : 0 < 2 ^ (e2 + 149)) by (apply Z.pow_pos_nonneg; lia).
  assert (Hy1 : d1 + e1 <= 1).
  { assert (2 ^ (d1 - 1 + (e1 + 149)) <= 2 ^ 149).
    { rewrite Z.pow_add_r by lia. nia. }
    apply pow_le_inv in H; lia. }
  assert (Hs0 : 0 <= d2 + e2).
  { assert (2 ^ 148 < 2 ^ (d2 + (e2 + 149))).
    { rewrite Z.pow_add_r by lia. nia. }
    apply pow_lt_inv in H; lia. }
  assert (He2 : e2 <= 0).
  { assert (2 ^ (d2 - 1 + (e2 + 149)) <= 2 ^ 154).
    { rewrite Z.pow_add_r by lia. nia. }
    apply pow_le_inv in H; lia. }
  set (e' := Z.min (Z.max (d1 + e1 - (d2 + e2) - 24) (-149)) (e1 - e2)).
  set (sh := e1 - e2 - e').
  assert (Hsh : 0 <= sh) by (unfold sh, e'; lia).
  assert (He' : -149 <= e') by (unfold e'; lia).
  assert (He'F : e' = Z.max (d1 + e1 - (d2 + e2) - 24) (-149)) by (unfold e'; lia).
  assert (Psh : 0 < 2 ^ sh) by (apply Z.pow_pos_nonneg; lia).
  set (m' := Zpos m1 * 2 ^ sh).
  (* the division in integers, with its remainder *)
  assert (Ecore : exists q r,
             SFdiv_core_binary F32.prec F32.emax (Zpos m1) e1 (Zpos m2) e2
             = (q, e', new_location (Zpos m2) r)
             /\ m' = q * Zpos m2 + r /\ 0 <= r < Zpos m2 /\ q = m' / Zpos m2).
  { unfold SFdiv_core_binary. rewrite fexp_eq. cbn [Zdigits2].
    fold d1 d2 e' sh.
    assert (Em : match sh with
                 | 0 => Zpos m1
                 | Zpos _ => Z.shiftl (Zpos m1) sh
                 | Zneg _ => 0
                 end = m').
    { unfold m'. destruct sh as [|p|p] eqn:Es; [lia| |lia].
      now rewrite Z.shiftl_mul_pow2. }
    rewrite Em.
    pose proof (Z_div_mod m' (Zpos m2) ltac:(lia)) as Hdm.
    destruct (Z.div_eucl m' (Zpos m2)) as [q r] eqn:Ed.
    exists q, r. split; [reflexivity|]. destruct Hdm as (Hdm & Hr).
    split; [lia|]. split; [lia|].
    unfold Z.div. now rewrite Ed. }
  destruct Ecore as (q & r & Ecore & Hqr & Hr & Eq).
  assert (Hm'0 : 0 < m') by (unfold m'; nia).
  assert (Hq : 0 <= q) by (rewrite Eq; apply Z.div_pos; lia).
  assert (Hqlo : q * Zpos m2 <= m') by lia.
  assert (Hqhi : m' < (q + 1) * Zpos m2) by lia.
  set (dq := Zdigits2 q).
  assert (Hle : e' <= Z.max (dq + e' - 24) (-149)).
  { destruct (Z.eq_dec e' (-149)); [lia|].
    assert (Esh : sh = 24 - d1 + d2) by (unfold sh; lia).
    assert (2 ^ 23 <= q).
    { rewrite Eq. apply Z.div_le_lower_bound; [lia|].
      assert (Zpos m2 * 2 ^ 23 <= 2 ^ d2 * 2 ^ 23) by nia.
      assert (2 ^ (d1 - 1) * 2 ^ sh <= m') by (unfold m'; nia).
      rewrite <- Z.pow_add_r in * by lia.
      replace (d1 - 1 + sh) with (d2 + 23) in * by lia. lia. }
    assert (24 <= dq).
    { unfold dq. pose proof (Zdigits2_bounds q ltac:(lia)) as (_ & Hhi).
      assert (2 ^ 23 < 2 ^ Zdigits2 q) by lia.
      apply pow_lt_inv in H0; [lia|].
      destruct q; simpl; lia. }
    lia. }
  assert (Hdq : dq + e' <= 2).
  { destruct (Z.eq_dec q 0) as [Eq0|Hq0].
    { unfold dq. rewrite Eq0. simpl. lia. }
    assert (Hm'hi : m' < 2 ^ (d1 + sh)).
    { rewrite Z.pow_add_r by lia. unfold m'. nia. }
    assert (Hk : 0 <= d1 + sh - d2 + 1).
    { assert (Zpos m2 <= m') by nia.
      assert (2 ^ (d2 - 1) < 2 ^ (d1 + sh)) by lia.
      apply pow_lt_inv in H0; lia. }
    assert (q < 2 ^ (d1 + sh - d2 + 1)).
    { rewrite Eq. apply Z.div_lt_upper_bound; [lia|].
      assert (2 ^ (d2 - 1) * 2 ^ (d1 + sh - d2 + 1) <= Zpos m2 * 2 ^ (d1 + sh - d2 + 1)).
      { apply Z.mul_le_mono_nonneg_r; [apply Z.pow_nonneg; lia|lia]. }
      rewrite <- Z.pow_add_r in H by lia.
      replace (d2 - 1 + (d1 + sh - d2 + 1)) with (d1 + sh) in H by lia. lia. }
    pose proof (digits_le q (d1 + sh - d2 + 1) ltac:(lia) ltac:(lia)).
    fold dq in H0. unfold sh in *. lia. }
  set (t := Z.max (dq + e' - 24) (-149)) in *.
  assert (Ht149 : -149 <= t) by (unfold t; apply Z.le_max_r).
  assert (Ht103 : t <= 103) by (unfold t; clear - Hdq; lia).
  assert (Hte : 0 <= t - e') by (clear - Hle; lia).
  pose proof (new_location_located (Zpos m2) q r ltac:(lia) Hr) as Hloc.
  rewrite <- Hqr in Hloc.
  destruct (shr_located m' (Zpos m2) q (new_location (Zpos m2) r) e' (t - e')
              ltac:(lia) Hq Hte Hloc) as (mrs1 & Eshr & Em1 & Hloc1).
  destruct (round_aux_value q e' (new_location (Zpos m2) r) mrs1 Hq Hle Ht103 Eshr Em1)
    as (Eu & _ & Ha & Hn).
  exists t, (shr_m mrs1), (loc_of_shr_record mrs1).
  split; [exact Ht149|]. split; [|split; [|split; [exact Ha|exact Hn]]].
  - (* the same location on the scale of the units *)
    apply (located_scale (2 ^ (e2 + e' + 298))) in Hloc1;
      [|apply Z.pow_pos_nonneg; clear - E2 He'; lia].
    replace (Zpos m1 * 2 ^ (e1 + 149) * 2 ^ 149) with (2 ^ (e2 + e' + 298) * m').
    + replace (Zpos m2 * 2 ^ (e2 + 149) * 2 ^ (t + 149))
        with (2 ^ (e2 + e' + 298) * (Zpos m2 * 2 ^ (t - e'))); [exact Hloc1|].
      rewrite (Z.mul_comm (2 ^ (e2 + e' + 298))), <- !Z.mul_assoc. f_equal.
      rewrite <- !Z.pow_add_r by (clear - E2 He' Hte Ht149; lia).
      f_equal. clear. lia.
    + unfold m'. rewrite (Z.mul_comm (2 ^ (e2 + e' + 298))), <- !Z.mul_assoc. f_equal.
      rewrite <- !Z.pow_add_r by (clear - E1 E2 He' Hsh; lia).
      f_equal. unfold sh. clear. lia.
  - unfold F32.div, SFdiv. rewrite Ecore. cbn [xorb]. exact Eu.
Qed.

Lemma grid_below (a1 a2 P1 P2 r1 : Z) :
  0 < P1 -> 2 * P1 <= P2 -> r1 <= 2 ^ 24 -> 2 ^ 23 <= a2 ->
  r1 * P1 <= a2 * P2.
Proof.
  change (2 ^ 24) with 16777216. change (2 ^ 23) with 8388608.
  intros HP1 HP H1 H2.
  assert (r1 * P1 <= 16777216 * P1) by (apply Z.mul_le_mono_nonneg_r; lia).
  assert (8388608 * P2 <= a2 * P2) by (apply Z.mul_le_mono_nonneg_r; lia).
  lia.
Qed.

Lemma grid_above (a1 a2 P1 P2 S N1 N2 : Z) :
  0 < S -> 0 < P2 -> 2 * P2 <= P1 -> 2 ^ 23 <= a1 -> a2 < 2 ^ 24 ->
  a1 * (S * P1) <= N1 -> N2 < (a2 + 1) * (S * P2) -> N1 <= N2 -> False.
Proof.
  change (2 ^ 24) with 16777216. change (2 ^ 23) with 8388608.
  intros HS HP2 HP H1 H2 HN1 HN2 Hle.
  assert (0 < S * P2) by (apply Z.mul_pos_pos; assumption).
  assert (2 * (S * P2) <= S * P1) by nia.
  assert (8388608 * (S * P1) <= a1 * (S * P1))
    by (apply Z.mul_le_mono_nonneg_r; lia).
  assert ((a2 + 1) * (S * P2) <= 16777216 * (S * P2))
    by (apply Z.mul_le_mono_nonneg_r; lia).
  lia.
Qed.

(** Division by a fixed number of [1/2, 32] is monotone on [0, 1]: the
    quotients are rounded to nearest, and a greater exact quotient is not
    rounded below a smaller one. *)
Lemma div_monotone (y1 y2 s : float32) :
  Rounding.nonneg y1 = true -> Rounding.nonneg y2 = true ->
  Rounding.nonneg s = true ->
  F32.units y1 <= F32.units y2 -> F32.units y2 <= 2 ^ 149 ->
  2 ^ 148 <= F32.units s <= 2 ^ 154 ->
  F32.units (F32.div y1 s) <= F32.units (F32.div y2 s).
Proof.
  intros Hy1 Hy2 Hs Hle HU2 HUs.
  assert (HU1 : F32.units y1 <= 2 ^ 149) by lia.
  destruct (div_faithful y2 s Hy2 Hs HU2 HUs) as (Hn2 & _).
  pose proof (nonneg_units _ Hn2) as Hp2.
  destruct s as [ss|ss| |ss m e]; try discriminate;
    [simpl in HUs; change (2 ^ 148) with 356811923176489970264571492362373784095686656 in HUs; lia|].
  destruct (nonneg_exponent _ _ _ Hs) as (-> & Vs & Es).
  destruct y1 as [s1|s1| |s1 m1 e1]; try discriminate.
  { change (F32.div (S754_zero s1) (S754_finite false m e)) with (S754_zero (xorb s1 false)).
    exact Hp2. }
  destruct (nonneg_exponent _ _ _ Hy1) as (-> & V1 & E1).
  assert (Hpos1 : 0 < F32.units (S754_finite false m1 e1)).
  { cbn [F32.units cond_Zopp]. apply Z.mul_pos_pos; [lia|apply Z.pow_pos_nonneg; lia]. }
  destruct y2 as [s2|s2| |s2 m2 e2]; try discriminate;
    [cbn [F32.units cond_Zopp] in Hle, Hpos1; lia|].
  destruct (nonneg_exponent _ _ _ Hy2) as (-> & V2 & E2).
  cbn [F32.units cond_Zopp] in HU1, HU2, HUs, Hle.
  destruct (div_located m1 e1 m e V1 Vs HU1 HUs) as (t1 & a1 & l1 & Ht1 & L1 & -> & Ha1 & Hn1).
  destruct (div_located m2 e2 m e V2 Vs HU2 HUs) as (t2 & a2 & l2 & Ht2 & L2 & -> & Ha2 & Hn2').
  set (S := Zpos m * 2 ^ (e + 149)) in *.
  assert (HS : 0 < S) by (unfold S; apply Z.mul_pos_pos; [lia|apply Z.pow_pos_nonneg; lia]).
  set (N1 := Zpos m1 * 2 ^ (e1 + 149) * 2 ^ 149) in *.
  set (N2 := Zpos m2 * 2 ^ (e2 + 149) * 2 ^ 149) in *.
  assert (HN : N1 <= N2).
  { unfold N1, N2. apply Z.mul_le_mono_nonneg_r; [apply Z.pow_nonneg; lia|exact Hle]. }
  assert (HP1 : 0 < 2 ^ (t1 + 149)) by (apply Z.pow_pos_nonneg; lia).
  assert (HP2 : 0 < 2 ^ (t2 + 149)) by (apply Z.pow_pos_nonneg; lia).
  pose proof (round_nearest_even_range a1 l1) as R1.
  pose proof (round_nearest_even_range a2 l2) as R2.
  clearbody S N1 N2. clear Hle HU1 HU2 HUs Hpos1 Hn2 Hp2 Hy1 Hy2 Hs V1 V2 Vs.
  destruct (Z.lt_trichotomy t1 t2) as [Hlt|[->|Hgt]].
  - (* the smaller quotient is one binade below *)
    assert (HP : 2 * 2 ^ (t1 + 149) <= 2 ^ (t2 + 149)).
    { rewrite <- Z.pow_succ_r by lia. apply Z.pow_le_mono_r; lia. }
    assert (Hr1 : round_nearest_even a1 l1 <= 2 ^ 24) by lia.
    assert (H23 : 2 ^ 23 <= a2) by (apply Hn2'; lia).
    eapply Z.le_trans;
      [exact (grid_below a1 a2 _ _ (round_nearest_even a1 l1) HP1 HP Hr1 H23)|].
    apply Z.mul_le_mono_nonneg_r; lia.
  - apply Z.mul_le_mono_nonneg_r; [lia|].
    apply (round_nearest_even_monotone N1 N2 (S * 2 ^ (t2 + 149))); try assumption.
    apply Z.mul_pos_pos; assumption.
  - exfalso.
    assert (HP : 2 * 2 ^ (t2 + 149) <= 2 ^ (t1 + 149)).
    { rewrite <- Z.pow_succ_r by lia. apply Z.pow_le_mono_r; lia. }
    destruct L1 as ((L1 & _) & _), L2 as ((_ & L2) & _).
    assert (H23 : 2 ^ 23 <= a1) by (apply Hn1; lia).
    assert (H24 : a2 < 2 ^ 24) by lia.
    exact (grid_above a1 a2 _ _ S N1 N2 HS HP2 HP H23 H24 L1 L2 HN).
Qed.

(** ** The probabilities and the greatest logit *)

(** Ten numbers of [0, 1], one of them 1, summed from the left: the sum is
    a number of [1/2, 32]. *)
Lemma sum_range (e0 e1 e2 e3 e4 e5 e6 e7 e8 e9 : float32) :
  Rounding.unit_value e0 -> Rounding.unit_value e1 ->
  Rounding.unit_value e2 -> Rounding.unit_value e3 ->
  Rounding.unit_value e4 -> Rounding.unit_value e5 ->
  Rounding.unit_value e6 -> Rounding.unit_value e7 ->
  Rounding.unit_value e8 -> Rounding.unit_value e9 ->
  2 ^ 149 <= F32.units e0 + F32.units e1 + F32.units e2 + F32.units e3
             + F32.units e4 + F32.units e5 + F32.units e6 + F32.units e7
             + F32.units e8 + F32.units e9 ->
  let s := fold_left F32.add [e0; e1; e2; e3; e4; e5; e6; e7; e8; e9] F32.zero in
  Rounding.nonneg s = true /\ 2 ^ 148 <= F32.units s <= 2 ^ 154.
Proof.
  intros (N0 & H0) (N1 & H1) (N2 & H2) (N3 & H3) (N4 & H4) (N5 & H5) (N6 & H6)
         (N7 & H7) (N8 & H8) (N9 & H9) Hsum.
  pose proof (nonneg_units _ N0). pose proof (nonneg_units _ N1).
  pose proof (nonneg_units _ N2). pose proof (nonneg_units _ N3).
  pose proof (nonneg_units _ N4). pose proof (nonneg_units _ N5).
  pose proof (nonneg_units _ N6). pose proof (nonneg_units _ N7).
  pose proof (nonneg_units _ N8). pose proof (nonneg_units _ N9).
  cbn [fold_left]. cbv zeta.
  assert (Nz : Rounding.nonneg F32.zero = true) by reflexivity.
  assert (Uz : F32.units F32.zero = 0) by reflexivity.
  change (2 ^ 149) with 713623846352979940529142984724747568191373312 in *.
  change (2 ^ 148) with 356811923176489970264571492362373784095686656.
  destruct (add_faithful F32.zero e0 Nz N0) as (M1 & B1);
    [change (2 ^ 154) with 22835963083295358096932575511191922182123945984; lia|].
  rewrite Uz in B1. set (s1 := F32.add F32.zero e0) in *.
  destruct (add_faithful s1 e1 M1 N1) as (M2 & B2);
    [change (2 ^ 154) with 22835963083295358096932575511191922182123945984;
     change (2 ^ 23) with 8388608 in *; lia|].
  set (s2 := F32.add s1 e1) in *.
  destruct (add_faithful s2 e2 M2 N2) as (M3 & B3);
    [change (2 ^ 154) with 22835963083295358096932575511191922182123945984;
     change (2 ^ 23) with 8388608 in *; lia|].
  set (s3 := F32.add s2 e2) in *.
  destruct (add_faithful s3 e3 M3 N3) as (M4 & B4);
    [change (2 ^ 154) with 22835963083295358096932575511191922182123945984;
     change (2 ^ 23) with 8388608 in *; lia|].
  set (s4 := F32.add s3 e3) in *.
  destruct (add_faithful s4 e4 M4 N4) as (M5 & B5);
    [change (2 ^ 154) with 22835963083295358096932575511191922182123945984;
     change (2 ^ 23) with 8388608 in *; lia|].
  set (s5 := F32.add s4 e4) in *.
  destruct (add_faithful s5 e5 M5 N5) as (M6 & B6);
    [change (2 ^ 154) with 22835963083295358096932575511191922182123945984;
     change (2 ^ 23) with 8388608 in *; lia|].
  set (s6 := F32.add s5 e5) in *.
  destruct (add_faithful s6 e6 M6 N6) as (M7 & B7);
    [change (2 ^ 154) with 22835963083295358096932575511191922182123945984;
     change (2 ^ 23) with 8388608 in *; lia|].
  set (s7 := F32.add s6 e6) in *.
  destruct (add_faithful s7 e7 M7 N7) as (M8 & B8);
    [change (2 ^ 154) with 22835963083295358096932575511191922182123945984;
     change (2 ^ 23) with 8388608 in *; lia|].
  set (s8 := F32.add s7 e7) in *.
  destruct (add_faithful s8 e8 M8 N8) as (M9 & B9);
    [change (2 ^ 154) with 22835963083295358096932575511191922182123945984;
     change (2 ^ 23) with 8388608 in *; lia|].
  set (s9 := F32.add s8 e8) in *.
  destruct (add_faithful s9 e9 M9 N9) as (M10 & B10);
    [change (2 ^ 154) with 22835963083295358096932575511191922182123945984;
     change (2 ^ 23) with 8388608 in *; lia|].
  set (s := F32.add s9 e9) in *.
  change (2 ^ 23) with 8388608 in *.
  change (2 ^ 154) with 22835963083295358096932575511191922182123945984.
  split; [exact M10|]. lia.
Qed.

(** On ten finite logits every probability is a finite number that is not
    negative, and none exceeds the one at the position of the greatest
    logit, the quotient of 1 by the sum. *)
Lemma softmax_argmax (expf : float32 -> float32) (logits : list float32) :
  Distribution.exp_ok expf ->
  length logits = 10%nat ->
  Forall (fun a => F32.finite_valid a = true) logits ->
  exists pk,
    Decision.softmax_reference expf logits !! Decision.max_element logits = Some pk
    /\ Forall (fun v => Rounding.nonneg v = true /\ F32.units v <= F32.units pk)
              (Decision.softmax_reference expf logits).
Proof.
  intros (Hexp0 & Hexp) Hlen Hfin.
  assert (Hne : logits <> []) by (intros ->; discriminate).
  destruct (maximum_greatest logits Hne Hfin) as (Hm & Fm & Hle).
  unfold Decision.softmax_reference. cbv zeta.
  set (m := Decision.maximum logits) in *.
  set (f := fun xi => expf (F32.sub xi m)).
  assert (Hunit : Forall Rounding.unit_value (f <$> logits)).
  { rewrite Forall_fmap. rewrite Forall_lookup in Hfin, Hle |- *.
    intros i x Hx. simpl. unfold f. apply probability_unit, Hexp, sub_nonpos; eauto. }
  assert (Hk : (f <$> logits) !! Decision.max_element logits = Some F32.one).
  { rewrite list_lookup_fmap, Hm. simpl. unfold f.
    rewrite sub_self, Hexp0; [reflexivity|].
    unfold F32.finite_valid in Fm. apply andb_true_iff in Fm. tauto. }
  assert (Hone : 2 ^ 149 <= Distribution.total_units (f <$> logits)).
  { rewrite <- units_one.
    apply total_units_lookup with (k := Decision.max_element logits); [|exact Hk].
    eapply Forall_impl; [exact Hunit|]. intros a (Ha & _). now apply nonneg_units. }
  set (s := fold_left F32.add (f <$> logits) F32.zero).
  assert (Hs : Rounding.nonneg s = true /\ 2 ^ 148 <= F32.units s <= 2 ^ 154).
  { unfold s. clear Hk. clearbody f m.
    destruct logits as [|x0 [|x1 [|x2 [|x3 [|x4 [|x5 [|x6 [|x7 [|x8 [|x9 [|]]]]]]]]]]];
      try discriminate.
    cbn [fmap list_fmap] in *.
    repeat match goal with
           | H : Forall _ (_ :: _) |- _ => apply Forall_cons in H; destruct H as (? & H)
           end.
    unfold Distribution.total_units in Hone. cbn [foldr] in Hone.
    apply sum_range; try assumption. lia. }
  destruct Hs as (Ns & Us).
  exists (F32.div F32.one s). split.
  - rewrite list_lookup_fmap, Hk. reflexivity.
  - rewrite Forall_fmap. eapply Forall_impl; [exact Hunit|].
    intros e (Ne & Ue). simpl. split.
    + now apply div_faithful.
    + apply (div_monotone e F32.one s); try assumption; try reflexivity;
        rewrite units_one; lia.
Qed.

(** On ten finite logits no probability is NaN, and none exceeds the one at
    the position of the greatest logit. *)
Lemma softmax_greatest (expf : float32 -> float32) (logits : list float32) :
  Distribution.exp_ok expf ->
  length logits = 10%nat ->
  Forall (fun a => F32.finite_valid a = true) logits ->
  Forall (fun v => F32.finite_valid v = true) (Decision.softmax_reference expf logits)
  /\ exists pk,
       Decision.softmax_reference expf logits !! Decision.max_element logits = Some pk
       /\ forall j pj, Decision.softmax_reference expf logits !! j = Some pj ->
                       F32.ltb pk pj = false.
Proof.
  intros Hexp Hlen Hfin.
  destruct (softmax_argmax expf logits Hexp Hlen Hfin) as (pk & Hk & Hall).
  assert (Hval : Forall (fun v => F32.finite_valid v = true)
                        (Decision.softmax_reference expf logits)).
  { eapply Forall_impl; [exact Hall|]. intros v (Hv & _).
    now apply nonneg_finite_valid. }
  split; [exact Hval|]. exists pk. split; [exact Hk|].
  intros j pj Hj. rewrite Forall_lookup in Hall, Hval.
  destruct (Hall j pj Hj) as (_ & Hle).
  destruct (F32.ltb pk pj) eqn:E; [|reflexivity].
  apply (ltb_units pk pj (Hval _ _ Hk) (Hval _ _ Hj)) in E. lia.
Qed.

Lemma finite_valid_not_nan (l : list float32) :
  Forall (fun v => F32.finite_valid v = true) l ->
  Forall (fun v => F32.is_nan v = false) l.
Proof.
  intros H. eapply Forall_impl; [exact H|].
  intros a Ha. destruct a; try reflexivity; discriminate.
Qed.

(** ** The class returned by Run *)

(** C5. The predicted class is the position of the greatest probability,
    the first one when several are equal.  Run's tail returns the list [p]
    that softmax leaves in [results_], which is the reference softmax of the
    logits, together with [max_element p] as an [int] of [[0, 10)].  For an
    exp that returns 1 at 0 and a number of [[0, 1]] at every non-positive
    argument and for finite logits, no entry of [p] is NaN, the entry at the
    returned position is exceeded by none, and every earlier entry is
    strictly below it.  Ten equal logits, such as [0,0,0,0,0,0,0,0,0,0],
    yield class 0, whatever exp returns. *)
Theorem predict_first_maximum (expf : float32 -> float32)
    (logits : list float32) :
  length logits = 10%nat ->
  exists p cls,
    Decision.softmax expf logits = Some p
    /\ p = Decision.softmax_reference expf logits
    /\ Decision.predict expf logits = Some (p, cls)
    /\ length p = 10%nat
    /\ cls = Z.of_nat (Decision.max_element p)
    /\ 0 <= cls < 10
    /\ (Distribution.exp_ok expf ->
        Forall (fun a => F32.finite_valid a = true) logits ->
        Forall (fun v => F32.is_nan v = false) p
        /\ Decision.first_maximum p (Z.to_nat cls))
    /\ (forall c, logits = replicate 10 c -> cls = 0).
Proof.
  intros Hlen.
  assert (Hne : logits <> []) by (intros ->; discriminate).
  set (p := Decision.softmax_reference expf logits).
  assert (Hp : length p = 10%nat)
    by (unfold p; now rewrite softmax_reference_length).
  assert (Hpne : p <> []) by (intros E; rewrite E in Hp; discriminate).
  exists p, (Z.of_nat (Decision.max_element p)).
  split; [rewrite softmax_run; destruct logits; [congruence|reflexivity]|].
  split; [reflexivity|].
  split; [apply predict_run; [exact Hne|rewrite Hlen; unfold Int.max_signed; lia]|].
  split; [exact Hp|]. split; [reflexivity|].
  pose proof (max_element_bound p Hpne) as Hb. rewrite Hp in Hb.
  split; [lia|]. split.
  - intros Hexp Hfin.
    destruct (softmax_greatest expf logits Hexp Hlen Hfin) as (Hval & _).
    apply finite_valid_not_nan in Hval. fold p in Hval.
    split; [exact Hval|]. rewrite Nat2Z.id. now apply max_element_first.
  - intros c ->. unfold p, Decision.softmax_reference.
    rewrite !fmap_replicate, max_element_const. reflexivity.
Qed.

Lemma predict_first_maximum_witness :
  exists p cls,
    Decision.predict Distribution.expf_sat
      [F32.zero; F32.of_int 3; F32.of_int (-1); F32.of_int 3; F32.zero;
       F32.ldexp 1 (-1); F32.of_int 2; F32.zero; F32.of_int 1; F32.zero]
    = Some (p, cls)
    /\ cls = 1
    /\ Forall (fun v => F32.is_nan v = false) p
    /\ Decision.first_maximum p (Z.to_nat cls).
Proof.
  destruct (predict_first_maximum Distribution.expf_sat
              [F32.zero; F32.of_int 3; F32.of_int (-1); F32.of_int 3; F32.zero;
               F32.ldexp 1 (-1); F32.of_int 2; F32.zero; F32.of_int 1; F32.zero]
              eq_refl)
    as (p & cls & _ & _ & Hrun & _ & _ & _ & Hfirst & _).
  exists p, cls. split; [exact Hrun|]. split.
  - assert (Hc : snd <$> Decision.predict Distribution.expf_sat
              [F32.zero; F32.of_int 3; F32.of_int (-1); F32.of_int 3; F32.zero;
               F32.ldexp 1 (-1); F32.of_int 2; F32.zero; F32.of_int 1; F32.zero]
            = Some 1) by (vm_compute; reflexivity).
    rewrite Hrun in Hc. now injection Hc.
  - apply Hfirst; [exact expf_sat_ok|repeat constructor].
Defined.

(** C10 (as amended). For an exp that returns 1 at 0 and a number of
    [[0, 1]] at every non-positive argument, and for ten finite logits:
    the position of the left-to-right argmax of the raw logits holds a
    probability that no other exceeds; the class returned by Run's tail is
    the first position holding that greatest probability, so it is never
    after the raw argmax; and it is the raw argmax itself exactly when every
    probability before the raw argmax is strictly smaller (always when the
    raw argmax is position 0). *)
Theorem predict_raw_argmax (expf : float32 -> float32)
    (logits : list float32) :
  Distribution.exp_ok expf ->
  length logits = 10%nat ->
  Forall (fun a => F32.finite_valid a = true) logits ->
  exists p cls pk,
    Decision.softmax expf logits = Some p
    /\ Decision.predict expf logits = Some (p, cls)
    /\ p !! Decision.max_element logits = Some pk
    /\ (forall j pj, p !! j = Some pj -> F32.ltb pk pj = false)
    /\ Decision.first_maximum p (Z.to_nat cls)
    /\ (exists pc, p !! Z.to_nat cls = Some pc
                   /\ F32.ltb pc pk = false /\ F32.ltb pk pc = false)
    /\ (Z.to_nat cls <= Decision.max_element logits)%nat
    /\ (cls = Z.of_nat (Decision.max_element logits)
        <-> forall j pj, (j < Decision.max_element logits)%nat ->
                         p !! j = Some pj -> F32.ltb pj pk = true).
Proof.
  intros Hexp Hlen Hfin.
  assert (Hne : logits <> []) by (intros ->; discriminate).
  destruct (softmax_greatest expf logits Hexp Hlen Hfin) as (Hval & pk & Hk & Hmax).
  set (p := Decision.softmax_reference expf logits) in *.
  assert (Hp : length p = 10%nat)
    by (unfold p; now rewrite softmax_reference_length).
  assert (Hpne : p <> []) by (intros E; rewrite E in Hp; discriminate).
  pose proof (max_element_first p Hpne (finite_valid_not_nan p Hval)) as Hfirst.
  set (k := Decision.max_element logits) in *.
  set (c := Decision.max_element p) in *.
  exists p, (Z.of_nat c), pk.
  split; [rewrite softmax_run; destruct logits; [congruence|reflexivity]|].
  split; [apply predict_run; [exact Hne|rewrite Hlen; unfold Int.max_signed; lia]|].
  split; [exact Hk|]. split; [exact Hmax|].
  rewrite Nat2Z.id. split; [exact Hfirst|].
  destruct Hfirst as (pc & Hc & Hge & Hbefore).
  assert (Hck : (c <= k)%nat).
  { destruct (le_lt_dec c k) as [Hle|Hlt]; [exact Hle|].
    pose proof (Hbefore k pk Hlt Hk) as H1.
    pose proof (Hmax c pc Hc) as H2. congruence. }
  split; [exists pc; split; [exact Hc|]; split; [exact (Hge k pk Hk)|exact (Hmax c pc Hc)]|].
  split; [exact Hck|]. split.
  - intros E. apply Nat2Z.inj in E. intros j pj Hj Hpj.
    rewrite <- E in Hj. rewrite <- E, Hc in Hk. injection Hk as <-.
    exact (Hbefore j pj Hj Hpj).
  - intros Hall. f_equal.
    destruct (decide (c = k)) as [E|Hneq]; [exact E|].
    assert (Hlt : (c < k)%nat) by lia.
    pose proof (Hall c pc Hlt Hc) as H1.
    pose proof (Hge k pk Hk) as H2. congruence.
Qed.

Lemma predict_raw_argmax_witness :
  let logits :=
    [F32.zero; F32.of_int 3; F32.of_int (-1); F32.of_int 3; F32.zero;
     F32.ldexp 1 (-1); F32.of_int 2; F32.zero; F32.of_int 1; F32.zero] in
  Decision.max_element logits = 1%nat
  /\ exists p cls pk,
    Decision.predict Distribution.expf_sat logits = Some (p, cls)
    /\ p !! 1%nat = Some pk
    /\ (forall j pj, p !! j = Some pj -> F32.ltb pk pj = false)
    /\ (Z.to_nat cls <= 1)%nat.
Proof.
  intros logits. split; [reflexivity|].
  destruct (predict_raw_argmax Distribution.expf_sat logits expf_sat_ok eq_refl)
    as (p & cls & pk & _ & Hrun & Hk & Hmax & _ & _ & Hle & _).
  - repeat constructor.
  - exists p, cls, pk. repeat split; assumption.
Defined.

(** Whatever exp returns 1.0f on 0 and on -2^-30 merges the logits 0 and
    2^-30 into equal probabilities. *)
Lemma predict_merges (expf : float32 -> float32) :
  expf F32.zero = F32.one ->
  expf (F32.ldexp (-1) (-30)) = F32.one ->
  exists p,
    Decision.predict expf
      [F32.zero; F32.ldexp 1 (-30); F32.zero; F32.zero; F32.zero;
       F32.zero; F32.zero; F32.zero; F32.zero; F32.zero]
    = Some (p, 0).
Proof.
  intros H0 H1. eexists.
  rewrite predict_run by (try discriminate; unfold Int.max_signed; simpl; lia).
  f_equal. f_equal.
  unfold Decision.softmax_reference.
  replace (Decision.maximum _) with (F32.ldexp 1 (-30)) by (vm_compute; reflexivity).
  cbn [fmap list_fmap].
  replace (F32.sub F32.zero (F32.ldexp 1 (-30))) with (F32.ldexp (-1) (-30))
    by (vm_compute; reflexivity).
  replace (F32.sub (F32.ldexp 1 (-30)) (F32.ldexp 1 (-30))) with F32.zero
    by (vm_compute; reflexivity).
  rewrite H0, H1. vm_compute. reflexivity.
Qed.

(** C10, as stated, fails on the logits [0, 2^-30, 0, ..., 0]: the raw
    argmax is position 1, but exp(-2^-30) rounds to 1.0f, the ten
    probabilities are equal and Run's tail returns 0. *)
Lemma predict_raw_argmax_counterexample :
  let logits :=
    [F32.zero; F32.ldexp 1 (-30); F32.zero; F32.zero; F32.zero;
     F32.zero; F32.zero; F32.zero; F32.zero; F32.zero] in
  Forall (fun a => F32.is_finite a && F32.valid a = true) logits
  /\ Decision.max_element logits = 1%nat
  /\ ExpRef.expf F32.zero = F32.one
  /\ ExpRef.expf (F32.ldexp (-1) (-30)) = F32.one
  /\ exists p, Decision.predict ExpRef.expf logits = Some (p, 0).
Proof.
  intros logits.
  split; [repeat constructor|].
  split; [reflexivity|].
  split; [vm_compute; reflexivity|].
  split; [vm_compute; reflexivity|].
  apply predict_merges; vm_compute; reflexivity.
Qed.

(** ** softmax on special inputs *)

Lemma maximum_replicate c n : Decision.maximum (replicate (S n) c) = c.
Proof.
  simpl. induction n as [|n IH]; [reflexivity|].
  simpl. unfold Decision.fmax at 2. now rewrite ltb_irrefl.
Qed.

(** X8. Ten equal finite logits, whatever their common value, come out as
    ten probabilities that are each exactly 0.1f, the binary32 number
    nearest to 1/10 (13421773 * 2^-27), and the class returned is 0; exp
    is only asked to return 1 at +0. *)
Theorem predict_equal_logits (expf : float32 -> float32) (c : float32) :
  expf F32.zero = F32.one -> F32.is_finite c = true ->
  Decision.predict expf (replicate 10 c)
  = Some (replicate 10 (F32.ldexp 13421773 (-27)), 0).
Proof.
  intros H0 Hc. rewrite predict_run by (try discriminate; vm_compute; discriminate).
  assert (E : Decision.softmax_reference expf (replicate 10 c)
              = replicate 10 (F32.ldexp 13421773 (-27))).
  { unfold Decision.softmax_reference.
    rewrite (maximum_replicate c 9). cbn [replicate fmap list_fmap].
    rewrite (sub_self c Hc), H0. vm_compute. reflexivity. }
  rewrite E, max_element_const. reflexivity.
Qed.

Lemma predict_equal_logits_witness :
  Decision.predict ExpRef.expf (replicate 10 (F32.of_int (-7)))
  = Some (replicate 10 (F32.ldexp 13421773 (-27)), 0).
Proof.
  apply (predict_equal_logits ExpRef.expf (F32.of_int (-7))); reflexivity.
Defined.

Lemma add_nan_l x : F32.add S754_nan x = S754_nan.
Proof. reflexivity. Qed.

Lemma add_nan_r x : F32.add x S754_nan = S754_nan.
Proof. destruct x; reflexivity. Qed.

Lemma div_nan_r x : F32.div x S754_nan = S754_nan.
Proof. destruct x; reflexivity. Qed.

Lemma sub_nan_l x : F32.sub S754_nan x = S754_nan.
Proof. reflexivity. Qed.

Lemma sub_inf_inf : F32.sub (S754_infinity false) (S754_infinity false) = S754_nan.
Proof. reflexivity. Qed.

Lemma fold_add_nan (l : list float32) :
  fold_left F32.add l S754_nan = S754_nan.
Proof. induction l as [|x l IH]; [reflexivity|]. simpl. exact IH. Qed.

Lemma fold_add_elem_nan (l : list float32) a :
  S754_nan ∈ l -> fold_left F32.add l a = S754_nan.
Proof.
  revert a. induction l as [|x l IH]; intros a Hin; [inversion Hin|].
  apply elem_of_cons in Hin as [<-|Hin]; simpl.
  - rewrite add_nan_r. apply fold_add_nan.
  - now apply IH.
Qed.

(** Below plus infinity is every number that is neither it nor NaN. *)
Lemma ltb_inf x :
  F32.ltb x (S754_infinity false) = false ->
  x = S754_nan \/ x = S754_infinity false.
Proof. destruct x as [s|[|]| |[|] m e]; simpl; intros E; try discriminate E; auto. Qed.

(** With a NaN or a plus infinity among the logits, some exponent is NaN. *)
Lemma exp_list_nan (expf : float32 -> float32) (logits : list float32) :
  expf S754_nan = S754_nan ->
  S754_nan ∈ logits \/ S754_infinity false ∈ logits ->
  S754_nan ∈ (fun xi => expf (F32.sub xi (Decision.maximum logits))) <$> logits.
Proof.
  intros Hnan Hin. apply list_elem_of_fmap.
  destruct (decide (Exists (fun a => F32.is_nan a = true) logits)) as [Hex|Hno].
  - apply Exists_exists in Hex as (x & Hx & Nx).
    exists x. split; [|exact Hx]. destruct x; try discriminate Nx.
    now rewrite sub_nan_l.
  - destruct Hin as [Hin|Hin].
    { exfalso. apply Hno, Exists_exists. exists S754_nan. split; [exact Hin|reflexivity]. }
    assert (Hall : Forall (fun a => F32.is_nan a = false) logits).
    { apply Forall_forall. intros a Ha. destruct (F32.is_nan a) eqn:Na; [|reflexivity].
      exfalso. apply Hno, Exists_exists. eauto. }
    assert (Hne : logits <> []) by (intros ->; inversion Hin).
    destruct (max_element_first logits Hne Hall) as (pi & Hpi & Hge & _).
    assert (Hm : logits !! Decision.max_element logits = Some (Decision.maximum logits)).
    { destruct logits as [|x rest]; [congruence|]. apply max_element_value. }
    rewrite Hm in Hpi. injection Hpi as <-.
    apply list_elem_of_lookup in Hin as (j & Hj).
    specialize (Hge j _ Hj). apply ltb_inf in Hge as [Em|Em].
    + rewrite Forall_lookup in Hall. specialize (Hall _ _ Hm).
      rewrite Em in Hall. discriminate Hall.
    + exists (S754_infinity false). rewrite Em, sub_inf_inf.
      split; [now rewrite Hnan|apply list_elem_of_lookup; eauto].
Qed.

(** X9. One NaN or one plus infinity among the logits makes every
    probability NaN (for plus infinity through inf - inf), and Run then
    returns class 0, since no comparison with NaN holds; exp is only asked
    to return NaN at NaN. *)
Theorem predict_not_finite (expf : float32 -> float32) (logits : list float32) :
  expf S754_nan = S754_nan ->
  Z.of_nat (length logits) <= Int.max_signed ->
  S754_nan ∈ logits \/ S754_infinity false ∈ logits ->
  Decision.predict expf logits = Some (replicate (length logits) S754_nan, 0).
Proof.
  intros Hnan Hlen Hin.
  assert (Hne : logits <> []) by (intros ->; destruct Hin as [H|H]; inversion H).
  rewrite predict_run by assumption.
  assert (E : Decision.softmax_reference expf logits
              = replicate (length logits) S754_nan).
  { unfold Decision.softmax_reference. cbv zeta.
    rewrite (fold_add_elem_nan _ _ (exp_list_nan expf logits Hnan Hin)).
    rewrite <- list_fmap_compose.
    generalize (Decision.maximum logits). intros m.
    clear. induction logits as [|x l IH]; [reflexivity|].
    simpl. rewrite div_nan_r. f_equal. exact IH. }
  rewrite E, max_element_const. reflexivity.
Qed.

Lemma predict_not_finite_witness :
  Decision.predict ExpRef.expf
    [F32.zero; F32.of_int 1; F32.of_int 9; S754_infinity false; F32.of_int 2;
     F32.zero; F32.zero; F32.zero; F32.zero; F32.zero]
  = Some (replicate 10 S754_nan, 0).
Proof.
  apply (predict_not_finite ExpRef.expf
           [F32.zero; F32.of_int 1; F32.of_int 9; S754_infinity false; F32.of_int 2;
            F32.zero; F32.zero; F32.zero; F32.zero; F32.zero]).
  - reflexivity.
  - vm_compute. discriminate.
  - right. repeat first [apply list_elem_of_here | apply list_elem_of_further].
Defined.

(** ** The event loop of main *)

Section EventLoop.

Import App.

Variable expf : float32 -> float32.
Variable E : Engine.
Variable sdl : Sdl.

Ltac same_state H1 H2 H3 :=
  cbn [quit log mnistModel arrays];
  rewrite ?orb_true_r, ?orb_false_r;
  split; [exact H1|split; [exact H2|split; [reflexivity|exact H3]]].

(** [Run] on a model: a fault of [session_.Run], or a class from 0 to 9
    and ten probabilities in [results_]. *)
Lemma Run_cases (h : Handle E) :
  model_wf (arrays h) ->
  (exists e, Run expf h = Throws e
             /\ session_run E (session_ h) (input_image_ (arrays h)) = inl e)
  \/ (exists cls h', Run expf h = Ok (cls, h')
        /\ 0 <= cls < 10 /\ model_wf (arrays h')
        /\ session_ h' = session_ h).
Proof.
  intros (Hin & Hres). unfold Run.
  destruct (session_run E (session_ h) (input_image_ (arrays h))) as [e|out];
    [left; eauto|right].
  assert (Hlen : length (vec_to_list out) = 10%nat) by apply length_vec_to_list.
  rewrite predict_run.
  - pose proof (max_element_bound (Decision.softmax_reference expf (vec_to_list out))) as Hb.
    rewrite softmax_reference_length, Hlen in Hb.
    do 2 eexists. split; [reflexivity|]. split; [|split; [|reflexivity]].
    + assert (Decision.softmax_reference expf out <> []).
      { intros E0. apply (f_equal length) in E0.
        rewrite softmax_reference_length, Hlen in E0. discriminate. }
      specialize (Hb H). lia.
    + split; [exact Hin|]. cbn [arrays results_].
      now rewrite softmax_reference_length.
  - intros E0. rewrite E0 in Hlen. discriminate.
  - rewrite Hlen. vm_compute. discriminate.
Qed.

(** One event: the state goes on, well formed, with at most one line more
    in the log, or an exception of [session_.Run] ends the process. *)
Lemma handle_event_spec (e : event) (st : loop_state E) :
  Events.state_wf st ->
  match handle_event expf sdl e st with
  | inl st' =>
      Events.state_wf st'
      /\ session_ (mnistModel st') = session_ (mnistModel st)
      /\ quit st' = quit st || Events.is_quit e
      /\ exists preds,
           log st' = log st ++ preds
           /\ Forall (fun o => Events.is_prediction o = true) preds
           /\ length preds = (if Events.is_release e then 1 else 0)%nat
  | inr (Terminated ex l) =>
      (exists img, session_run E (session_ (mnistModel st)) img = inl ex)
      /\ l = log st /\ Events.is_release e = true
  | inr _ => False
  end.
Proof.
  intros Hwf.
  assert (Hsame : Events.state_wf st
                  /\ session_ (mnistModel st) = session_ (mnistModel st)
                  /\ exists preds : list output,
                       log st = log st ++ preds
                       /\ Forall (fun o => Events.is_prediction o = true) preds
                       /\ length preds = 0%nat).
  { split; [exact Hwf|]. split; [reflexivity|].
    exists []. rewrite app_nil_r. repeat split. constructor. }
  destruct Hsame as (H1 & H2 & H3).
  destruct e as [|sym|button x y|button|x y|]; cbn [handle_event Events.is_quit Events.is_release].
  - same_state H1 H2 H3.
  - destruct (sym =? SDLK_ESCAPE); same_state H1 H2 H3.
  - destruct (button =? SDL_BUTTON_LEFT); same_state H1 H2 H3.
  - destruct (button =? SDL_BUTTON_LEFT); [|same_state H1 H2 H3].
    destruct (read_pixels_capture sdl (reads st)) as (Hcap & Hfit).
    destruct (convertImage_run _ _ _ Hcap Hfit _ Hwf) as (img & -> & Hdone).
    destruct Hdone as (Hlen & _).
    set (h := mkHandle (session_ (mnistModel st)) (mkModel img (results_ (arrays (mnistModel st))))).
    assert (Hh : model_wf (arrays h)) by (split; [exact Hlen|apply Hwf]).
    destruct (Run_cases h Hh) as [(ex & -> & Hex)|(cls & h' & -> & Hcls & Hwf' & Hs')].
    + split; [eauto|]. split; reflexivity.
    + cbn [quit log mnistModel]. rewrite orb_false_r.
      split; [exact Hwf'|]. split; [exact Hs'|]. split; [reflexivity|].
      eexists. split; [reflexivity|]. split; [|reflexivity].
      repeat constructor. cbn [Events.is_prediction].
      destruct Hwf' as (_ & Hres). rewrite Hres.
      rewrite !andb_true_iff, Z.leb_le, Z.ltb_lt. repeat split; lia.
  - destruct (drawing st); same_state H1 H2 H3.
  - same_state H1 H2 H3.
Qed.

Lemma releases_cons e q :
  Events.releases (e :: q)
  = ((if Events.is_release e then 1 else 0) + Events.releases q)%nat.
Proof.
  unfold Events.releases. rewrite filter_cons.
  destruct (Events.is_release e) eqn:Ee.
  - rewrite decide_True by reflexivity. reflexivity.
  - rewrite decide_False by discriminate. reflexivity.
Qed.

(** The events of one frame. *)
Lemma poll_events_spec (q : list event) : forall st : loop_state E,
  Events.state_wf st ->
  match poll_events expf sdl q st with
  | inl st' =>
      Events.state_wf st'
      /\ session_ (mnistModel st') = session_ (mnistModel st)
      /\ quit st' = quit st || existsb Events.is_quit q
      /\ exists preds,
           log st' = log st ++ preds
           /\ Forall (fun o => Events.is_prediction o = true) preds
           /\ length preds = Events.releases q
  | inr (Terminated ex l) =>
      (exists img, session_run E (session_ (mnistModel st)) img = inl ex)
      /\ exists preds,
           l = log st ++ preds
           /\ Forall (fun o => Events.is_prediction o = true) preds
           /\ (length preds < Events.releases q)%nat
  | inr _ => False
  end.
Proof.
  induction q as [|e q IH]; intros st Hwf.
  - cbn [poll_events existsb]. rewrite orb_false_r.
    split; [exact Hwf|]. split; [reflexivity|]. split; [reflexivity|].
    exists []. rewrite app_nil_r. repeat split. constructor.
  - cbn [poll_events existsb]. rewrite releases_cons.
    pose proof (handle_event_spec e st Hwf) as He.
    destruct (handle_event expf sdl e st) as [st1|o].
    + destruct He as (Hwf1 & Hs1 & Hq1 & p1 & Hl1 & Hp1 & Hn1).
      specialize (IH st1 Hwf1).
      destruct (poll_events expf sdl q st1) as [st2|o].
      * destruct IH as (Hwf2 & Hs2 & Hq2 & p2 & Hl2 & Hp2 & Hn2).
        split; [exact Hwf2|]. split; [congruence|].
        split; [rewrite Hq2, Hq1; symmetry; apply orb_assoc|].
        exists (p1 ++ p2). rewrite Hl2, Hl1, app_assoc, length_app.
        split; [reflexivity|]. split; [now apply Forall_app|lia].
      * destruct o as [| ex l | |]; try contradiction.
        destruct IH as ((img & Himg) & p2 & Hl2 & Hp2 & Hn2).
        split; [exists img; congruence|].
        exists (p1 ++ p2). rewrite Hl2, Hl1, app_assoc, length_app.
        split; [reflexivity|]. split; [now apply Forall_app|lia].
    + destruct o as [| ex l | |]; try contradiction.
      destruct He as (Himg & -> & ->).
      split; [exact Himg|]. exists []. rewrite app_nil_r.
      split; [reflexivity|]. split; [constructor|simpl; lia].
Qed.

Lemma releases_app q1 q2 :
  Events.releases (q1 ++ q2) = (Events.releases q1 + Events.releases q2)%nat.
Proof. unfold Events.releases. now rewrite filter_app, length_app. Qed.

(** The whole loop, from a state that has not quit. *)
Lemma main_loop_spec (frames : list (list event)) : forall st : loop_state E,
  Events.state_wf st -> quit st = false ->
  match main_loop expf sdl frames st with
  | Exited code l =>
      code = 0 /\ existsb (existsb Events.is_quit) frames = true
      /\ exists preds,
           l = log st ++ preds
           /\ Forall (fun o => Events.is_prediction o = true) preds
           /\ length preds = Events.releases (Events.handled frames)
  | Polling l =>
      existsb (existsb Events.is_quit) frames = false
      /\ exists preds,
           l = log st ++ preds
           /\ Forall (fun o => Events.is_prediction o = true) preds
           /\ length preds = Events.releases (Events.handled frames)
  | Terminated ex l =>
      (exists img, session_run E (session_ (mnistModel st)) img = inl ex)
      /\ exists preds,
           l = log st ++ preds
           /\ Forall (fun o => Events.is_prediction o = true) preds
           /\ (length preds < Events.releases (Events.handled frames))%nat
  | Undefined_behaviour _ => False
  end.
Proof.
  induction frames as [|q rest IH]; intros st Hwf Hq.
  - cbn [main_loop]. rewrite Hq. split; [reflexivity|].
    exists []. rewrite app_nil_r. repeat split. constructor.
  - cbn [main_loop Events.handled existsb]. rewrite Hq.
    pose proof (poll_events_spec q st Hwf) as Hp.
    destruct (poll_events expf sdl q st) as [st1|o].
    + destruct Hp as (Hwf1 & Hs1 & Hq1 & p1 & Hl1 & Hp1 & Hn1).
      rewrite Hq in Hq1. cbn [orb] in Hq1.
      destruct (existsb Events.is_quit q) eqn:Eq.
      * destruct rest as [|q' rest']; cbn [main_loop]; rewrite Hq1;
          (split; [reflexivity|]; split; [reflexivity|];
           exists p1; rewrite app_nil_r; auto).
      * specialize (IH st1 Hwf1 Hq1). cbn [orb].
        destruct (main_loop expf sdl rest st1) as [code l|ex l|l|l].
        -- destruct IH as (-> & Hex & p2 & -> & Hp2 & Hn2).
           split; [reflexivity|]. split; [exact Hex|].
           exists (p1 ++ p2). rewrite Hl1, app_assoc, length_app, releases_app.
           split; [reflexivity|]. split; [now apply Forall_app|lia].
        -- destruct IH as ((img & Himg) & p2 & -> & Hp2 & Hn2).
           split; [exists img; congruence|].
           exists (p1 ++ p2). rewrite Hl1, app_assoc, length_app, releases_app.
           split; [reflexivity|]. split; [now apply Forall_app|lia].
        -- contradiction.
        -- destruct IH as (Hex & p2 & -> & Hp2 & Hn2).
           split; [exact Hex|].
           exists (p1 ++ p2). rewrite Hl1, app_assoc, length_app, releases_app.
           split; [reflexivity|]. split; [now apply Forall_app|lia].
    + destruct o as [| ex l | |]; try contradiction.
      destruct Hp as (Himg & p1 & -> & Hp1 & Hn1).
      split; [exact Himg|]. exists p1.
      split; [reflexivity|]. split; [exact Hp1|].
      rewrite releases_app. lia.
Qed.

End EventLoop.

(** The image written does not depend on what the array held before. *)
Lemma convertImage_image (m : MNISTModel) (px : list byte) (W H : Z) :
  model_wf m ->
  input_image_ <$> Normalizer.convertImage m px W H
  = input_image_ <$> Normalizer.convertImage model_init px W H.
Proof.
  intros (Hlen & _). unfold Normalizer.convertImage.
  assert (Ef : fill (input_image_ m) F32.zero = fill (input_image_ model_init) F32.zero).
  { unfold fill.
    rewrite (const_fmap (fun _ => F32.zero) (input_image_ m) F32.zero)
      by reflexivity.
    rewrite (const_fmap (fun _ => F32.zero) (input_image_ model_init) F32.zero)
      by reflexivity.
    rewrite Hlen. reflexivity. }
  cbv zeta. rewrite Ef.
  destruct (for_each _ _ _); reflexivity.
Qed.

Section FaultCause.

Import App.

Variable expf : float32 -> float32.
Variable E : Engine.
Variable sdl : Sdl.

(** One event: the count of captures goes up by one at an answered
    release, and a fault is a fault of [session_.Run] on the image of the
    next capture. *)
Lemma handle_event_capture (e : event) (st : loop_state E) :
  Events.state_wf st ->
  match handle_event expf sdl e st with
  | inl st' =>
      reads st' = (reads st + (if Events.is_release e then 1 else 0))%nat
      /\ (Events.is_release e = true ->
          Faults.answered E sdl (session_ (mnistModel st)) (reads st))
  | inr (Terminated ex l) =>
      Faults.faulted E sdl (session_ (mnistModel st)) (reads st) ex
  | inr _ => True
  end.
Proof.
  intros Hwf.
  destruct e as [|sym|button x y|button|x y|];
    cbn [handle_event Events.is_release].
  - cbn [reads]. split; [lia|discriminate].
  - destruct (sym =? SDLK_ESCAPE); cbn [reads]; (split; [lia|discriminate]).
  - destruct (button =? SDL_BUTTON_LEFT); cbn [reads]; (split; [lia|discriminate]).
  - destruct (button =? SDL_BUTTON_LEFT); [|split; [lia|discriminate]].
    pose proof (convertImage_image (arrays (mnistModel st))
                  (read_pixels sdl (reads st)) width height Hwf) as Himg.
    destruct (Normalizer.convertImage (arrays (mnistModel st)) _ width height)
      as [m|]; [|exact I].
    cbn [fmap option_fmap option_map] in Himg.
    unfold Run. cbn [session_ arrays].
    destruct (session_run E (session_ (mnistModel st)) (input_image_ m))
      as [ex|out] eqn:Erun.
    + exists (input_image_ m). split; [symmetry; exact Himg|exact Erun].
    + destruct (Decision.predict expf out) as [(p, index)|]; [|exact I].
      cbn [reads]. split; [lia|]. intros _.
      exists (input_image_ m), out. split; [symmetry; exact Himg|exact Erun].
  - destruct (drawing st); cbn [reads]; (split; [lia|discriminate]).
  - split; [lia|discriminate].
Qed.

(** The events of one frame. *)
Lemma poll_events_capture (q : list event) : forall st : loop_state E,
  Events.state_wf st ->
  match poll_events expf sdl q st with
  | inl st' =>
      reads st' = (reads st + Events.releases q)%nat
      /\ (forall k, (reads st <= k < reads st')%nat ->
                    Faults.answered E sdl (session_ (mnistModel st)) k)
  | inr (Terminated ex l) =>
      exists n, (reads st <= n < reads st + Events.releases q)%nat
        /\ (forall k, (reads st <= k < n)%nat ->
                      Faults.answered E sdl (session_ (mnistModel st)) k)
        /\ Faults.faulted E sdl (session_ (mnistModel st)) n ex
  | inr _ => True
  end.
Proof.
  induction q as [|e q IH]; intros st Hwf.
  - cbn [poll_events]. split; [unfold Events.releases; simpl; lia|]. intros k Hk. lia.
  - cbn [poll_events]. rewrite releases_cons.
    pose proof (handle_event_spec expf E sdl e st Hwf) as Hs.
    pose proof (handle_event_capture e st Hwf) as Hc.
    destruct (handle_event expf sdl e st) as [st1|o].
    + destruct Hs as (Hwf1 & Hs1 & _). destruct Hc as (Hr1 & Ha1).
      specialize (IH st1 Hwf1). rewrite Hs1 in IH.
      assert (Hstep : forall k, (reads st <= k < reads st1)%nat ->
                Faults.answered E sdl (session_ (mnistModel st)) k).
      { intros k Hk. destruct (Events.is_release e); [|lia].
        assert (k = reads st) as -> by lia. now apply Ha1. }
      destruct (poll_events expf sdl q st1) as [st2|o].
      * destruct IH as (Hr2 & Ha2). split; [lia|].
        intros k Hk. destruct (le_lt_dec (reads st1) k) as [Hge|Hlt].
        -- apply Ha2. lia.
        -- apply Hstep. lia.
      * destruct o as [| ex l | |]; try exact I.
        destruct IH as (n & Hn & Ha2 & Hf). exists n.
        split; [lia|]. split; [|exact Hf].
        intros k Hk. destruct (le_lt_dec (reads st1) k) as [Hge|Hlt].
        -- apply Ha2. lia.
        -- apply Hstep. lia.
    + destruct o as [| ex l | |]; try exact I.
      destruct Hs as (_ & _ & Hrel). rewrite Hrel.
      exists (reads st). split; [lia|]. split; [intros k Hk; lia|exact Hc].
Qed.

(** The whole loop, from a state that has not quit. *)
Lemma main_loop_capture (frames : list (list event)) : forall (st : loop_state E) ex l,
  Events.state_wf st -> quit st = false ->
  main_loop expf sdl frames st = Terminated ex l ->
  exists n, (reads st <= n < reads st + Events.releases (Events.handled frames))%nat
    /\ (forall k, (reads st <= k < n)%nat ->
                  Faults.answered E sdl (session_ (mnistModel st)) k)
    /\ Faults.faulted E sdl (session_ (mnistModel st)) n ex.
Proof.
  induction frames as [|q rest IH]; intros st ex l Hwf Hq.
  - cbn [main_loop]. rewrite Hq. discriminate.
  - cbn [main_loop Events.handled]. rewrite Hq, releases_app.
    pose proof (poll_events_spec expf E sdl q st Hwf) as Hs.
    pose proof (poll_events_capture q st Hwf) as Hc.
    destruct (poll_events expf sdl q st) as [st1|o].
    + destruct Hs as (Hwf1 & Hs1 & Hq1 & _). destruct Hc as (Hr1 & Ha1).
      rewrite Hq in Hq1. cbn [orb] in Hq1.
      destruct (existsb Events.is_quit q) eqn:Eq.
      * destruct rest as [|q' rest']; cbn [main_loop]; rewrite Hq1; discriminate.
      * intros Hrun. destruct (IH st1 ex l Hwf1 Hq1 Hrun) as (n & Hn & Ha2 & Hf).
        rewrite Hs1 in Ha2, Hf. exists n.
        split; [lia|]. split; [|exact Hf].
        intros k Hk. destruct (le_lt_dec (reads st1) k) as [Hge|Hlt].
        -- apply Ha2. lia.
        -- apply Ha1. lia.
    + intros ->. destruct Hc as (n & Hn & Ha & Hf). exists n.
      split; [lia|]. split; assumption.
Qed.

End FaultCause.

Lemma main_started (expf : float32 -> float32) (E : App.Engine) (sdl : App.Sdl)
    (frames : list (list App.event)) :
  (exists e, App.MNISTModel_new E "mnist.onnx" = App.Throws e
     /\ App.main expf E sdl frames
        = App.Exited (-1) [App.Cerr "ONNX Runtime error: " (App.what e)])
  \/ (exists s, App.create_session E "mnist.onnx" = inr s
        /\ App.MNISTModel_new E "mnist.onnx" = App.Ok (App.mkHandle s model_init)
        /\ ((exists prefix,
               (App.init_ok sdl && App.window_ok sdl && App.renderer_ok sdl = false)
               /\ App.main expf E sdl frames
                  = App.Exited (-1) [App.Cerr prefix (App.get_error sdl)])
            \/ (App.init_ok sdl && App.window_ok sdl && App.renderer_ok sdl = true
                /\ App.main expf E sdl frames
                   = App.main_loop expf sdl frames
                       (App.mkLoop false false (0, 0) 0%nat
                          (App.mkHandle s model_init) [App.Cout App.banner])))).
Proof.
  unfold App.main.
  destruct (MNISTModel_new_cases E "mnist.onnx") as [(s & -> & Hs)|(e & ->)].
  - right. exists s. split; [exact Hs|]. split; [reflexivity|].
    destruct (App.init_ok sdl); [|left; eexists; split; reflexivity].
    destruct (App.window_ok sdl); [|left; eexists; split; reflexivity].
    destruct (App.renderer_ok sdl); [|left; eexists; split; reflexivity].
    right. split; reflexivity.
  - left. exists e. split; reflexivity.
Qed.

Lemma model_init_wf : model_wf model_init.
Proof. split; reflexivity. Qed.

(** X10. Whatever the runtime, the SDL answers, exp and the events, main
    never runs into undefined behaviour: every read of the pixel buffer
    and every access to the two arrays, in convertImage and in softmax, is
    in bounds. *)
Theorem main_never_undefined (expf : float32 -> float32) (E : App.Engine)
    (sdl : App.Sdl) (frames : list (list App.event)) :
  Events.defined (App.main expf E sdl frames) = true.
Proof.
  destruct (main_started expf E sdl frames)
    as [(e & _ & ->)|(s & _ & _ & [(prefix & _ & ->)|(_ & ->)])]; try reflexivity.
  pose proof (main_loop_spec expf E sdl frames
                (App.mkLoop false false (0, 0) 0%nat
                   (App.mkHandle s model_init) [App.Cout App.banner])
                model_init_wf eq_refl) as Hspec.
  destruct (App.main_loop expf sdl frames _); try reflexivity. contradiction.
Qed.

(** A run with a runtime that faults: a press, then the release. *)
Lemma main_faulty_run (expf : float32 -> float32) message x y queued frames :
  App.main expf (App.faulty_engine message) App.quiet_sdl
    ((App.SDL_MOUSEBUTTONDOWN 1 x y :: App.SDL_MOUSEBUTTONUP App.SDL_BUTTON_LEFT :: queued)
       :: frames)
  = App.Terminated (App.mkOrt message) [App.Cout App.banner].
Proof.
  set (E := App.faulty_engine message).
  set (h := @App.mkHandle E (App.mkFile App.input_shape_ App.output_shape_) model_init).
  set (st := App.mkLoop false true
               (App.clamp x 0 (App.width - 1), App.clamp y 0 (App.height - 1)) 0%nat
               h [App.Cout App.banner]).
  pose proof (mouse_up_fault expf E App.quiet_sdl st (App.mkOrt message)
                model_init_wf (fun _ => eq_refl)) as Hup.
  assert (Hload : App.MNISTModel_new E "mnist.onnx" = App.Ok h) by reflexivity.
  assert (Hdown : App.handle_event expf App.quiet_sdl (App.SDL_MOUSEBUTTONDOWN 1 x y)
                    (App.mkLoop false false (0, 0) 0%nat h [App.Cout App.banner])
                  = inl st) by reflexivity.
  unfold App.main. rewrite Hload.
  cbn [App.init_ok App.window_ok App.renderer_ok App.quiet_sdl negb].
  cbn [App.main_loop App.quit App.poll_events].
  rewrite Hdown, Hup. reflexivity.
Qed.

(** X11. If an exception ends main (std::terminate), it is the exception
    that session_.Run threw while a release of the left button was handled:
    the model had loaded, and for some [n] below the number of releases
    among the events handled, session_.Run returned on the images of the
    first [n] captures and threw that exception on the image convertImage
    made of the next one. *)
Theorem main_terminated_by_run (expf : float32 -> float32) (E : App.Engine)
    (sdl : App.Sdl) (frames : list (list App.event)) (e : App.OrtException)
    (l : list App.output) :
  App.main expf E sdl frames = App.Terminated e l ->
  exists s n,
    App.create_session E "mnist.onnx" = inr s
    /\ (n < Events.releases (Events.handled frames))%nat
    /\ (forall k, (k < n)%nat -> Faults.answered E sdl s k)
    /\ Faults.faulted E sdl s n e.
Proof.
  destruct (main_started expf E sdl frames)
    as [(e' & _ & ->)|(s & Hs & _ & [(prefix & _ & ->)|(_ & ->)])]; try discriminate.
  intros Hmain.
  destruct (main_loop_capture expf E sdl frames
              (App.mkLoop false false (0, 0) 0%nat
                 (App.mkHandle s model_init) [App.Cout App.banner])
              e l model_init_wf eq_refl Hmain)
    as (n & Hn & Ha & Hf).
  cbn [App.reads App.mnistModel App.session_] in Hn, Ha, Hf.
  exists s, n. split; [exact Hs|]. split; [lia|]. split; [|exact Hf].
  intros k Hk. apply Ha. lia.
Qed.

Lemma main_terminated_by_run_witness :
  exists s n,
    App.create_session (App.faulty_engine "Non-zero status code") "mnist.onnx" = inr s
    /\ (n < Events.releases
              (Events.handled
                 [[App.SDL_MOUSEBUTTONDOWN 1 5 5;
                   App.SDL_MOUSEBUTTONUP App.SDL_BUTTON_LEFT]; [App.SDL_QUIT]]))%nat
    /\ (forall k, (k < n)%nat ->
          Faults.answered (App.faulty_engine "Non-zero status code") App.quiet_sdl s k)
    /\ Faults.faulted (App.faulty_engine "Non-zero status code") App.quiet_sdl s n
         (App.mkOrt "Non-zero status code").
Proof.
  apply (main_terminated_by_run ExpRef.expf
           (App.faulty_engine "Non-zero status code") App.quiet_sdl _ _
           [App.Cout App.banner]).
  apply main_faulty_run.
Defined.

(** X12. If main returns, the exit code is -1 or 0.  It is -1 exactly after
    a failed start (the model did not load, or SDL_Init, the window or the
    renderer failed), with one diagnostic on cerr as the whole output.  It
    is 0 only after a quit event (SDL_QUIT or ESC), and then the output
    is the banner followed by one well-formed prediction for each release
    of the left button among the events handled: those of the frames up to
    the quit event, the rest of its frame included. *)
Theorem main_exit_code (expf : float32 -> float32) (E : App.Engine)
    (sdl : App.Sdl) (frames : list (list App.event)) (code : Z)
    (l : list App.output) :
  App.main expf E sdl frames = App.Exited code l ->
  (code = -1
   /\ (exists prefix message, l = [App.Cerr prefix message])
   /\ ((exists e, App.MNISTModel_new E "mnist.onnx" = App.Throws e)
       \/ App.init_ok sdl && App.window_ok sdl && App.renderer_ok sdl = false))
  \/ (code = 0
      /\ existsb (existsb Events.is_quit) frames = true
      /\ (exists h, App.MNISTModel_new E "mnist.onnx" = App.Ok h)
      /\ App.init_ok sdl && App.window_ok sdl && App.renderer_ok sdl = true
      /\ exists preds,
           l = App.Cout App.banner :: preds
           /\ Forall (fun o => Events.is_prediction o = true) preds
           /\ length preds = Events.releases (Events.handled frames)).
Proof.
  destruct (main_started expf E sdl frames)
    as [(e' & He' & ->)|(s & Hs & Hload & [(prefix & Hsdl & ->)|(Hsdl & ->)])].
  - intros [= <- <-]. left. split; [reflexivity|]. split; eauto.
  - intros [= <- <-]. left. split; [reflexivity|]. split; eauto.
  - pose proof (main_loop_spec expf E sdl frames
                  (App.mkLoop false false (0, 0) 0%nat
                     (App.mkHandle s model_init) [App.Cout App.banner])
                  model_init_wf eq_refl) as Hspec.
    intros Hmain. rewrite Hmain in Hspec.
    destruct Hspec as (-> & Hq & preds & Hl & Hp & Hn).
    right. split; [reflexivity|]. split; [exact Hq|]. split; [eauto|].
    split; [exact Hsdl|]. exists preds. repeat split; assumption.
Qed.

Lemma main_exit_code_witness :
  (-1 = -1
   /\ (exists prefix message,
         [App.Cerr "Failed to create window: " "No available video device"]
         = [App.Cerr prefix message])
   /\ ((exists e, App.MNISTModel_new
                    (App.engine_with (Some (App.mkFile App.input_shape_ App.output_shape_))
                       (fun _ => inl (App.mkOrt "unused")))
                    "mnist.onnx" = App.Throws e)
       \/ true && false && true = false))
  \/ (-1 = 0
      /\ existsb (existsb Events.is_quit) [[App.SDL_QUIT]] = true
      /\ (exists h, App.MNISTModel_new
                      (App.engine_with (Some (App.mkFile App.input_shape_ App.output_shape_))
                         (fun _ => inl (App.mkOrt "unused")))
                      "mnist.onnx" = App.Ok h)
      /\ true && false && true = true
      /\ exists preds,
           [App.Cerr "Failed to create window: " "No available video device"]
           = App.Cout App.banner :: preds
           /\ Forall (fun o => Events.is_prediction o = true) preds
           /\ length preds = Events.releases (Events.handled [[App.SDL_QUIT]])).
Proof.
  apply (main_exit_code ExpRef.expf
           (App.engine_with (Some (App.mkFile App.input_shape_ App.output_shape_))
              (fun _ => inl (App.mkOrt "unused")))
           {| App.init_ok := true; App.window_ok := false; App.renderer_ok := true;
              App.get_error := "No available video device";
              App.read_pixel := fun _ _ => "255"%byte |}
           [[App.SDL_QUIT]]).
  reflexivity.
Defined.

(** X13. With a runtime whose Run never faults, the model loaded and SDL
    started, main prints the banner and then exactly one well-formed
    prediction for each release of the left button it handles; it returns
    0 when some frame holds a quit event, after handling that frame to its
    end and none after it, and is still polling otherwise. *)
Theorem main_predictions (expf : float32 -> float32) (E : App.Engine)
    (sdl : App.Sdl) (frames : list (list App.event)) (h : App.Handle E) :
  (forall s img, exists out, App.session_run E s img = inr out) ->
  App.MNISTModel_new E "mnist.onnx" = App.Ok h ->
  App.init_ok sdl && App.window_ok sdl && App.renderer_ok sdl = true ->
  exists preds,
    Forall (fun o => Events.is_prediction o = true) preds
    /\ length preds = Events.releases (Events.handled frames)
    /\ App.main expf E sdl frames
       = if existsb (existsb Events.is_quit) frames
         then App.Exited 0 (App.Cout App.banner :: preds)
         else App.Polling (App.Cout App.banner :: preds).
Proof.
  intros Hrun Hload Hsdl.
  destruct (main_started expf E sdl frames)
    as [(e' & He' & _)|(s & Hs & _ & [(prefix & Hsdl' & _)|(_ & ->)])];
    [congruence|congruence|].
  pose proof (main_loop_spec expf E sdl frames
                (App.mkLoop false false (0, 0) 0%nat
                   (App.mkHandle s model_init) [App.Cout App.banner])
                model_init_wf eq_refl) as Hspec.
  destruct (App.main_loop expf sdl frames _) as [code l|ex l|l|l].
  - destruct Hspec as (-> & -> & preds & -> & Hp & Hn). exists preds. auto.
  - destruct Hspec as ((img & Himg) & _).
    destruct (Hrun (App.session_ (App.mnistModel
                (App.mkLoop false false (0, 0) 0%nat
                   (App.mkHandle s model_init) [App.Cout App.banner]))) img) as (out & Hout).
    congruence.
  - contradiction.
  - destruct Hspec as (-> & preds & -> & Hp & Hn). exists preds. auto.
Qed.

Lemma main_predictions_witness :
  let E := App.engine_with (Some (App.mkFile App.input_shape_ App.output_shape_))
             (fun _ => inr (Vector.const F32.zero 10)) in
  let frames :=
    [[App.SDL_MOUSEBUTTONDOWN 1 5 5; App.SDL_MOUSEMOTION 60 70;
      App.SDL_MOUSEBUTTONUP App.SDL_BUTTON_LEFT];
     [App.SDL_KEYDOWN 27; App.SDL_MOUSEBUTTONUP App.SDL_BUTTON_LEFT];
     [App.SDL_MOUSEBUTTONUP App.SDL_BUTTON_LEFT]] in
  exists preds,
    Forall (fun o => Events.is_prediction o = true) preds
    /\ length preds = Events.releases (Events.handled frames)
    /\ App.main ExpRef.expf E App.quiet_sdl frames
       = if existsb (existsb Events.is_quit) frames
         then App.Exited 0 (App.Cout App.banner :: preds)
         else App.Polling (App.Cout App.banner :: preds).
Proof.
  intros E frames.
  apply (main_predictions ExpRef.expf E App.quiet_sdl frames
           (@App.mkHandle E (App.mkFile App.input_shape_ App.output_shape_) model_init)).
  - intros s img. eexists. reflexivity.
  - reflexivity.
  - reflexivity.
Defined.

(** ** The SDL calls of main: colours, targets, lines and cleanup *)

Section RenderCalls.

Import App.

Variable expf : float32 -> float32.
Variable E : Engine.
Variable sdl : Sdl.

(** A property of every call of the loop, from one of the calls of each
    event in the states an invariant allows. *)
Lemma loop_calls_Forall (Inv : loop_state E -> Prop) (P : Render.call -> Prop) :
  (forall e st st', Inv st -> handle_event expf sdl e st = inl st' -> Inv st') ->
  (forall e st, Inv st -> Forall P (Render.event_calls e st)) ->
  Forall P Render.frame_calls -> Forall P Render.cleanup_calls ->
  forall frames st, Inv st -> Forall P (Render.loop_calls expf sdl frames st).
Proof.
  intros Hstep Hev Hframe Hclean.
  assert (Hpoll : forall q st, Inv st ->
            Forall P (Render.poll_calls expf sdl q st)
            /\ forall st', poll_events expf sdl q st = inl st' -> Inv st').
  { induction q as [|e q IH]; intros st Hst; cbn [Render.poll_calls poll_events].
    - split; [constructor|]. intros st' [= <-]. exact Hst.
    - pose proof (Hstep e st) as Hs.
      destruct (handle_event expf sdl e st) as [st1|o].
      + destruct (IH st1 (Hs st1 Hst eq_refl)) as (H1 & H2).
        split; [apply Forall_app; split; [now apply Hev|exact H1]|exact H2].
      + split; [rewrite app_nil_r; now apply Hev|]. intros st'. discriminate. }
  induction frames as [|q rest IH]; intros st Hst; cbn [Render.loop_calls].
  - destruct (quit st); [exact Hclean|constructor].
  - destruct (quit st); [exact Hclean|].
    destruct (Hpoll q st Hst) as (H1 & H2).
    apply Forall_app. split; [exact H1|].
    destruct (poll_events expf sdl q st) as [st1|o]; [|constructor].
    apply Forall_app. split; [exact Hframe|]. apply IH, H2. reflexivity.
Qed.

Lemma line_colours_app c l1 l2 :
  Forall (fun k => match k with
                   | Render.SDL_SetRenderDrawColor _ _ _ _ => False
                   | _ => True
                   end) l1 ->
  Render.line_colours c (l1 ++ l2)
  = Render.line_colours c l1 ++ Render.line_colours c l2.
Proof.
  induction 1 as [|k l1 Hk Hl IH]; [reflexivity|].
  destruct k; cbn [Render.line_colours app]; try contradiction;
    rewrite ?IH; reflexivity.
Qed.

(** With every colour set being white or grey, every line is white or
    grey. *)
Lemma line_colours_two c calls :
  c = Render.white \/ c = Render.grey ->
  Forall (fun k => match k with
                   | Render.SDL_SetRenderDrawColor r g b a =>
                       (r, g, b, a) = Render.white \/ (r, g, b, a) = Render.grey
                   | _ => True
                   end) calls ->
  Forall (fun k => k = Render.white \/ k = Render.grey)
         (Render.line_colours c calls).
Proof.
  intros Hc Hall. revert c Hc.
  induction Hall as [|k l Hk Hl IH]; intros c Hc; [constructor|].
  destruct k; cbn [Render.line_colours]; try (apply IH; assumption).
  constructor; [exact Hc|apply IH; exact Hc].
Qed.

Lemma event_calls_colours (e : event) (st : loop_state E) :
  Forall (fun k => match k with
                   | Render.SDL_SetRenderDrawColor r g b a =>
                       (r, g, b, a) = Render.white \/ (r, g, b, a) = Render.grey
                   | _ => True
                   end) (Render.event_calls e st).
Proof.
  destruct e as [|sym|button x y|button|x y|]; cbn [Render.event_calls];
    try constructor.
  - destruct (button =? SDL_BUTTON_LEFT); [constructor|].
    destruct (button =? SDL_BUTTON_RIGHT); [|constructor].
    repeat constructor.
  - destruct (button =? SDL_BUTTON_LEFT); repeat constructor.
  - destruct (drawing st); [|constructor]. cbv zeta.
    change (seqZ (-2) 5) with [-2; -1; 0; 1; 2].
    cbn [app fmap list_fmap]. repeat constructor.
Qed.

End RenderCalls.

(** X14. main never draws a stroke in a dark colour.  The draw colour is set
    in three places only, to white when the canvas is cleared (at the start
    and on a right click) and to (200, 200, 200) before the window is
    redrawn at the end of each frame, and never before a line: at every
    SDL_RenderDrawLine the colour last set is white or that light grey. *)
Theorem main_line_colours (expf : float32 -> float32) (E : App.Engine)
    (sdl : App.Sdl) (frames : list (list App.event)) (c0 : Z * Z * Z * Z) :
  Forall (fun c => c = Render.white \/ c = Render.grey)
         (Render.line_colours c0 (Render.main_calls expf E sdl frames)).
Proof.
  unfold Render.main_calls.
  destruct (App.MNISTModel_new E "mnist.onnx") as [h| |]; try constructor.
  destruct (App.init_ok sdl); [|constructor].
  destruct (App.window_ok sdl); [|constructor].
  destruct (App.renderer_ok sdl); [|constructor].
  cbn [negb]. unfold Render.setup_calls, Render.clear_canvas.
  cbn [app Render.line_colours].
  apply (line_colours_two Render.white); [left; reflexivity|].
  apply (loop_calls_Forall expf E sdl (fun _ => True)); try (intros; exact I).
  - intros e st _. apply event_calls_colours.
  - constructor; [right; reflexivity|repeat constructor].
  - repeat constructor.
Qed.

Lemma run_target_app t l1 l2 :
  Render.run_target t (l1 ++ l2)
  = Render.run_target t l1 ≫= fun t' => Render.run_target t' l2.
Proof.
  revert t. induction l1 as [|k l1 IH]; intros t; [reflexivity|].
  destruct k; cbn [app Render.run_target]; try apply IH;
    destruct t; try reflexivity; apply IH.
Qed.

Lemma run_target_balanced l1 l2 :
  Render.run_target false l1 = Some false ->
  Render.run_target false l2 = Some false ->
  Render.run_target false (l1 ++ l2) = Some false.
Proof. intros H1 H2. rewrite run_target_app, H1. exact H2. Qed.

Lemma clamp_range v lo hi : lo <= hi -> lo <= App.clamp v lo hi <= hi.
Proof.
  intros Hle. unfold App.clamp.
  destruct (Z.ltb_spec v lo); [lia|]. destruct (Z.ltb_spec hi v); lia.
Qed.

Section RenderLoop.

Import App.

Variable expf : float32 -> float32.
Variable E : Engine.
Variable sdl : Sdl.

Lemma event_calls_balanced (e : event) (st : loop_state E) :
  Render.run_target false (Render.event_calls e st) = Some false.
Proof.
  destruct e as [|sym|button x y|button|x y|]; cbn [Render.event_calls];
    try reflexivity.
  - destruct (button =? SDL_BUTTON_LEFT); [reflexivity|].
    destruct (button =? SDL_BUTTON_RIGHT); reflexivity.
  - destruct (button =? SDL_BUTTON_LEFT); reflexivity.
  - destruct (drawing st); reflexivity.
Qed.

Lemma poll_calls_balanced (q : list event) : forall st : loop_state E,
  Render.run_target false (Render.poll_calls expf sdl q st) = Some false.
Proof.
  induction q as [|e q IH]; intros st; cbn [Render.poll_calls]; [reflexivity|].
  apply run_target_balanced; [apply event_calls_balanced|].
  destruct (handle_event expf sdl e st); [apply IH|reflexivity].
Qed.

Lemma loop_calls_balanced (frames : list (list event)) : forall st : loop_state E,
  Render.run_target false (Render.loop_calls expf sdl frames st) = Some false.
Proof.
  induction frames as [|q rest IH]; intros st; cbn [Render.loop_calls];
    destruct (quit st); try reflexivity.
  apply run_target_balanced; [apply poll_calls_balanced|].
  destruct (poll_events expf sdl q st); [|reflexivity].
  apply run_target_balanced; [reflexivity|apply IH].
Qed.

Lemma handle_event_on_canvas (e : event) (st st' : loop_state E) :
  Render.on_canvas st -> handle_event expf sdl e st = inl st' ->
  Render.on_canvas st'.
Proof.
  intros Hst.
  assert (Hc : forall x y,
             0 <= clamp x 0 (width - 1) <= width - 1
             /\ 0 <= clamp y 0 (height - 1) <= height - 1).
  { intros x y. split; apply clamp_range; vm_compute; discriminate. }
  destruct e as [|sym|button x y|button|x y|]; cbn [handle_event].
  - intros [= <-]. exact Hst.
  - destruct (sym =? SDLK_ESCAPE); intros [= <-]; exact Hst.
  - destruct (button =? SDL_BUTTON_LEFT); intros [= <-]; [apply Hc|exact Hst].
  - destruct (button =? SDL_BUTTON_LEFT); [|intros [= <-]; exact Hst].
    destruct (Normalizer.convertImage _ _ _ _); [|discriminate].
    destruct (Run expf _) as [[cls h]| |]; try discriminate.
    intros [= <-]. exact Hst.
  - destruct (drawing st); intros [= <-]; [apply Hc|exact Hst].
  - intros [= <-]. exact Hst.
Qed.

Lemma event_calls_in_reach (e : event) (st : loop_state E) :
  Render.on_canvas st ->
  Forall (fun k => Render.line_in_reach k = true) (Render.event_calls e st).
Proof.
  intros (Hx & Hy).
  destruct e as [|sym|button x y|button|x y|]; cbn [Render.event_calls];
    try constructor.
  - destruct (button =? SDL_BUTTON_LEFT); [constructor|].
    destruct (button =? SDL_BUTTON_RIGHT); repeat constructor.
  - destruct (button =? SDL_BUTTON_LEFT); repeat constructor.
  - destruct (drawing st); [|constructor]. cbv zeta.
    pose proof (clamp_range x 0 (width - 1) ltac:(vm_compute; discriminate)) as Hcx.
    pose proof (clamp_range y 0 (height - 1) ltac:(vm_compute; discriminate)) as Hcy.
    set (x' := clamp x 0 (width - 1)) in *. set (y' := clamp y 0 (height - 1)) in *.
    set (lx := (lastPos st).1) in *. set (ly := (lastPos st).2) in *.
    change (width - 1) with 279 in *. change (height - 1) with 223 in *.
    assert (Hadd : forall a i, 0 <= a <= 279 -> -2 <= i <= 2 ->
                     Int.add a i = a + i).
    { intros a i Ha Hi. unfold Int.add. apply wrap_small.
      unfold Int.in_range, Int.min_signed, Int.max_signed. lia. }
    assert (Hline : forall x1 x2, -2 <= x1 <= 281 -> -2 <= x2 <= 281 ->
              Render.line_in_reach (Render.SDL_RenderDrawLine x1 ly x2 y') = true).
    { intros x1 x2 H1 H2. cbn [Render.line_in_reach].
      change (width + 1) with 281. change (height - 1) with 223.
      rewrite !andb_true_iff, !Z.leb_le. lia. }
    change (seqZ (-2) 5) with [-2; -1; 0; 1; 2].
    cbn [app fmap list_fmap].
    repeat first [apply Forall_nil | apply Forall_cons; split];
      try reflexivity; try (apply Hline; rewrite ?Hadd; lia).
Qed.

(** The inner loop is left early by an exception or by undefined
    behaviour only. *)
Lemma handle_event_inr (e : event) (st : loop_state E) o :
  handle_event expf sdl e st = inr o ->
  (exists ex l, o = Terminated ex l) \/ (exists l, o = Undefined_behaviour l).
Proof.
  destruct e as [|sym|button x y|button|x y|]; cbn [handle_event];
    try discriminate.
  - destruct (sym =? SDLK_ESCAPE); discriminate.
  - destruct (button =? SDL_BUTTON_LEFT); discriminate.
  - destruct (button =? SDL_BUTTON_LEFT); [|discriminate].
    destruct (Normalizer.convertImage _ _ _ _); [|intros [= <-]; eauto].
    destruct (Run expf _) as [[cls h]| |]; intros [= <-]; eauto.
  - destruct (drawing st); discriminate.
Qed.

Lemma poll_events_inr (q : list event) : forall (st : loop_state E) o,
  poll_events expf sdl q st = inr o ->
  (exists ex l, o = Terminated ex l) \/ (exists l, o = Undefined_behaviour l).
Proof.
  induction q as [|e q IH]; intros st o; cbn [poll_events]; [discriminate|].
  destruct (handle_event expf sdl e st) as [st1|o1] eqn:He.
  - apply IH.
  - intros [= <-]. exact (handle_event_inr e st o1 He).
Qed.

(** The calls of the loop: no cleanup call before the loop is left, and
    the four cleanup calls, in order, when it is. *)
Lemma loop_calls_cleanup (frames : list (list event)) : forall st : loop_state E,
  exists body,
    Forall (fun k => Render.is_cleanup k = false) body
    /\ Render.loop_calls expf sdl frames st
       = body ++ match main_loop expf sdl frames st with
                 | Exited _ _ => Render.cleanup_calls
                 | _ => []
                 end.
Proof.
  assert (Hev : forall e (st : loop_state E),
            Forall (fun k => Render.is_cleanup k = false) (Render.event_calls e st)).
  { intros e st.
    destruct e as [|sym|button x y|button|x y|]; cbn [Render.event_calls];
      try constructor.
    - destruct (button =? SDL_BUTTON_LEFT); [constructor|].
      destruct (button =? SDL_BUTTON_RIGHT); repeat constructor.
    - destruct (button =? SDL_BUTTON_LEFT); repeat constructor.
    - destruct (drawing st); [|constructor]. cbv zeta.
      change (seqZ (-2) 5) with [-2; -1; 0; 1; 2].
      cbn [app fmap list_fmap]. repeat constructor. }
  assert (Hpoll : forall q (st : loop_state E),
            Forall (fun k => Render.is_cleanup k = false)
                   (Render.poll_calls expf sdl q st)).
  { induction q as [|e q IH]; intros st; cbn [Render.poll_calls]; [constructor|].
    apply Forall_app. split; [apply Hev|].
    destruct (handle_event expf sdl e st); [apply IH|constructor]. }
  induction frames as [|q rest IH]; intros st; cbn [Render.loop_calls main_loop].
  - destruct (quit st); exists []; split; try constructor; reflexivity.
  - destruct (quit st); [exists []; split; [constructor|reflexivity]|].
    destruct (poll_events expf sdl q st) as [st1|o] eqn:Ep.
    + destruct (IH st1) as (body & Hbody & ->).
      exists (Render.poll_calls expf sdl q st ++ Render.frame_calls ++ body).
      split; [|now rewrite <- !app_assoc].
      apply Forall_app. split; [apply Hpoll|].
      apply Forall_app. split; [repeat constructor|exact Hbody].
    + exists (Render.poll_calls expf sdl q st). split; [apply Hpoll|].
      destruct (poll_events_inr q st o Ep) as [(ex & l & ->)|(l & ->)];
        now rewrite !app_nil_r.
Qed.

(** The loop itself returns 0 only. *)
Lemma main_loop_cases (frames : list (list event)) : forall (st : loop_state E),
  match main_loop expf sdl frames st with
  | Exited code _ => code = 0
  | _ => True
  end.
Proof.
  induction frames as [|q rest IH]; intros st; cbn [main_loop].
  - destruct (quit st); [reflexivity|exact I].
  - destruct (quit st); [reflexivity|].
    destruct (poll_events expf sdl q st) as [st1|o] eqn:Ep; [apply IH|].
    destruct (poll_events_inr q st o Ep) as [(ex & l & ->)|(l & ->)]; exact I.
Qed.

End RenderLoop.

(** X15. main keeps the render target in step with what it does.  Every
    line and every read of the pixels is made while the canvas texture is
    the target, every copy to the window and every present while the
    window is, and the target is the window again after each event, each
    frame and at the end of the run, an end by exception included. *)
Theorem main_render_targets (expf : float32 -> float32) (E : App.Engine)
    (sdl : App.Sdl) (frames : list (list App.event)) :
  Render.run_target false (Render.main_calls expf E sdl frames) = Some false.
Proof.
  unfold Render.main_calls.
  destruct (App.MNISTModel_new E "mnist.onnx") as [h| |]; try reflexivity.
  destruct (App.init_ok sdl); [|reflexivity].
  destruct (App.window_ok sdl); [|reflexivity].
  destruct (App.renderer_ok sdl); [|reflexivity].
  cbn [negb]. apply run_target_balanced; [reflexivity|].
  apply loop_calls_balanced.
Qed.

(** X16. The four cleanup calls (SDL_DestroyTexture, SDL_DestroyRenderer,
    SDL_DestroyWindow, SDL_Quit) are the last calls of a run that returns
    0 and are made nowhere before; a run that an exception of Run ends
    makes none of them, and neither does the loop while it is polling. *)
Theorem main_cleanup (expf : float32 -> float32) (E : App.Engine)
    (sdl : App.Sdl) (frames : list (list App.event)) :
  match App.main expf E sdl frames with
  | App.Exited 0 _ =>
      exists body,
        Render.main_calls expf E sdl frames = body ++ Render.cleanup_calls
        /\ Forall (fun k => Render.is_cleanup k = false) body
  | App.Exited _ _ => True
  | _ =>
      Forall (fun k => Render.is_cleanup k = false)
             (Render.main_calls expf E sdl frames)
  end.
Proof.
  unfold Render.main_calls, App.main.
  destruct (App.MNISTModel_new E "mnist.onnx") as [h|e|]; [|exact I|constructor].
  destruct (App.init_ok sdl); [|exact I].
  destruct (App.window_ok sdl); [|exact I].
  destruct (App.renderer_ok sdl); [|exact I].
  cbn [negb].
  set (st := App.mkLoop false false (0, 0) 0%nat h [App.Cout App.banner]).
  destruct (loop_calls_cleanup expf E sdl frames st) as (body & Hbody & ->).
  assert (Hsetup : Forall (fun k => Render.is_cleanup k = false) Render.setup_calls)
    by repeat constructor.
  pose proof (main_loop_cases expf E sdl frames st) as Hcode.
  destruct (App.main_loop expf sdl frames st) as [code l|ex l|l|l];
    try (rewrite app_nil_r; apply Forall_app; split; assumption).
  rewrite Hcode.
  exists (Render.setup_calls ++ body). split; [now rewrite app_assoc|].
  apply Forall_app. split; assumption.
Qed.

(** X17. Every line main draws has both ends in the rows 0..223 of the
    canvas and in the columns -2..281: the point a stroke goes on from is
    always a clamped pointer position, the five lines of the brush are
    shifted by -2..2 columns, in int arithmetic that does not overflow,
    and so reach up to two columns beyond either side of the canvas. *)
Theorem main_lines_in_reach (expf : float32 -> float32) (E : App.Engine)
    (sdl : App.Sdl) (frames : list (list App.event)) :
  Forall (fun k => Render.line_in_reach k = true)
         (Render.main_calls expf E sdl frames).
Proof.
  unfold Render.main_calls.
  destruct (App.MNISTModel_new E "mnist.onnx") as [h| |]; try constructor.
  destruct (App.init_ok sdl); [|repeat constructor].
  destruct (App.window_ok sdl); [|repeat constructor].
  destruct (App.renderer_ok sdl); [|repeat constructor].
  cbn [negb]. apply Forall_app. split; [repeat constructor|].
  apply (loop_calls_Forall expf E sdl Render.on_canvas).
  - apply handle_event_on_canvas.
  - apply event_calls_in_reach.
  - repeat constructor.
  - repeat constructor.
  - split; vm_compute; split; discriminate.
Qed.

Lemma lines_app l1 l2 :
  Render.lines (l1 ++ l2) = (Render.lines l1 + Render.lines l2)%nat.
Proof.
  induction l1 as [|k l1 IH]; [reflexivity|].
  destruct k; cbn [app Render.lines]; rewrite IH; reflexivity.
Qed.

Lemma drags_app q1 q2 held :
  Events.drags held (q1 ++ q2)
  = (Events.drags held q1
     + Events.drags (fold_left Events.held_after q1 held) q2)%nat.
Proof.
  revert held. induction q1 as [|e q1 IH]; intros held; [reflexivity|].
  cbn [app Events.drags fold_left]. rewrite IH. lia.
Qed.

Section Strokes.

Import App.

Variable expf : float32 -> float32.
Variable E : Engine.
Variable sdl : Sdl.
Hypothesis Hrun : forall s img, exists out, session_run E s img = inr out.

Lemma handle_event_lines (e : event) (st : loop_state E) :
  Events.state_wf st ->
  exists st',
    handle_event expf sdl e st = inl st'
    /\ drawing st' = Events.held_after (drawing st) e
    /\ Render.lines (Render.event_calls e st)
       = (6 * Events.drags (drawing st) [e])%nat.
Proof.
  intros Hwf. pose proof (handle_event_spec expf E sdl e st Hwf) as Hspec.
  destruct (handle_event expf sdl e st) as [st'|o] eqn:He.
  - exists st'. split; [reflexivity|]. clear Hspec.
    destruct e as [|sym|button x y|button|x y|];
      cbn [handle_event Render.event_calls Events.held_after Events.drags] in *.
    + injection He as <-. split; reflexivity.
    + destruct (sym =? SDLK_ESCAPE); injection He as <-; split; reflexivity.
    + destruct (button =? SDL_BUTTON_LEFT); injection He as <-;
        (split; [reflexivity|]); [reflexivity|].
      destruct (button =? SDL_BUTTON_RIGHT); reflexivity.
    + destruct (button =? SDL_BUTTON_LEFT); [|injection He as <-; split; reflexivity].
      split; [|reflexivity].
      destruct (Normalizer.convertImage _ _ _ _); [|discriminate].
      destruct (Run expf _) as [[cls h]| |]; try discriminate.
      injection He as <-. reflexivity.
    + destruct (drawing st) eqn:Ed; injection He as <-; cbn [drawing];
        rewrite ?Ed; split; reflexivity.
    + injection He as <-. split; reflexivity.
  - exfalso. destruct o as [| ex l | |]; try contradiction.
    destruct Hspec as ((img & Himg) & _).
    destruct (Hrun (session_ (mnistModel st)) img) as (out & Hout). congruence.
Qed.

Lemma poll_calls_lines (q : list event) : forall st : loop_state E,
  Events.state_wf st ->
  exists st',
    poll_events expf sdl q st = inl st'
    /\ Events.state_wf st'
    /\ quit st' = quit st || existsb Events.is_quit q
    /\ drawing st' = fold_left Events.held_after q (drawing st)
    /\ Render.lines (Render.poll_calls expf sdl q st)
       = (6 * Events.drags (drawing st) q)%nat.
Proof.
  induction q as [|e q IH]; intros st Hwf.
  - exists st. cbn [existsb]. rewrite orb_false_r.
    split; [reflexivity|]. split; [exact Hwf|]. repeat split.
  - destruct (handle_event_lines e st Hwf) as (st1 & He & Hd & Hl).
    pose proof (handle_event_spec expf E sdl e st Hwf) as Hspec.
    rewrite He in Hspec. destruct Hspec as (Hwf1 & _ & Hq1 & _).
    destruct (IH st1 Hwf1) as (st2 & Hp & Hwf2 & Hq2 & Hd2 & Hl2).
    exists st2. cbn [poll_events Render.poll_calls fold_left existsb].
    rewrite He, Hp. split; [reflexivity|]. split; [exact Hwf2|].
    split; [rewrite Hq2, Hq1; symmetry; apply orb_assoc|].
    split; [rewrite Hd2, Hd; reflexivity|].
    rewrite lines_app, Hl, Hl2, Hd.
    cbn [Events.drags]. lia.
Qed.

Lemma loop_calls_lines (frames : list (list event)) : forall st : loop_state E,
  Events.state_wf st -> quit st = false ->
  Render.lines (Render.loop_calls expf sdl frames st)
  = (6 * Events.drags (drawing st) (Events.handled frames))%nat.
Proof.
  induction frames as [|q rest IH]; intros st Hwf Hq;
    cbn [Render.loop_calls Events.handled]; rewrite Hq; [reflexivity|].
  destruct (poll_calls_lines q st Hwf) as (st1 & Hp & Hwf1 & Hq1 & Hd1 & Hl1).
  rewrite Hp, !lines_app, Hl1, drags_app.
  rewrite Hq in Hq1. cbn [orb] in Hq1.
  change (Render.lines Render.frame_calls) with 0%nat.
  destruct (existsb Events.is_quit q).
  - assert (Ec : Render.loop_calls expf sdl rest st1 = Render.cleanup_calls)
      by (destruct rest; cbn [Render.loop_calls]; now rewrite Hq1).
    rewrite Ec. cbn [Events.drags]. change (Render.lines Render.cleanup_calls) with 0%nat.
    lia.
  - rewrite (IH st1 Hwf1 Hq1), Hd1. lia.
Qed.

End Strokes.

(** X18. With a runtime whose Run never faults, the model loaded and SDL
    started, main draws six lines for each pointer motion that comes while
    the left button is held (the centre line, then the five lines of the
    brush, the centre one again among them) and none for any other event:
    a motion before the first press or after a release draws nothing. *)
Theorem main_lines_count (expf : float32 -> float32) (E : App.Engine)
    (sdl : App.Sdl) (frames : list (list App.event)) (h : App.Handle E) :
  (forall s img, exists out, App.session_run E s img = inr out) ->
  App.MNISTModel_new E "mnist.onnx" = App.Ok h ->
  App.init_ok sdl && App.window_ok sdl && App.renderer_ok sdl = true ->
  Render.lines (Render.main_calls expf E sdl frames)
  = (6 * Events.drags false (Events.handled frames))%nat.
Proof.
  intros Hrun Hload Hsdl. unfold Render.main_calls. rewrite Hload.
  apply andb_true_iff in Hsdl as (Hsdl & ->).
  apply andb_true_iff in Hsdl as (-> & ->). cbn [negb].
  rewrite lines_app. change (Render.lines Render.setup_calls) with 0%nat.
  rewrite (loop_calls_lines expf E sdl Hrun frames); [reflexivity| |reflexivity].
  destruct (MNISTModel_new_cases E "mnist.onnx") as [(s & Hs & _)|(e & He)];
    rewrite Hload in *; [|discriminate].
  injection Hs as ->. exact model_init_wf.
Qed.

Lemma main_lines_count_witness :
  let E := App.engine_with (Some (App.mkFile App.input_shape_ App.output_shape_))
             (fun _ => inr (Vector.const F32.zero 10)) in
  let frames :=
    [[App.SDL_MOUSEMOTION 3 4; App.SDL_MOUSEBUTTONDOWN 1 5 5;
      App.SDL_MOUSEMOTION 60 70; App.SDL_MOUSEMOTION 300 (-4)];
     [App.SDL_MOUSEBUTTONUP App.SDL_BUTTON_LEFT; App.SDL_MOUSEMOTION 9 9;
      App.SDL_QUIT]] in
  Render.lines (Render.main_calls ExpRef.expf E App.quiet_sdl frames)
  = (6 * Events.drags false (Events.handled frames))%nat.
Proof.
  intros E frames.
  apply (main_lines_count ExpRef.expf E App.quiet_sdl frames
           (@App.mkHandle E (App.mkFile App.input_shape_ App.output_shape_) model_init)).
  - intros s img. eexists. reflexivity.
  - reflexivity.
  - reflexivity.
Defined.
